(** * BusTub 2023: persistent trie, LRU-K replacer and buffer pool manager

    A shallow embedding of [src/primer/trie.cpp], [src/buffer/lru_k_replacer.cpp]
    and [src/buffer/buffer_pool_manager.cpp], followed by the properties of the
    storage-layer specification that are stated about them. *)

From Stdlib Require Import ZArith Lia Ascii.
From stdpp Require Import functions gmap strings list sorting.

Open Scope Z_scope.

#[local] Set Warnings "-clear-no-such-hyp".

(** ** Outcomes of a C++ call

    A call either returns, throws, has no defined behaviour (a null pointer
    or a past-the-end iterator is used, an array is indexed out of bounds) or
    never returns. *)
Inductive result (A : Type) : Type :=
  | Ok (a : A)
  | OutOfRange            (* std::out_of_range thrown by std::map::at *)
  | ExecutionException    (* bustub::ExecutionException *)
  | NullDeref             (* member access through a null pointer *)
  | Undefined             (* erase(end()), index outside an array *)
  | Diverges.             (* a loop that does not end *)
Arguments Ok {A} a.
Arguments OutOfRange {A}.
Arguments ExecutionException {A}.
Arguments NullDeref {A}.
Arguments Undefined {A}.
Arguments Diverges {A}.

Definition returns {A : Type} (r : result A) : Prop :=
  match r with Ok _ => True | _ => False end.

(** Sequencing: the first call that does not return ends the operation. *)
#[global] Instance result_bind : MBind result := λ A B k r,
  match r with
  | Ok a => k a
  | OutOfRange => OutOfRange
  | ExecutionException => ExecutionException
  | NullDeref => NullDeref
  | Undefined => Undefined
  | Diverges => Diverges
  end.

#[global] Instance result_fmap : FMap result := λ A B k r,
  match r with
  | Ok a => Ok (k a)
  | OutOfRange => OutOfRange
  | ExecutionException => ExecutionException
  | NullDeref => NullDeref
  | Undefined => Undefined
  | Diverges => Diverges
  end.

(** ** The persistent trie ([src/primer/trie.cpp]) *)
Module Trie.

(** The value types [Put] and [Get] are instantiated at (end of trie.cpp);
    a constructor of [Value] is the payload of a [TrieNodeWithValue<T>]
    together with its dynamic type. *)
Inductive ValueType : Type := TUInt32 | TUInt64 | TString | TInteger.

Inductive Value : Type :=
  | VUInt32 (n : Z)
  | VUInt64 (n : Z)
  | VString (s : string)
  | VInteger (n : Z).      (* Integer = std::unique_ptr<uint32_t> *)

Definition type_of (v : Value) : ValueType :=
  match v with
  | VUInt32 _ => TUInt32
  | VUInt64 _ => TUInt64
  | VString _ => TString
  | VInteger _ => TInteger
  end.

#[global] Instance ValueType_eq_dec : EqDecision ValueType.
Proof. solve_decision. Defined.

(** A non-null [shared_ptr] to a node: its place in the store of all the
    nodes ever made.  Snapshots share nodes, so the nodes live in one store
    and every operation threads it. *)
Abbreviation node_ptr := nat (only parsing).

(** Modelled from the spec: the node classes of [primer/trie.h], which is not
    among the sources.  "TrieNode: holds a mapping from single-byte child
    labels to child nodes, plus a boolean is_value_node"; "TrieNodeWithValue<T>:
    a TrieNode that additionally carries a shared-ownership handle to a value
    of type T".  [value_ = Some v] is a [TrieNodeWithValue], [None] a plain
    [TrieNode]. *)
Record TrieNode : Type := mkTrieNode {
  children_ : gmap ascii node_ptr;
  value_ : option Value
}.

Definition is_value_node_ (n : TrieNode) : bool :=
  match value_ n with Some _ => true | None => false end.

Abbreviation store := (list TrieNode) (only parsing).

(** A [Trie] holds [root_], a possibly null [shared_ptr<const TrieNode>]. *)
Abbreviation Trie := (option node_ptr) (only parsing).

(** [p->...] for a non-null [p]. *)
Definition deref (h : store) (p : node_ptr) : result TrieNode :=
  match h !! p with
  | Some n => Ok n
  | None => Undefined
  end.

(** [std::make_shared]: a new node, at a place no pointer names yet. *)
Definition make_shared (n : TrieNode) (h : store) : node_ptr * store :=
  (length h, h ++ [n]).

(** [TrieNode::Clone]: a new node of the same dynamic type with the same
    children. *)
Definition Clone (p : node_ptr) (h : store) : result (node_ptr * store) :=
  n ← deref h p;
  Ok (make_shared n h).

Definition empty_node : TrieNode := mkTrieNode ∅ None.

(** [p->children_[ch] = child] and [p->children_.erase(ch)]. *)
Definition set_child (p : node_ptr) (ch : ascii) (child : node_ptr) (h : store) : store :=
  alter (λ n, mkTrieNode (<[ch := child]> (children_ n)) (value_ n)) p h.
Definition erase_child (p : node_ptr) (ch : ascii) (h : store) : store :=
  alter (λ n, mkTrieNode (delete ch (children_ n)) (value_ n)) p h.

Definition nul : ascii := "000"%char.

Definition key_empty (key : string) : bool :=
  match key with EmptyString => true | _ => false end.

(** The walk [for (char ch : key)] of [Get] and of the first loop of
    [Remove]: [Ok None] when a label is absent. *)
Fixpoint walk (h : store) (cur : node_ptr) (key : string) : result (option node_ptr) :=
  match key with
  | EmptyString => Ok (Some cur)
  | String ch rest =>
      n ← deref h cur;
      match children_ n !! ch with
      | Some child => walk h child rest
      | None => Ok None
      end
  end.

(** [std::dynamic_pointer_cast<const TrieNodeWithValue<T>>(cur)] followed by
    [node->value_.get()]. *)
Definition dynamic_cast (T : ValueType) (cur : TrieNode) : option Value :=
  match value_ cur with
  | Some v => if decide (type_of v = T) then Some v else None
  | None => None
  end.

(** [children_.at(ch)] *)
Definition at_ (n : TrieNode) (ch : ascii) : result node_ptr :=
  match children_ n !! ch with
  | Some child => Ok child
  | None => OutOfRange
  end.

(** [Trie::Get<T>]; [Ok None] is the null result. *)
Definition Get (h : store) (t : Trie) (T : ValueType) (key : string)
    : result (option Value) :=
  match t with
  | None => Ok None
  | Some root =>
      w ← walk h root key;
      match w with
      | None => Ok None
      | Some cur =>
          cur ← (if key_empty key
                  then n ← deref h cur; at_ n nul
                  else Ok cur);
          n ← deref h cur;
          Ok (dynamic_cast T n)
      end
  end.

(** [cur != nullptr && cur->children_.count(ch) != 0], with the child. *)
Definition find_child (h : store) (cur : option node_ptr) (ch : ascii)
    : result (option node_ptr) :=
  match cur with
  | None => Ok None
  | Some c => n ← deref h c; Ok (children_ n !! ch)
  end.

(** The loop of [Trie::Put].  [cur] walks the old trie and [new_cur] the copy.
    When the label is absent, [cur] is left where it is. *)
Fixpoint put_loop (key : string) (value : Value) (cur : option node_ptr)
    (new_cur : node_ptr) (h : store) : result store :=
  match key with
  | EmptyString => Ok h
  | String ch rest =>
      found ← find_child h cur ch;
      match rest with
      | EmptyString =>                      (* i == key.length() - 1 *)
          match found with
          | Some c =>
              n ← deref h c;
              let '(next_cur, h) := make_shared (mkTrieNode (children_ n) (Some value)) h in
              Ok (set_child new_cur ch next_cur h)
          | None =>
              let '(next_cur, h) := make_shared (mkTrieNode ∅ (Some value)) h in
              Ok (set_child new_cur ch next_cur h)
          end
      | String _ _ =>
          match found with
          | Some c =>
              '(next_cur, h) ← Clone c h;
              let h := set_child new_cur ch next_cur h in
              put_loop rest value (Some c) next_cur h
          | None =>
              let '(next_cur, h) := make_shared empty_node h in
              let h := set_child new_cur ch next_cur h in
              put_loop rest value cur next_cur h
          end
      end
  end.

(** [root != nullptr ? root->Clone() : std::make_shared<TrieNode>()] *)
Definition clone_root (h : store) (root : Trie) : result (node_ptr * store) :=
  match root with
  | Some r => Clone r h
  | None => Ok (make_shared empty_node h)
  end.

(** [Trie::Put<T>]: the new snapshot and the store with its nodes added. *)
Definition Put (h : store) (t : Trie) (key : string) (value : Value)
    : result (Trie * store) :=
  let root := t in
  '(new_root, h) ← clone_root h root;
  if key_empty key then
    let '(next_cur, h) := make_shared (mkTrieNode ∅ (Some value)) h in
    Ok (Some new_root, set_child new_root nul next_cur h)
  else
    h ← put_loop key value root new_root h;
    Ok (Some new_root, h).

(** Second loop of [Trie::Remove]: clone the nodes along the key and hang each
    clone under the previous one; [path] collects them, last first (the loop
    after it reverses the vector). *)
Fixpoint clone_path (key : string) (cur new_cur : node_ptr)
    (path : list (ascii * node_ptr)) (h : store)
    : result (list (ascii * node_ptr) * store) :=
  match key with
  | EmptyString => Ok (path, h)
  | String ch rest =>
      n ← deref h cur;
      cur ← at_ n ch;
      '(next_cur, h) ← Clone cur h;
      let h := set_child new_cur ch next_cur h in
      clone_path rest cur next_cur ((ch, next_cur) :: path) h
  end.

(** Body of the third loop of [Trie::Remove] at position [i] of the reversed
    path, for the node [n] under label [ch] of [parent_node]. *)
Definition prune_step (i : nat) (ch : ascii) (n : TrieNode)
    (parent_node : node_ptr) (h : store) : store :=
  if (Nat.eqb i 0 && is_value_node_ n)%bool then
    if decide (children_ n = ∅)
    then erase_child parent_node ch h
    else
      let '(new_node, h) := make_shared (mkTrieNode (children_ n) None) h in
      set_child parent_node ch new_node h
  else if (bool_decide (children_ n = ∅) && negb (is_value_node_ n))%bool
    then erase_child parent_node ch h
    else h.

(** Third loop of [Trie::Remove] over the reversed path: [i] counts from the
    terminal node, and the loop stops before the root. *)
Fixpoint prune_loop (i : nat) (path : list (ascii * node_ptr)) (h : store)
    : result store :=
  match path with
  | (ch, node) :: (((_, parent_node) :: _) as up) =>
      n ← deref h node;
      prune_loop (S i) up (prune_step i ch n parent_node h)
  | _ => Ok h
  end.

(** [Trie::Remove] *)
Definition Remove (h : store) (t : Trie) (key : string) : result (Trie * store) :=
  let root := t in
  '(new_root, h) ← clone_root h root;
  let h := if key_empty key then erase_child new_root nul h else h in
  match root with
  | None => NullDeref      (* cur->children_ or cur->is_value_node_, cur == nullptr *)
  | Some r =>
      w ← walk h r key;
      match w with
      | None => Ok (Some new_root, h)
      | Some cur =>
          n ← deref h cur;
          if negb (is_value_node_ n) then Ok (Some new_root, h)
          else
            '(path, h) ← clone_path key r new_root [(nul, new_root)] h;
            h ← prune_loop 0 path h;
            n ← deref h new_root;
            if decide (children_ n = ∅) then Ok (None, h)
            else Ok (Some new_root, h)
      end
  end.

(** *** Some snapshots *)

Open Scope string_scope.

(** The trie with "b" -> 1 and "bc" -> 3, built from the empty trie. *)
Definition trie_b_bc : result (Trie * store) :=
  '(t, h) ← Put [] None "b" (VUInt32 1);
  Put h t "bc" (VUInt32 3).

(** ... then "xb" -> 2 is put and removed again. *)
Definition trie_b_bc_put_remove_xb : result (Trie * Trie * store) :=
  '(t, h) ← trie_b_bc;
  '(t1, h1) ← Put h t "xb" (VUInt32 2);
  '(t2, h2) ← Remove h1 t1 "xb";
  Ok (t, t2, h2).

(** The empty key put into the empty trie and removed again. *)
Definition trie_put_remove_empty_key : result (Trie * store) :=
  '(t1, h1) ← Put [] None "" (VUInt32 1);
  Remove h1 t1 "".

(** The snapshot and the store of a result, the empty ones when there is
    none. *)
Definition snapshot_of (r : result (Trie * store)) : Trie :=
  match r with Ok (t, _) => t | _ => None end.
Definition store_of (r : result (Trie * store)) : store :=
  match r with Ok (_, h) => h | _ => [] end.

Close Scope string_scope.

(** *** Stores without dangling pointers *)

(** Every pointer stored in a node names a node of the store. *)
Definition closed (h : store) : Prop :=
  ∀ p n ch c, h !! p = Some n → children_ n !! ch = Some c → (c < length h)%nat.

(** The same, as a test. *)
Definition closedb (h : store) : bool :=
  forallb (λ n, forallb (λ kc : ascii * node_ptr, kc.2 <? length h)%nat
                  (map_to_list (children_ n))) h.

(** The root of a snapshot names a node of the store. *)
Definition valid (h : store) (t : Trie) : Prop :=
  match t with
  | Some r => (r < length h)%nat
  | None => True
  end.

(** [h'] has every node of [h], unchanged. *)
Definition extends (h h' : store) : Prop :=
  ∀ p, (p < length h)%nat → h' !! p = h !! p.

(** *** Reading below a node *)

(** What [Get<T>] finds from node [p] along [key]: its loop and its cast,
    without the detour of the empty key. *)
Definition read (h : store) (p : node_ptr) (T : ValueType) (key : string)
    : result (option Value) :=
  w ← walk h p key;
  match w with
  | None => Ok None
  | Some cur => n ← deref h cur; Ok (dynamic_cast T n)
  end.

(** The cast of a node that holds [v]. *)
Definition cast_value (T : ValueType) (v : Value) : option Value :=
  if decide (type_of v = T) then Some v else None.

(** The test [cur != nullptr && cur->children_.count(ch) != 0] of [Put]
    fails for every character of [key]. *)
Fixpoint all_miss (h : store) (cur : option node_ptr) (key : string) : Prop :=
  match key with
  | EmptyString => True
  | String ch rest => find_child h cur ch = Ok None ∧ all_miss h cur rest
  end.

(** The keys on which the stale [cur] of [Put] does no harm: once a
    character of the key is missing below [cur], no later character of the
    key is found below that same [cur]. *)
Fixpoint put_safe (h : store) (cur : option node_ptr) (key : string) : Prop :=
  match key with
  | EmptyString => True
  | String ch rest =>
      match find_child h cur ch with
      | Ok (Some c) => put_safe h (Some c) rest
      | Ok None => all_miss h cur rest
      | _ => False
      end
  end.

(** The nodes a call has made itself: at or after the old end of the
    store. *)
Definition fresh (h0 h : store) (path : list (ascii * nat)) : Prop :=
  Forall (λ e, length h0 ≤ e.2 < length h)%nat path.

(** [h'] has the nodes of [h] from [q] on, unchanged. *)
Definition agree_from (q : nat) (h h' : store) : Prop :=
  ∀ x, (q ≤ x < length h)%nat → h' !! x = h !! x.

(** Node [q] of [h], made by an operation on the store [h0], reads like the
    old node [p] except at the key [s], where it reads [hit]; and it goes on
    doing so whatever is written below [q]. *)
Definition reads_as (h0 h : store) (q p : nat) (s : string)
    (hit : ValueType → result (option Value)) : Prop :=
  ∀ h', extends h0 h' → agree_from q h h' →
  ∀ T k', read h' q T k' = if decide (k' = s) then hit T else read h0 p T k'.

(** The key that leads from the root of a path to its first node, followed
    by [s]. *)
Fixpoint key_from_root (path : list (ascii * nat)) (s : string) : string :=
  match path with
  | (ch, _) :: ((_ :: _) as up) => key_from_root up (String ch s)
  | _ => s
  end.

(** The last node of a path, the copy of the root. *)
Fixpoint path_root (path : list (ascii * nat)) : nat :=
  match path with
  | [] => 0%nat
  | (_, q) :: up => match up with [] => q | _ :: _ => path_root up end
  end.

(** The path of [Remove] before its first node is looked at: every node
    above it is the copy of an old node with the edge of the path redirected
    to the copy below, copies are newer the deeper they are, and the old
    node of the last one is the root [r].  [p] is the old node of the first
    node of the path. *)
Fixpoint trail (r : nat) (h0 h : store) (path : list (ascii * nat)) (p : nat)
    : Prop :=
  match path with
  | [] => False
  | (ch, q) :: up =>
      (length h0 ≤ q < length h)%nat ∧
      match up with
      | [] => p = r
      | (_, parent) :: _ =>
          (parent < q)%nat ∧
          ∃ op on, h0 !! op = Some on ∧ children_ on !! ch = Some p ∧
            h !! parent = Some (mkTrieNode (<[ch := q]> (children_ on)) (value_ on)) ∧
            trail r h0 h up op
      end
  end.

(** What is gone reads as "not found". *)
Definition gone : ValueType → result (option Value) := λ _, Ok None.

End Trie.

(** ** The LRU-K replacer ([src/buffer/lru_k_replacer.cpp]) *)
Module Replacer.

Abbreviation frame_id_t := Z (only parsing).        (* int32_t *)

(** [size_t] arithmetic is modulo [2^64]. *)
Definition SIZE_MOD : Z := 2 ^ 64.
Definition to_size_t (z : Z) : Z := z mod SIZE_MOD.

(** A [LRUKNode *].  The replacer owns three sentinels and at most one node per
    frame ([node_store_]); [Remove] unlinks a node before it deletes it, so a
    frame's node is named by the frame. *)
Inductive ptr : Type :=
  | HistoryEnd
  | MiddleSeparator
  | BufferStart
  | FrameNode (f : frame_id_t).

#[global] Instance ptr_eq_dec : EqDecision ptr.
Proof. solve_decision. Defined.

(** Modelled from the spec: class [LRUKNode] of [buffer/lru_k_replacer.h],
    which is not among the sources.  "LRUKNode: frame_id, bounded
    access-history of the K most recent access timestamps (oldest first),
    is_evictable, list links.  size = len(history)."  A new node has an empty
    history, is not evictable and is on no list. *)
Record LRUKNode : Type := mkNode {
  fid_ : frame_id_t;
  k_ : Z;
  history_ : list Z;
  is_evictable_ : bool;
  frontptr_ : option ptr;
  backptr_ : option ptr
}.

Definition new_LRUKNode (fid : frame_id_t) (k : Z) : LRUKNode :=
  mkNode fid k [] false None None.

Definition GetSize (n : LRUKNode) : Z := Z.of_nat (length (history_ n)).
Definition GetEvictable (n : LRUKNode) : bool := is_evictable_ n.
Definition GetFrameID (n : LRUKNode) : frame_id_t := fid_ n.

Definition node_SetEvictable (b : bool) (n : LRUKNode) : LRUKNode :=
  mkNode (fid_ n) (k_ n) (history_ n) b (frontptr_ n) (backptr_ n).
Definition CleanHistory (n : LRUKNode) : LRUKNode :=
  mkNode (fid_ n) (k_ n) [] (is_evictable_ n) (frontptr_ n) (backptr_ n).
Definition set_frontptr (p : option ptr) (n : LRUKNode) : LRUKNode :=
  mkNode (fid_ n) (k_ n) (history_ n) (is_evictable_ n) p (backptr_ n).
Definition set_backptr (p : option ptr) (n : LRUKNode) : LRUKNode :=
  mkNode (fid_ n) (k_ n) (history_ n) (is_evictable_ n) (frontptr_ n) p.

(** Modelled from the spec: [LRUKNode::RecordAccess], "append timestamp; if
    history exceeds K, drop the oldest".  The flag it returns says that the
    oldest timestamp was dropped. *)
Definition node_RecordAccess (timestamp : Z) (n : LRUKNode) : LRUKNode * bool :=
  let h := history_ n ++ [timestamp] in
  if k_ n <? Z.of_nat (length h)
  then (mkNode (fid_ n) (k_ n) (tail h) (is_evictable_ n) (frontptr_ n) (backptr_ n), true)
  else (mkNode (fid_ n) (k_ n) h (is_evictable_ n) (frontptr_ n) (backptr_ n), false).

Record LRUKReplacer : Type := mkReplacer {
  node_store_ : gmap Z LRUKNode;
  history_end : LRUKNode;          (* *history_end_ptr_ *)
  middle_separator : LRUKNode;     (* *middle_separator_ptr_ *)
  buffer_start : LRUKNode;         (* *buffer_start_ptr_ *)
  current_timestamp_ : Z;
  curr_size_ : Z;
  replacer_size_ : Z;
  rk_ : Z                          (* k_ *)
}.

Definition deref (r : LRUKReplacer) (p : ptr) : option LRUKNode :=
  match p with
  | HistoryEnd => Some (history_end r)
  | MiddleSeparator => Some (middle_separator r)
  | BufferStart => Some (buffer_start r)
  | FrameNode f => node_store_ r !! f
  end.

(** A write through a pointer: [p->field = ...]. *)
Definition update (p : ptr) (g : LRUKNode → LRUKNode) (r : LRUKReplacer)
    : LRUKReplacer :=
  match p with
  | HistoryEnd =>
      mkReplacer (node_store_ r) (g (history_end r)) (middle_separator r)
        (buffer_start r) (current_timestamp_ r) (curr_size_ r) (replacer_size_ r) (rk_ r)
  | MiddleSeparator =>
      mkReplacer (node_store_ r) (history_end r) (g (middle_separator r))
        (buffer_start r) (current_timestamp_ r) (curr_size_ r) (replacer_size_ r) (rk_ r)
  | BufferStart =>
      mkReplacer (node_store_ r) (history_end r) (middle_separator r)
        (g (buffer_start r)) (current_timestamp_ r) (curr_size_ r) (replacer_size_ r) (rk_ r)
  | FrameNode f =>
      mkReplacer (alter g f (node_store_ r)) (history_end r) (middle_separator r)
        (buffer_start r) (current_timestamp_ r) (curr_size_ r) (replacer_size_ r) (rk_ r)
  end.

Definition set_node_store (m : gmap Z LRUKNode) (r : LRUKReplacer) : LRUKReplacer :=
  mkReplacer m (history_end r) (middle_separator r) (buffer_start r)
    (current_timestamp_ r) (curr_size_ r) (replacer_size_ r) (rk_ r).
Definition set_current_timestamp (t : Z) (r : LRUKReplacer) : LRUKReplacer :=
  mkReplacer (node_store_ r) (history_end r) (middle_separator r) (buffer_start r)
    t (curr_size_ r) (replacer_size_ r) (rk_ r).
Definition set_curr_size (n : Z) (r : LRUKReplacer) : LRUKReplacer :=
  mkReplacer (node_store_ r) (history_end r) (middle_separator r) (buffer_start r)
    (current_timestamp_ r) n (replacer_size_ r) (rk_ r).

(** The constructor: the three sentinels are chained
    [history_end -> middle_separator -> buffer_start] (front pointers), and
    every frame below [num_frames] gets a node on no list. *)
Definition init_node_store (num_frames : Z) (k : Z) : gmap Z LRUKNode :=
  list_to_map ((λ i : nat, (Z.of_nat i, new_LRUKNode (Z.of_nat i) k))
                 <$> seq 0 (Z.to_nat num_frames)).

Definition new_LRUKReplacer (num_frames k : Z) : LRUKReplacer :=
  mkReplacer (init_node_store num_frames k)
    (mkNode (-1) 0 [] false (Some MiddleSeparator) None)
    (mkNode (-2) 0 [] false (Some BufferStart) (Some HistoryEnd))
    (mkNode (-3) 0 [] false None (Some MiddleSeparator))
    0 0 num_frames k.

Definition IsBufferEmpty (r : LRUKReplacer) : bool :=
  bool_decide (frontptr_ (middle_separator r) = Some BufferStart).
Definition IsHistoryEmpty (r : LRUKReplacer) : bool :=
  bool_decide (frontptr_ (history_end r) = Some MiddleSeparator).

(** [LRUKReplacer::DisLink] *)
Definition DisLink (node_ptr : ptr) (r : LRUKReplacer) : LRUKReplacer :=
  match deref r node_ptr with
  | None => r
  | Some n =>
      let node_back := backptr_ n in
      let node_front := frontptr_ n in
      let r := match node_back with
               | Some b => update b (set_frontptr node_front) r
               | None => r
               end in
      let r := match node_front with
               | Some f => update f (set_backptr node_back) r
               | None => r
               end in
      update node_ptr (λ n, set_backptr None (set_frontptr None n)) r
  end.

(** [LRUKReplacer::MoveToEnd] *)
Definition MoveToEnd (node_ptr end_node_ptr : ptr) (r : LRUKReplacer)
    : LRUKReplacer :=
  let r := DisLink node_ptr r in
  let end_node_front_ptr :=
    match deref r end_node_ptr with
    | Some e => frontptr_ e
    | None => None
    end in
  let r := update end_node_ptr (set_frontptr (Some node_ptr)) r in
  let r := match end_node_front_ptr with
           | Some ef => update ef (set_backptr (Some node_ptr)) r
           | None => r
           end in
  update node_ptr (λ n, set_backptr (Some end_node_ptr) (set_frontptr end_node_front_ptr n)) r.

(** One of the two [for] loops of [Evict]: from [node_ptr] along the back
    pointers until [stop], returning the first evictable node.  A walk that
    does not reach [stop] within [fuel] steps has met more nodes than there
    are, so it is on a cycle. *)
Fixpoint evict_scan (fuel : nat) (r : LRUKReplacer) (stop : ptr)
    (node_ptr : option ptr) : result (option ptr) :=
  match fuel with
  | O => Diverges
  | S fuel' =>
      match node_ptr with
      | None => NullDeref
      | Some p =>
          if decide (p = stop) then Ok None
          else match deref r p with
               | None => NullDeref
               | Some n =>
                   if GetEvictable n then Ok (Some p)
                   else evict_scan fuel' r stop (backptr_ n)
               end
      end
  end.

Definition scan_fuel (r : LRUKReplacer) : nat := size (node_store_ r) + 4.

(** The body of the [if (node_ptr->GetEvictable())] of [Evict]. *)
Definition evict_node (p : ptr) (r : LRUKReplacer)
    : result (option frame_id_t * LRUKReplacer) :=
  let r := DisLink p r in
  match deref r p with
  | None => NullDeref
  | Some n =>
      let frame_id := GetFrameID n in
      let r := update p (λ n, CleanHistory (node_SetEvictable false n)) r in
      let r := set_curr_size (to_size_t (curr_size_ r - 1)) r in
      Ok (Some frame_id, r)
  end.

(** [LRUKReplacer::Evict]; the frame is [Some] exactly when the call returns
    true. *)
Definition Evict (r : LRUKReplacer) : result (option frame_id_t * LRUKReplacer) :=
  if curr_size_ r =? 0 then Ok (None, r)
  else
    h ← (if negb (IsHistoryEmpty r)
          then evict_scan (scan_fuel r) r HistoryEnd (backptr_ (middle_separator r))
          else Ok None);
    match h with
    | Some p => evict_node p r
    | None =>
        c ← (if negb (IsBufferEmpty r)
              then evict_scan (scan_fuel r) r MiddleSeparator (backptr_ (buffer_start r))
              else Ok None);
        match c with
        | Some p => evict_node p r
        | None => Ok (None, r)
        end
    end.

(** [LRUKReplacer::RecordAccess] *)
Definition RecordAccess (frame_id : frame_id_t) (r : LRUKReplacer)
    : result LRUKReplacer :=
  let r := set_current_timestamp (to_size_t (current_timestamp_ r + 1)) r in
  if replacer_size_ r <=? to_size_t frame_id then ExecutionException
  else
    match node_store_ r !! frame_id with
    | None =>
        let new_node := new_LRUKNode frame_id (rk_ r) in
        let r := set_node_store (<[frame_id := new_node]> (node_store_ r)) r in
        let r := update (FrameNode frame_id)
                   (λ n, fst (node_RecordAccess (current_timestamp_ r) n)) r in
        Ok (MoveToEnd (FrameNode frame_id) HistoryEnd r)
    | Some n =>
        let node_ptr := FrameNode frame_id in
        let '(n', dropped) := node_RecordAccess (current_timestamp_ r) n in
        let r := update node_ptr (λ _, n') r in
        if dropped then Ok (MoveToEnd node_ptr MiddleSeparator r)
        else if GetSize n' <? rk_ r then Ok (MoveToEnd node_ptr HistoryEnd r)
        else Ok (MoveToEnd node_ptr MiddleSeparator r)
    end.

(** [LRUKReplacer::SetEvictable] *)
Definition SetEvictable (frame_id : frame_id_t) (set_evictable : bool)
    (r : LRUKReplacer) : LRUKReplacer :=
  match node_store_ r !! frame_id with
  | Some n =>
      if negb (eqb (GetEvictable n) set_evictable) then
        let r := update (FrameNode frame_id) (node_SetEvictable set_evictable) r in
        set_curr_size (to_size_t (curr_size_ r + (if set_evictable then 1 else -1))) r
      else r
  | None => r
  end.

(** [LRUKReplacer::Remove] *)
Definition Remove (frame_id : frame_id_t) (r : LRUKReplacer) : result LRUKReplacer :=
  match node_store_ r !! frame_id with
  | None => Ok r
  | Some n =>
      if negb (GetEvictable n) then ExecutionException
      else
        let r := DisLink (FrameNode frame_id) r in
        let r := set_node_store (delete frame_id (node_store_ r)) r in
        Ok (set_curr_size (to_size_t (curr_size_ r - 1)) r)
  end.

Definition Size (r : LRUKReplacer) : Z := curr_size_ r.

(** [LRUKReplacer::DebugPrint]: the lines it writes, one for every node from
    [history_end_ptr_] along the front pointers up to the null pointer; a
    line has the frame id, the size and the evictable flag of a node.  A walk
    of more than [fuel] nodes has met more nodes than there are, so it is on
    a cycle. *)
Fixpoint debug_lines (fuel : nat) (r : LRUKReplacer) (node_ptr : option ptr)
    : result (list (Z * Z * bool)) :=
  match node_ptr with
  | None => Ok []
  | Some p =>
      match fuel with
      | O => Diverges
      | S fuel' =>
          match deref r p with
          | None => NullDeref
          | Some n =>
              rest ← debug_lines fuel' r (frontptr_ n);
              Ok ((GetFrameID n, GetSize n, GetEvictable n) :: rest)
          end
      end
  end.

Definition DebugPrint (r : LRUKReplacer) : result (list (Z * Z * bool)) :=
  debug_lines (scan_fuel r) r (Some HistoryEnd).

(** A run of accesses, and marking some frames evictable. *)
Fixpoint RecordAccesses (frames : list Z) (r : LRUKReplacer) : result LRUKReplacer :=
  match frames with
  | [] => Ok r
  | f :: frames' => r' ← RecordAccess f r; RecordAccesses frames' r'
  end.

Definition SetEvictables (frames : list Z) (r : LRUKReplacer) : LRUKReplacer :=
  fold_left (λ r f, SetEvictable f true r) frames r.

(** The replacer state of a result, or the new replacer when there is
    none. *)
Definition state_of (num_frames k : Z) (r : result LRUKReplacer) : LRUKReplacer :=
  match r with
  | Ok r => r
  | _ => new_LRUKReplacer num_frames k
  end.

(** Four frames, [k = 2]: frame 1 accessed once, then marked evictable. *)
Definition replacer_accessed : LRUKReplacer :=
  state_of 4 2 (RecordAccess 1 (new_LRUKReplacer 4 2)).
Definition replacer_evictable : LRUKReplacer :=
  SetEvictable 1 true replacer_accessed.
(** ... and then removed. *)
Definition replacer_removed : LRUKReplacer :=
  state_of 4 2 (Remove 1 replacer_evictable).

(** *** The two lists, read off the pointers *)

(** [linked r prev l]: the nodes [l] follow one another along the front
    pointers, the first one has [prev] behind it, each one has its
    predecessor behind it, and the last one has nothing in front. *)
Fixpoint linked (r : LRUKReplacer) (prev : option ptr) (l : list ptr) : Prop :=
  match l with
  | [] => True
  | p :: l' =>
      ∃ n, deref r p = Some n ∧ backptr_ n = prev ∧ frontptr_ n = head l' ∧
           linked r (Some p) l'
  end.

(** The whole chain for a history list and a cache list of frames, each with
    its most recently placed frame first. *)
Definition chain (hist cache : list Z) : list ptr :=
  HistoryEnd :: (FrameNode <$> hist) ++
  MiddleSeparator :: (FrameNode <$> cache) ++ [BufferStart].

(** The most recent timestamp a node holds. *)
Definition last_access (n : LRUKNode) : Z := List.last (history_ n) 0.
Definition last_access_of (r : LRUKReplacer) (f : Z) : Z :=
  from_option last_access 0 (node_store_ r !! f).

Definition evictable_count (m : gmap Z LRUKNode) : nat :=
  size (filter (λ kv : Z * LRUKNode, is_evictable_ kv.2 = true) m).

(** The pointers spell out the two lists: [hist] and [cache] are the frames
    on them, and a node on neither has null links. *)
Record repr (r : LRUKReplacer) (hist cache : list Z) : Prop := mkRepr {
  repr_linked : linked r None (chain hist cache);
  repr_nodup : NoDup (hist ++ cache);
  repr_unlisted : ∀ f n, node_store_ r !! f = Some n → f ∉ hist ++ cache →
    frontptr_ n = None ∧ backptr_ n = None
}.

(** The states the operations keep to, for [2 <= k]. *)
Record wf (r : LRUKReplacer) (hist cache : list Z) : Prop := mkWf {
  wf_repr : repr r hist cache;
  wf_unlisted : ∀ f n, node_store_ r !! f = Some n → f ∉ hist ++ cache →
    history_ n = [];
  wf_listed : ∀ f n, node_store_ r !! f = Some n → f ∈ hist ++ cache →
    history_ n ≠ [];
  wf_node : ∀ f n, node_store_ r !! f = Some n →
    fid_ n = f ∧ k_ n = rk_ r ∧ 0 ≤ f < replacer_size_ r;
  wf_hist_size : ∀ f n, f ∈ hist → node_store_ r !! f = Some n →
    GetSize n < rk_ r;
  wf_cache_size : ∀ f n, f ∈ cache → node_store_ r !! f = Some n →
    rk_ r ≤ GetSize n;
  wf_hist_sorted : StronglySorted Z.gt (last_access_of r <$> hist);
  wf_cache_sorted : StronglySorted Z.gt (last_access_of r <$> cache);
  wf_time : ∀ f n, node_store_ r !! f = Some n →
    last_access n ≤ current_timestamp_ r;
  wf_clock : 0 ≤ current_timestamp_ r < SIZE_MOD;
  wf_count : curr_size_ r = Z.of_nat (evictable_count (node_store_ r));
  wf_capacity : replacer_size_ r ≤ 2 ^ 31;
  wf_k : 2 ≤ rk_ r
}.

(** The states reached from the constructor by calls that return.  A frame id
    is an [int32_t].  The clock is a [size_t]; the accesses counted are those
    before it wraps. *)
Inductive reachable (num_frames k : Z) : LRUKReplacer → Prop :=
  | reach_new :
      reachable num_frames k (new_LRUKReplacer num_frames k)
  | reach_RecordAccess r r' f :
      reachable num_frames k r → - 2 ^ 31 ≤ f < 2 ^ 31 →
      current_timestamp_ r + 1 < SIZE_MOD →
      RecordAccess f r = Ok r' → reachable num_frames k r'
  | reach_SetEvictable r f b :
      reachable num_frames k r → reachable num_frames k (SetEvictable f b r)
  | reach_Evict r r' victim :
      reachable num_frames k r → Evict r = Ok (victim, r') →
      reachable num_frames k r'
  | reach_Remove r r' f :
      reachable num_frames k r → Remove f r = Ok r' →
      reachable num_frames k r'.

(** The links and the rest of a node. *)
Definition links (n : LRUKNode) : option ptr * option ptr := (frontptr_ n, backptr_ n).
Definition data (n : LRUKNode) : Z * Z * list Z * bool :=
  (fid_ n, k_ n, history_ n, is_evictable_ n).

(** The node behind the first node of what follows [l1] on a chain that has
    [prev] behind it. *)
Definition behind (prev : option ptr) (l1 : list ptr) : option ptr :=
  match last l1 with
  | Some b => Some b
  | None => prev
  end.

(** Where an operation on a frame leaves it. *)
Inductive placement : Type := Unlisted | OnHistory | OnCache.

(** A list of frames without a frame. *)
Definition drop_frame (f : Z) (l : list Z) : list Z := filter (λ g, g ≠ f) l.

(** The lists after an operation on frame [f] that leaves it at [p]. *)
Definition hist_after (p : placement) (f : Z) (hist : list Z) : list Z :=
  match p with
  | OnHistory => f :: drop_frame f hist
  | _ => drop_frame f hist
  end.
Definition cache_after (p : placement) (f : Z) (cache : list Z) : list Z :=
  match p with
  | OnCache => f :: drop_frame f cache
  | _ => drop_frame f cache
  end.
Definition end_of (p : placement) : ptr :=
  match p with
  | OnCache => MiddleSeparator
  | _ => HistoryEnd
  end.

Definition b2n (b : bool) : nat := if b then 1%nat else 0%nat.

(** The line [DebugPrint] writes for the node of a frame. *)
Definition frame_line (r : LRUKReplacer) (f : Z) : Z * Z * bool :=
  match node_store_ r !! f with
  | Some n => (GetFrameID n, GetSize n, GetEvictable n)
  | None => (f, 0, false)
  end.

(** The first evictable frame of a list of frames. *)
Definition evictable_in (r : LRUKReplacer) (f : Z) : bool :=
  from_option is_evictable_ false (node_store_ r !! f).

Fixpoint first_evictable (r : LRUKReplacer) (l : list Z) : option Z :=
  match l with
  | [] => None
  | f :: l' => if evictable_in r f then Some f else first_evictable r l'
  end.

(** The capacity, and what the three sentinels hold besides their links. *)
Definition fixed (r : LRUKReplacer) : Z * list (Z * Z * list Z * bool) :=
  (replacer_size_ r,
   [data (history_end r); data (middle_separator r); data (buffer_start r)]).

(** The line of a node. *)
Definition node_line (r : LRUKReplacer) (p : ptr) : Z * Z * bool :=
  match p with
  | FrameNode f => frame_line r f
  | _ =>
      match deref r p with
      | Some n => (GetFrameID n, GetSize n, GetEvictable n)
      | None => (0, 0, false)
      end
  end.

End Replacer.

(** ** The buffer pool manager ([src/buffer/buffer_pool_manager.cpp]) *)
Module BufferPool.
Import Replacer.

Abbreviation page_id_t := Z (only parsing).         (* int32_t *)

(** [next_page_id_] is a [std::atomic<page_id_t>]: [++] wraps around in two's
    complement. *)
Definition wrap_int32 (z : Z) : Z := (z + 2 ^ 31) mod 2 ^ 32 - 2 ^ 31.

(** Modelled from the spec: [common/config.h], which is not among the
    sources.  "fixed page size (conventionally 4096 bytes)". *)
Definition BUSTUB_PAGE_SIZE : nat := 4096.
Definition INVALID_PAGE_ID : page_id_t := -1.

(** Modelled from the spec: class [Page] of [storage/page/page.h], which is
    not among the sources.  "Page: fixed-size byte buffer plus metadata
    page_id, pin_count >= 0, is_dirty."  A frame of a new pool holds no page,
    is unpinned and clean; [ResetMemory] zeroes the buffer and nothing else. *)
Record Page : Type := mkPage {
  data_ : list Z;
  page_id_ : page_id_t;
  pin_count_ : Z;
  is_dirty_ : bool
}.

Definition zero_data : list Z := replicate BUSTUB_PAGE_SIZE 0.
Definition new_Page : Page := mkPage zero_data INVALID_PAGE_ID 0 false.
Definition ResetMemory (p : Page) : Page :=
  mkPage zero_data (page_id_ p) (pin_count_ p) (is_dirty_ p).
Definition set_data (d : list Z) (p : Page) : Page :=
  mkPage d (page_id_ p) (pin_count_ p) (is_dirty_ p).
Definition set_page_id (i : page_id_t) (p : Page) : Page :=
  mkPage (data_ p) i (pin_count_ p) (is_dirty_ p).
Definition set_pin_count (c : Z) (p : Page) : Page :=
  mkPage (data_ p) (page_id_ p) c (is_dirty_ p).
Definition set_is_dirty (b : bool) (p : Page) : Page :=
  mkPage (data_ p) (page_id_ p) (pin_count_ p) b.

(** Modelled from the spec: the disk manager and the disk scheduler, which
    are not among the sources.  "Disk manager: a blocking page-addressable
    store exposing read(page_id, buf) -> bool and write(page_id, buf) ->
    bool."  "future.get() -> bool blocks until completion and returns
    success."  [blocks_] is what the store holds at each page id.
    [futures_] is what the futures of the coming requests return, in the
    order of the requests; past the end of the list a request succeeds.  A
    run makes finitely many requests, so a list covers every way in which the
    disk can answer them. *)
Record DiskManager : Type := mkDisk {
  blocks_ : page_id_t → list Z;
  futures_ : list bool
}.

(** A disk of zeroes on which every request succeeds. *)
Definition blank_disk : DiskManager := mkDisk (λ _, zero_data) [].

(** The pool.  [disk_] and [answers_] are the disk behind [disk_scheduler_]:
    its content and the answers of its coming futures. *)
Record BufferPoolManager : Type := mkBPM {
  pool_size_ : Z;
  pages_ : list Page;
  page_table_ : gmap Z Z;            (* page_id -> frame_id *)
  free_list_ : list Z;               (* std::list<int>, front first *)
  replacer_ : LRUKReplacer;
  next_page_id_ : Z;
  disk_ : page_id_t → list Z;
  answers_ : list bool
}.

Definition set_pages (v : list Page) (s : BufferPoolManager) :=
  mkBPM (pool_size_ s) v (page_table_ s) (free_list_ s) (replacer_ s)
    (next_page_id_ s) (disk_ s) (answers_ s).
Definition set_page_table (v : gmap Z Z) (s : BufferPoolManager) :=
  mkBPM (pool_size_ s) (pages_ s) v (free_list_ s) (replacer_ s)
    (next_page_id_ s) (disk_ s) (answers_ s).
Definition set_free_list (v : list Z) (s : BufferPoolManager) :=
  mkBPM (pool_size_ s) (pages_ s) (page_table_ s) v (replacer_ s)
    (next_page_id_ s) (disk_ s) (answers_ s).
Definition set_replacer (v : LRUKReplacer) (s : BufferPoolManager) :=
  mkBPM (pool_size_ s) (pages_ s) (page_table_ s) (free_list_ s) v
    (next_page_id_ s) (disk_ s) (answers_ s).
Definition set_next_page_id (v : Z) (s : BufferPoolManager) :=
  mkBPM (pool_size_ s) (pages_ s) (page_table_ s) (free_list_ s) (replacer_ s)
    v (disk_ s) (answers_ s).
Definition set_disk (v : page_id_t → list Z) (s : BufferPoolManager) :=
  mkBPM (pool_size_ s) (pages_ s) (page_table_ s) (free_list_ s) (replacer_ s)
    (next_page_id_ s) v (answers_ s).
Definition set_answers (v : list bool) (s : BufferPoolManager) :=
  mkBPM (pool_size_ s) (pages_ s) (page_table_ s) (free_list_ s) (replacer_ s)
    (next_page_id_ s) (disk_ s) v.

(** The constructor: every frame is on the free list, in increasing order. *)
Definition new_BufferPoolManager (pool_size : Z) (disk_manager : DiskManager)
    (replacer_k : Z) : BufferPoolManager :=
  mkBPM pool_size
    (replicate (Z.to_nat pool_size) new_Page)
    ∅
    (Z.of_nat <$> seq 0 (Z.to_nat pool_size))
    (new_LRUKReplacer pool_size replacer_k)
    0
    (blocks_ disk_manager)
    (futures_ disk_manager).

(** [pages_[frame_id]]; outside the array the access is undefined. *)
Definition page_at (s : BufferPoolManager) (frame_id : frame_id_t) : result Page :=
  if 0 <=? frame_id then
    match pages_ s !! Z.to_nat frame_id with
    | Some p => Ok p
    | None => Undefined
    end
  else Undefined.

(** A write [pages_[frame_id].field = ...]. *)
Definition update_page (frame_id : frame_id_t) (g : Page → Page)
    (s : BufferPoolManager) : BufferPoolManager :=
  set_pages (alter g (Z.to_nat frame_id) (pages_ s)) s.

(** [page_table_.emplace(page_id, frame_id)]: no effect on a key that is
    there. *)
Definition emplace (page_id : page_id_t) (frame_id : frame_id_t)
    (m : gmap Z Z) : gmap Z Z :=
  match m !! page_id with
  | Some _ => m
  | None => <[page_id := frame_id]> m
  end.

(** [page_table_.erase(page_table_.find(page_id))]: erasing [end()] is
    undefined. *)
Definition erase_found (page_id : page_id_t) (s : BufferPoolManager)
    : result BufferPoolManager :=
  match page_table_ s !! page_id with
  | Some _ => Ok (set_page_table (delete page_id (page_table_ s)) s)
  | None => Undefined
  end.

(** [free_list_.back()] with [free_list_.pop_back()]. *)
Definition pop_back (l : list Z) : option (Z * list Z) :=
  match l with
  | [] => None
  | _ => Some (List.last l 0, removelast l)
  end.

(** [AllocatePage] *)
Definition AllocatePage (s : BufferPoolManager) : page_id_t * BufferPoolManager :=
  (next_page_id_ s, set_next_page_id (wrap_int32 (next_page_id_ s + 1)) s).

(** [future.get()] of the request scheduled next, with the answers that are
    left for the requests after it. *)
Definition future_get (s : BufferPoolManager) : bool * BufferPoolManager :=
  match answers_ s with
  | [] => (true, s)
  | b :: rest => (b, set_answers rest s)
  end.

(** Scheduling a write of a frame and waiting for it:
    [if (!future_write.get()) throw ExecutionException(...)]. *)
Definition disk_write (page_id : page_id_t) (frame_id : frame_id_t)
    (s : BufferPoolManager) : result BufferPoolManager :=
  p ← page_at s frame_id;
  let '(done, s) := future_get s in
  if done then Ok (set_disk (<[page_id := data_ p]> (disk_ s)) s)
  else ExecutionException.

(** Scheduling a read into a frame and waiting for it:
    [if (!future_read.get()) throw ExecutionException(...)]. *)
Definition disk_read (page_id : page_id_t) (frame_id : frame_id_t)
    (s : BufferPoolManager) : result BufferPoolManager :=
  _ ← page_at s frame_id;
  let '(done, s) := future_get s in
  if done then Ok (update_page frame_id (set_data (disk_ s page_id)) s)
  else ExecutionException.

(** [replacer_->RecordAccess(frame_id); replacer_->SetEvictable(frame_id, false);] *)
Definition touch (frame_id : frame_id_t) (s : BufferPoolManager)
    : result BufferPoolManager :=
  rep ← RecordAccess frame_id (replacer_ s);
  Ok (set_replacer (SetEvictable frame_id false rep) s).

(** The last four statements of both branches of [NewPage]. *)
Definition install_new (frame_id : frame_id_t) (s : BufferPoolManager)
    : result (option (page_id_t * frame_id_t) * BufferPoolManager) :=
  let '(page_id, s) := AllocatePage s in
  _ ← page_at s frame_id;
  let s := update_page frame_id (set_page_id page_id) s in
  let s := set_page_table (emplace page_id frame_id (page_table_ s)) s in
  Ok (Some (page_id, frame_id), s).

(** [BufferPoolManager::NewPage].  The result is [*page_id] with the frame the
    returned [Page *] points to, or [None] for [nullptr]. *)
Definition NewPage (s : BufferPoolManager)
    : result (option (page_id_t * frame_id_t) * BufferPoolManager) :=
  match pop_back (free_list_ s) with
  | Some (frame_id, rest) =>
      let s := set_free_list rest s in
      s ← touch frame_id s;
      install_new frame_id s
  | None =>
      if 0 <? Size (replacer_ s) then
        '(victim, rep) ← Evict (replacer_ s);
        let s := set_replacer rep s in
        match victim with
        | None => Undefined          (* frame_id is read uninitialised *)
        | Some frame_id =>
            p ← page_at s frame_id;
            s ← (if is_dirty_ p then
                   let old_page_id := page_id_ p in
                   s ← disk_write old_page_id frame_id s;
                   let s := update_page frame_id ResetMemory s in
                   erase_found old_page_id s
                 else Ok s);
            s ← touch frame_id s;
            install_new frame_id s
        end
      else Ok (None, s)
  end.

(** The part of [FetchPage] that both miss branches share: read the page,
    tell the replacer, install the page. *)
Definition install_fetched (page_id : page_id_t) (frame_id : frame_id_t)
    (s : BufferPoolManager) : result (option frame_id_t * BufferPoolManager) :=
  s ← disk_read page_id frame_id s;
  s ← touch frame_id s;
  let s := update_page frame_id (set_page_id page_id) s in
  let s := set_page_table (emplace page_id frame_id (page_table_ s)) s in
  Ok (Some frame_id, s).

(** [BufferPoolManager::FetchPage]; the result is the frame the returned
    [Page *] points to. *)
Definition FetchPage (page_id : page_id_t) (s : BufferPoolManager)
    : result (option frame_id_t * BufferPoolManager) :=
  match page_table_ s !! page_id with
  | Some frame_id => Ok (Some frame_id, s)
  | None =>
      match pop_back (free_list_ s) with
      | Some (frame_id, rest) =>
          let s := set_free_list rest s in
          install_fetched page_id frame_id s
      | None =>
          if 0 <? Size (replacer_ s) then
            '(victim, rep) ← Evict (replacer_ s);
            let s := set_replacer rep s in
            match victim with
            | None => Undefined
            | Some frame_id =>
                p ← page_at s frame_id;
                let old_page_id := page_id_ p in
                s ← erase_found old_page_id s;
                s ← (if is_dirty_ p then
                       s ← disk_write old_page_id frame_id s;
                       Ok (update_page frame_id ResetMemory s)
                     else Ok s);
                install_fetched page_id frame_id s
            end
          else Ok (None, s)
      end
  end.

(** [BufferPoolManager::UnpinPage] *)
Definition UnpinPage (page_id : page_id_t) (is_dirty : bool)
    (s : BufferPoolManager) : result (bool * BufferPoolManager) :=
  match page_table_ s !! page_id with
  | None => Ok (false, s)
  | Some frame_id =>
      p ← page_at s frame_id;
      let s := if (is_dirty && negb (is_dirty_ p))%bool
               then update_page frame_id (set_is_dirty true) s else s in
      let s := if 0 <? pin_count_ p
               then update_page frame_id (λ q, set_pin_count (pin_count_ q - 1) q) s
               else s in
      p ← page_at s frame_id;
      let s := if pin_count_ p =? 0
               then set_replacer (SetEvictable frame_id true (replacer_ s)) s
               else s in
      Ok (true, s)
  end.

(** [BufferPoolManager::FlushPage] *)
Definition FlushPage (page_id : page_id_t) (s : BufferPoolManager)
    : result (bool * BufferPoolManager) :=
  match page_table_ s !! page_id with
  | None => Ok (false, s)
  | Some frame_id =>
      s ← disk_write page_id frame_id s;
      Ok (true, update_page frame_id (set_is_dirty false) s)
  end.

(** [BufferPoolManager::FlushAllPages] *)
Definition FlushAllPages (s : BufferPoolManager) : result BufferPoolManager :=
  foldr (λ '(page_id, frame_id) acc,
           s ← acc;
           s ← disk_write page_id frame_id s;
           Ok (update_page frame_id (set_is_dirty false) s))
        (Ok s) (map_to_list (page_table_ s)).

(** [BufferPoolManager::DeletePage] *)
Definition DeletePage (page_id : page_id_t) (s : BufferPoolManager)
    : result (bool * BufferPoolManager) :=
  match page_table_ s !! page_id with
  | None => Ok (false, s)
  | Some frame_id =>
      p ← page_at s frame_id;
      if 0 <? pin_count_ p then Ok (false, s)
      else
        s ← erase_found page_id s;
        rep ← Remove frame_id (replacer_ s);
        let s := set_replacer rep s in
        let s := set_free_list (free_list_ s ++ [frame_id]) s in
        let s := update_page frame_id ResetMemory s in
        Ok (true, s)                 (* DeallocatePage does nothing *)
  end.

(** *** Pools reached from the constructor *)

Definition pin_counts (s : BufferPoolManager) : list Z := pin_count_ <$> pages_ s.

(** The states reached from a new pool, over any disk, by calls that return
    and by the caller writing bytes through a [Page *] it holds ([GetData]
    points into the frame).  [reach_write] lets any frame be written,
    whether or not a call has handed it out. *)
Inductive reachable_pool (pool_size replacer_k : Z) : BufferPoolManager → Prop :=
  | reach_pool_new disk_manager :
      reachable_pool pool_size replacer_k
        (new_BufferPoolManager pool_size disk_manager replacer_k)
  | reach_write s frame_id bytes :
      reachable_pool pool_size replacer_k s →
      reachable_pool pool_size replacer_k (update_page frame_id (set_data bytes) s)
  | reach_NewPage s r s' :
      reachable_pool pool_size replacer_k s → NewPage s = Ok (r, s') →
      reachable_pool pool_size replacer_k s'
  | reach_FetchPage s page_id r s' :
      reachable_pool pool_size replacer_k s → FetchPage page_id s = Ok (r, s') →
      reachable_pool pool_size replacer_k s'
  | reach_UnpinPage s page_id is_dirty r s' :
      reachable_pool pool_size replacer_k s →
      UnpinPage page_id is_dirty s = Ok (r, s') →
      reachable_pool pool_size replacer_k s'
  | reach_FlushPage s page_id r s' :
      reachable_pool pool_size replacer_k s → FlushPage page_id s = Ok (r, s') →
      reachable_pool pool_size replacer_k s'
  | reach_FlushAllPages s s' :
      reachable_pool pool_size replacer_k s → FlushAllPages s = Ok s' →
      reachable_pool pool_size replacer_k s'
  | reach_DeletePage s page_id r s' :
      reachable_pool pool_size replacer_k s → DeletePage page_id s = Ok (r, s') →
      reachable_pool pool_size replacer_k s'.

(** *** Some pools *)

(** A pool of one frame, and what it is after the first [NewPage] and after
    an [UnpinPage] of that page. *)
Definition pool1 : BufferPoolManager := new_BufferPoolManager 1 blank_disk 2.

Definition pool_of {A} (r : result (A * BufferPoolManager)) : BufferPoolManager :=
  match r with
  | Ok (_, s) => s
  | _ => pool1
  end.

Definition pool1_new : BufferPoolManager := pool_of (NewPage pool1).
Definition pool1_unpinned : BufferPoolManager :=
  pool_of (UnpinPage 0 false pool1_new).
Definition pool1_unpinned_dirty : BufferPoolManager :=
  pool_of (UnpinPage 0 true pool1_new).
Definition pool1_new_frame0 : Page :=
  match page_at pool1_new 0 with
  | Ok p => p
  | _ => new_Page
  end.

(** The pool after [NewPage], [UnpinPage(0, false)], [NewPage],
    [UnpinPage(1, false)] and [DeletePage(0)]: the second [NewPage] took
    frame 0 from the replacer and left the entry of page 0 in the page
    table, so [DeletePage(0)] took frame 0 out of the replacer while page 1
    sits in it. *)
Definition pool1_two_pages : BufferPoolManager := pool_of (NewPage pool1_unpinned).
Definition pool1_two_unpinned : BufferPoolManager :=
  pool_of (UnpinPage 1 false pool1_two_pages).
Definition pool1_stale : BufferPoolManager :=
  pool_of (DeletePage 0 pool1_two_unpinned).

(** The pool of one frame after the caller has written into page 0 and
    unpinned it as dirty. *)
Definition some_bytes : list Z := replicate BUSTUB_PAGE_SIZE 7.
Definition pool1_written : BufferPoolManager :=
  update_page 0 (set_data some_bytes) pool1_new.
Definition pool1_written_unpinned : BufferPoolManager :=
  pool_of (UnpinPage 0 true pool1_written).

(** A replacer for [N] frames: its capacity is [N], the node of a frame
    carries the id of the frame, which is below [N], and no sentinel is
    evictable. *)
Definition rep_ok (N : Z) (r : LRUKReplacer) : Prop :=
  replacer_size_ r = N ∧
  ∀ q n, deref r q = Some n →
    match q with
    | FrameNode f => fid_ n = f ∧ 0 ≤ f < N
    | _ => is_evictable_ n = false
    end.

(** A pool of [N] frames: the page array has [N] cells, the replacer is one
    for [N] frames, and the free list and the page table hold frame ids
    below [N] only. *)
Record pool_inv (N : Z) (s : BufferPoolManager) : Prop := mkPoolInv {
  inv_size : pool_size_ s = N;
  inv_pages : length (pages_ s) = Z.to_nat N;
  inv_replacer : rep_ok N (replacer_ s);
  inv_free : ∀ f, f ∈ free_list_ s → 0 ≤ f < N;
  inv_table : ∀ pid f, page_table_ s !! pid = Some f → 0 ≤ f < N
}.

(** A pool of one frame over a disk that holds [some_bytes] at page 5 and
    fails its second request. *)
Definition patchy_disk : DiskManager :=
  mkDisk (<[5 := some_bytes]> (λ _, zero_data)) [true; false].
Definition pool1_patchy : BufferPoolManager := new_BufferPoolManager 1 patchy_disk 2.

(** Whether the coming [n] requests to the disk all succeed. *)
Definition requests_succeed (n : nat) (s : BufferPoolManager) : bool :=
  forallb id (take n (answers_ s)).

(** The loop of [FlushAllPages] over a list of entries of the page table. *)
Definition flush_entries (l : list (Z * Z)) (s : BufferPoolManager)
    : result BufferPoolManager :=
  foldr (λ '(page_id, frame_id) acc,
           s ← acc;
           s ← disk_write page_id frame_id s;
           Ok (update_page frame_id (set_is_dirty false) s))
        (Ok s) l.

End BufferPool.

(** * Properties of the trie *)
Module TrieFacts.
Import Trie.
Local Open Scope nat_scope.

Lemma deref_Ok h p n : deref h p = Ok n ↔ h !! p = Some n.
Proof. unfold deref. destruct (h !! p); split; intros H; by simplify_eq. Qed.

Lemma deref_lt h p : p < length h → ∃ n, h !! p = Some n ∧ deref h p = Ok n.
Proof.
  intros [n Hn]%lookup_lt_is_Some_2. exists n. split; [done|]. by apply deref_Ok.
Qed.

Lemma extends_refl h : extends h h.
Proof. by intros p _. Qed.

Lemma extends_trans h1 h2 h3 :
  length h1 ≤ length h2 → extends h1 h2 → extends h2 h3 → extends h1 h3.
Proof. intros Hl H12 H23 p Hp. rewrite H23; [by apply H12 | lia]. Qed.

Lemma closed_make_shared h n :
  closed h → (∀ ch c, children_ n !! ch = Some c → c < length h) →
  closed (h ++ [n]).
Proof.
  intros Hc Hn p m ch c Hp Hch. rewrite length_app. simpl.
  destruct (decide (p < length h)) as [Hlt|Hge].
  - rewrite lookup_app_l in Hp by done. specialize (Hc _ _ _ _ Hp Hch). lia.
  - rewrite lookup_app_r in Hp by lia.
    destruct (p - length h) eqn:E; simpl in Hp; [|by rewrite lookup_nil in Hp].
    simplify_eq. specialize (Hn _ _ Hch). lia.
Qed.

Lemma closed_set_child h p ch child :
  closed h → child < length h → closed (set_child p ch child h).
Proof.
  intros Hc Hchild q m ch' c Hq Hch'. unfold set_child in *.
  rewrite length_alter. rewrite list_lookup_alter in Hq.
  case_decide; subst.
  - destruct (h !! q) as [n|] eqn:E; simplify_eq/=.
    rewrite lookup_insert in Hch'. case_decide; simplify_eq; [done|].
    by eapply Hc.
  - by eapply Hc.
Qed.

Lemma closed_children h p n :
  closed h → h !! p = Some n → ∀ ch c, children_ n !! ch = Some c → c < length h.
Proof. intros Hc Hp ch c Hch. by eapply Hc. Qed.

(** The walk stays inside a closed store and always returns. *)
Lemma walk_closed h key : closed h → ∀ cur, cur < length h →
  ∃ w, walk h cur key = Ok w ∧ ∀ l, w = Some l → l < length h.
Proof.
  intros Hc. induction key as [|ch rest IH]; intros cur Hcur; simpl.
  - exists (Some cur). split; [done|]. by intros l [= <-].
  - destruct (deref_lt _ _ Hcur) as (n & Hn & ->). simpl.
    destruct (children_ n !! ch) as [c|] eqn:E.
    + apply IH. by eapply Hc.
    + exists None. by split.
Qed.

Lemma walk_extends h h' key : closed h → extends h h' → ∀ cur, cur < length h →
  walk h' cur key = walk h cur key.
Proof.
  intros Hc He. unfold extends in He. induction key as [|ch rest IH]; intros cur Hcur; simpl; [done|].
  unfold deref. rewrite He by done.
  destruct (h !! cur) as [n|] eqn:E; simpl; [|done].
  destruct (children_ n !! ch) as [c|] eqn:Ech; [|done].
  apply IH. by eapply Hc.
Qed.

Lemma deref_extends h h' p : extends h h' → p < length h → deref h' p = deref h p.
Proof. intros He Hp. unfold deref. by rewrite He. Qed.

(** A snapshot reads the same in every store that extends its own. *)
Lemma Get_extends h h' t T key :
  closed h → valid h t → extends h h' → Get h' t T key = Get h t T key.
Proof.
  intros Hc Hv He. destruct t as [root|]; [|done]. simpl in *.
  rewrite (walk_extends h h') by done.
  destruct (walk_closed h key Hc root Hv) as (w & -> & Hw). simpl.
  destruct w as [cur|]; [|done].
  specialize (Hw cur eq_refl).
  destruct (key_empty key).
  - rewrite (deref_extends h h' cur) by done.
    destruct (deref_lt _ _ Hw) as (n & Hn & ->). simpl.
    unfold at_. destruct (children_ n !! nul) as [c|] eqn:Ec; simpl; [|done].
    rewrite (deref_extends h h' c); [done..|]. by eapply Hc.
  - simpl. by rewrite (deref_extends h h' cur).
Qed.

(** One step of the copy: a new node is made and hung under [new_cur]. *)
Lemma hang_new_child h new_cur ch n m :
  h !! new_cur = Some m →
  let h1 := set_child new_cur ch (length h) (h ++ [n]) in
  length h1 = S (length h) ∧
  h1 !! new_cur = Some (mkTrieNode (<[ch := length h]> (children_ m)) (value_ m)) ∧
  h1 !! length h = Some n ∧
  (∀ p, p < length h → p ≠ new_cur → h1 !! p = h !! p).
Proof.
  intros Hm h1. pose proof (lookup_lt_Some _ _ _ Hm) as Hlt.
  subst h1. unfold set_child. repeat split.
  - rewrite length_alter, length_app. simpl. lia.
  - rewrite list_lookup_alter_eq, lookup_app_l, Hm by done. done.
  - rewrite list_lookup_alter_ne by lia.
    rewrite lookup_app_r by lia. by rewrite Nat.sub_diag.
  - intros p Hp Hne. rewrite list_lookup_alter_ne by done.
    by rewrite lookup_app_l.
Qed.

Lemma hang_new_child_closed h new_cur ch n :
  closed h → (∀ c' c, children_ n !! c' = Some c → c < length h) →
  closed (set_child new_cur ch (length h) (h ++ [n])).
Proof.
  intros Hc Hn. apply closed_set_child.
  - by apply closed_make_shared.
  - rewrite length_app. simpl. lia.
Qed.

Lemma find_child_closed h cur ch :
  closed h → valid h cur →
  ∃ found, find_child h cur ch = Ok found ∧
           ∀ c, found = Some c → c < length h ∧ valid h (Some c).
Proof.
  intros Hc Hv. destruct cur as [c0|]; simpl in *.
  - destruct (deref_lt _ _ Hv) as (n & Hn & ->). simpl.
    eexists. split; [done|]. intros c Hch.
    pose proof (Hc _ _ _ _ Hn Hch). done.
  - exists None. by split.
Qed.

Lemma valid_mono h h' t : length h ≤ length h' → valid h t → valid h' t.
Proof. destruct t; simpl; [lia|done]. Qed.

(** The loop of [Put] returns; it writes to [new_cur] and to nodes it makes,
    and the key then leads from [new_cur] to a node holding the value. *)
Lemma put_loop_spec key v : key ≠ EmptyString →
  ∀ cur new_cur h, closed h → valid h cur → new_cur < length h →
  ∃ h', put_loop key v cur new_cur h = Ok h' ∧ closed h' ∧
        length h ≤ length h' ∧
        (∀ p, p < length h → p ≠ new_cur → h' !! p = h !! p) ∧
        ∃ l n, walk h' new_cur key = Ok (Some l) ∧ h' !! l = Some n ∧
               value_ n = Some v.
Proof.
  induction key as [|ch rest IH]; [done|]. intros _ cur new_cur h Hc Hv Hnew.
  destruct (lookup_lt_is_Some_2 _ _ Hnew) as [m Hm].
  destruct (find_child_closed h cur ch Hc Hv) as (found & Hfound & Hf).
  cbn [put_loop]. rewrite Hfound. cbn [mbind result_bind].
  destruct rest as [|ch2 rest2].
  - (* the last character *)
    assert (∃ n, (found = None ∧ n = mkTrieNode ∅ (Some v) ∨
                  ∃ c n0, found = Some c ∧ h !! c = Some n0 ∧
                          n = mkTrieNode (children_ n0) (Some v)) ∧
                 (∀ c' c, children_ n !! c' = Some c → c < length h)) as (n & Hn & Hnc).
    { destruct found as [c|].
      - destruct (Hf c eq_refl) as [Hlt _].
        destruct (lookup_lt_is_Some_2 _ _ Hlt) as [n0 Hn0].
        eexists. split; [right; eauto|]. simpl. intros c' c2 Hc2. by eapply Hc.
      - eexists. split; [by left|]. simpl. intros c' c2. by rewrite lookup_empty. }
    destruct (hang_new_child h new_cur ch n m Hm) as (Hlen & Hcur & Hnext & Hframe).
    exists (set_child new_cur ch (length h) (h ++ [n])).
    split; [|split; [|split; [|split]]].
    + destruct Hn as [[-> ->]|(c & n0 & -> & Hn0 & ->)]; [done|].
      unfold deref. by rewrite Hn0.
    + by apply hang_new_child_closed.
    + lia.
    + done.
    + exists (length h), n. simpl. unfold deref. rewrite Hcur. simpl.
      rewrite lookup_insert_eq. split; [done|]. split; [done|].
      by destruct Hn as [[_ ->]|(c & n0 & _ & _ & ->)].
  - (* an inner character *)
    set (rest := String ch2 rest2) in *.
    assert (∃ n cur', (found = None ∧ n = empty_node ∧ cur' = cur ∨
                       ∃ c, found = Some c ∧ h !! c = Some n ∧ cur' = Some c) ∧
                      (∀ c' c, children_ n !! c' = Some c → c < length h) ∧
                      valid h cur') as (n & cur' & Hn & Hnc & Hv').
    { destruct found as [c|].
      - destruct (Hf c eq_refl) as [Hlt Hvc].
        destruct (lookup_lt_is_Some_2 _ _ Hlt) as [n0 Hn0].
        exists n0, (Some c). split; [right; eauto|]. split; [|done].
        intros c' c2 Hc2. by eapply Hc.
      - exists empty_node, cur. split; [by left|]. split; [|done].
        simpl. intros c' c2. by rewrite lookup_empty. }
    destruct (hang_new_child h new_cur ch n m Hm) as (Hlen & Hcur & Hnext & Hframe).
    set (h1 := set_child new_cur ch (length h) (h ++ [n])) in *.
    destruct (IH ltac:(done) cur' (length h) h1) as (h' & Hput & Hc' & Hlen' & Hframe' & l & nl & Hwalk & Hl & Hval).
    { by apply hang_new_child_closed. }
    { eapply valid_mono; [|done]. lia. }
    { lia. }
    exists h'. split; [|split; [|split; [|split]]].
    + destruct Hn as [(-> & -> & ->)|(c & -> & Hn0 & ->)]; [done|].
      unfold Clone, deref. rewrite Hn0. done.
    + done.
    + lia.
    + intros p Hp Hne. rewrite Hframe' by lia. by apply Hframe.
    + exists l, nl. split; [|done].
      cbn [walk]. unfold deref. rewrite Hframe' by lia. rewrite Hcur.
      cbn. by rewrite lookup_insert_eq.
Qed.

Lemma clone_root_spec h t : closed h → valid h t →
  ∃ n, clone_root h t = Ok (length h, h ++ [n]) ∧ closed (h ++ [n]).
Proof.
  intros Hc Hv. destruct t as [r|]; simpl in *.
  - destruct (deref_lt _ _ Hv) as (n & Hn & Hd). exists n.
    unfold Clone. rewrite Hd. split; [done|].
    apply closed_make_shared; [done|]. intros ch c Hch. by eapply Hc.
  - exists empty_node. split; [done|].
    apply closed_make_shared; [done|]. simpl. intros ch c. by rewrite lookup_empty.
Qed.

Lemma dynamic_cast_own_type v cs :
  dynamic_cast (type_of v) (mkTrieNode cs (Some v)) = Some v.
Proof. unfold dynamic_cast. simpl. by rewrite decide_True. Qed.

(** [Put] returns a snapshot of a store that extends the old one, and the
    snapshot holds the value at the key. *)
Lemma Put_spec h t key v : closed h → valid h t →
  ∃ t' h', Put h t key v = Ok (t', h') ∧ closed h' ∧ valid h' t' ∧
           length h ≤ length h' ∧ extends h h' ∧
           Get h' t' (type_of v) key = Ok (Some v).
Proof.
  intros Hc Hv. unfold Put.
  destruct (clone_root_spec h t Hc Hv) as (n0 & -> & Hc1).
  cbn [mbind result_bind].
  set (h1 := h ++ [n0]) in *.
  assert (length h1 = S (length h)) as Hlen1.
  { subst h1. rewrite length_app. simpl. lia. }
  assert (h1 !! length h = Some n0) as Hroot.
  { subst h1. rewrite lookup_app_r by lia. by rewrite Nat.sub_diag. }
  assert (extends h h1) as He1.
  { intros p Hp. subst h1. by rewrite lookup_app_l. }
  destruct key as [|ch rest]; cbn [key_empty].
  - set (vn := mkTrieNode ∅ (Some v)).
    destruct (hang_new_child h1 (length h) nul vn n0 Hroot)
      as (Hlen & Hcur & Hnext & Hframe).
    cbn [make_shared].
    exists (Some (length h)), (set_child (length h) nul (length h1) (h1 ++ [vn])).
    split; [done|]. split; [|split; [|split; [|split]]].
    + apply hang_new_child_closed; [done|]. simpl. intros c' c. by rewrite lookup_empty.
    + simpl. lia.
    + lia.
    + intros p Hp. rewrite Hframe by lia. by apply He1.
    + cbn. unfold deref. rewrite Hcur. cbn. unfold at_. cbn.
      rewrite lookup_insert_eq. cbn. rewrite Hnext. cbn.
      by rewrite decide_True.
  - destruct (put_loop_spec (String ch rest) v ltac:(done) t (length h) h1)
      as (h' & -> & Hc' & Hlen' & Hframe' & l & nl & Hwalk & Hl & Hval);
      [done| by eapply valid_mono; [|done]; lia | lia |].
    cbn [mbind result_bind].
    exists (Some (length h)), h'. split; [done|].
    split; [done|]. split; [simpl; lia|]. split; [lia|]. split.
    + intros p Hp. rewrite Hframe' by lia. by apply He1.
    + unfold Get. rewrite Hwalk. cbn [mbind result_bind key_empty].
      unfold deref. rewrite Hl. cbn [mbind result_bind].
      destruct nl as [cs vl]. simpl in Hval. subst vl.
      by rewrite dynamic_cast_own_type.
Qed.

(** *** [Remove] *)

Lemma closed_erase_child h p ch : closed h → closed (erase_child p ch h).
Proof.
  intros Hc q m ch' c Hq Hch'. unfold erase_child in *.
  rewrite length_alter. rewrite list_lookup_alter in Hq.
  case_decide; subst.
  - destruct (h !! q) as [n|] eqn:E; simpl in Hq; [|done]. injection Hq as <-.
    simpl in Hch'. apply lookup_delete_Some in Hch' as [_ Hch']. by eapply Hc.
  - by eapply Hc.
Qed.

Lemma extends_alter h0 h p (g : TrieNode → TrieNode) :
  extends h0 h → length h0 ≤ p → extends h0 (alter g p h).
Proof.
  intros He Hp q Hq. rewrite list_lookup_alter_ne by lia. by apply He.
Qed.

Lemma extends_app h0 h n :
  extends h0 h → length h0 ≤ length h → extends h0 (h ++ [n]).
Proof.
  intros He Hl q Hq. rewrite lookup_app_l by lia. by apply He.
Qed.

Lemma fresh_mono h0 h h' path :
  length h ≤ length h' → fresh h0 h path → fresh h0 h' path.
Proof.
  intros Hl Hf. eapply Forall_impl; [exact Hf|]. intros e. simpl. lia.
Qed.

(** The second loop of [Remove] returns when the key is in the trie; it
    writes to nodes of its own only. *)
Lemma clone_path_spec h0 key : closed h0 →
  ∀ cur new_cur path h,
  extends h0 h → length h0 ≤ length h → closed h →
  cur < length h0 → length h0 ≤ new_cur < length h → fresh h0 h path →
  (∃ l, walk h0 cur key = Ok (Some l)) →
  ∃ path' h', clone_path key cur new_cur path h = Ok (path', h') ∧
    closed h' ∧ extends h0 h' ∧ length h ≤ length h' ∧ fresh h0 h' path'.
Proof.
  intros Hc0. induction key as [|ch rest IH];
    intros cur new_cur path h He Hl Hc Hcur Hnew Hpath [l Hwalk].
  - simpl. exists path, h. eauto.
  - simpl in Hwalk. destruct (deref_lt h0 cur Hcur) as (n & Hn & Hd).
    rewrite Hd in Hwalk. simpl in Hwalk.
    destruct (children_ n !! ch) as [child|] eqn:Hch; [|done].
    pose proof (Hc0 _ _ _ _ Hn Hch) as Hchild.
    cbn [clone_path]. rewrite (deref_extends h0 h cur), Hd by done.
    cbn [mbind result_bind]. unfold at_. rewrite Hch. cbn [mbind result_bind].
    destruct (deref_lt h0 child Hchild) as (m & Hm & Hdm).
    unfold Clone. rewrite (deref_extends h0 h child), Hdm by done.
    cbn [mbind result_bind make_shared].
    destruct (lookup_lt_is_Some_2 h new_cur ltac:(lia)) as [nn Hnn].
    destruct (hang_new_child h new_cur ch m nn Hnn) as (Hlen & _ & _ & _).
    set (h1 := set_child new_cur ch (length h) (h ++ [m])) in *.
    destruct (IH child (length h) ((ch, length h) :: path) h1)
      as (path' & h' & -> & Hc' & He' & Hl' & Hp'); try lia.
    + apply extends_alter; [|lia]. by apply extends_app.
    + apply hang_new_child_closed; [done|]. intros c' c Hc'.
      pose proof (Hc0 _ _ _ _ Hm Hc'). lia.
    + apply Forall_cons. split; [simpl; lia|]. eapply fresh_mono; [|done]. lia.
    + eauto.
    + exists path', h'. split; [done|]. split; [done|]. split; [done|].
      split; [lia|done].
Qed.

Lemma prune_step_spec h0 i ch n node parent h :
  extends h0 h → length h0 ≤ length h → closed h →
  h !! node = Some n → length h0 ≤ parent < length h →
  let h1 := prune_step i ch n parent h in
  closed h1 ∧ extends h0 h1 ∧ length h ≤ length h1.
Proof.
  intros He Hl Hc Hn Hparent.
  assert (closed (erase_child parent ch h) ∧
          extends h0 (erase_child parent ch h) ∧
          length h ≤ length (erase_child parent ch h)) as Herase.
  { split; [by apply closed_erase_child|].
    split; [apply extends_alter; [done|lia]|].
    unfold erase_child. by rewrite length_alter. }
  unfold prune_step.
  destruct (Nat.eqb i 0 && is_value_node_ n)%bool.
  - destruct (decide (children_ n = ∅)); [done|].
    cbn [make_shared].
    destruct (lookup_lt_is_Some_2 h parent ltac:(lia)) as [np Hnp].
    destruct (hang_new_child h parent ch (mkTrieNode (children_ n) None) np Hnp)
      as (Hlen & _ & _ & _).
    split; [|split; [|lia]].
    + apply hang_new_child_closed; [done|]. simpl. intros c' c Hc'.
      exact (Hc _ _ _ _ Hn Hc').
    + apply extends_alter; [|lia]. by apply extends_app.
  - by destruct (bool_decide (children_ n = ∅) && negb (is_value_node_ n))%bool.
Qed.

Lemma prune_loop_cons i ch node pch parent up h :
  prune_loop i ((ch, node) :: (pch, parent) :: up) h =
  n ← deref h node;
  prune_loop (S i) ((pch, parent) :: up) (prune_step i ch n parent h).
Proof. done. Qed.

(** The third loop of [Remove] returns, and writes to nodes of the call's
    own only. *)
Lemma prune_loop_spec h0 path :
  ∀ i h, extends h0 h → length h0 ≤ length h → closed h → fresh h0 h path →
  ∃ h', prune_loop i path h = Ok h' ∧ closed h' ∧ extends h0 h' ∧
        length h ≤ length h'.
Proof.
  induction path as [|[ch node] up IH]; intros i h He Hl Hc Hpath.
  - exists h. eauto.
  - destruct up as [|[pch parent] up'].
    + exists h. eauto.
    + apply Forall_cons in Hpath as [Hnode Hup]. simpl in Hnode.
      pose proof Hup as Hup'. apply Forall_cons in Hup' as [Hparent _].
      simpl in Hparent.
      destruct (deref_lt h node ltac:(lia)) as (n & Hn & Hd).
      rewrite prune_loop_cons, Hd. cbn [mbind result_bind].
      destruct (prune_step_spec h0 i ch n node parent h) as (Hc1 & He1 & Hl1);
        try done.
      destruct (IH (S i) (prune_step i ch n parent h))
        as (h' & -> & Hc' & He' & Hl'); try done; try lia.
      { eapply fresh_mono; [|done]. lia. }
      exists h'. split; [done|]. split; [done|]. split; [done|lia].
Qed.

(** [Remove] on a trie with a root returns a snapshot of a store that
    extends the old one. *)
Lemma Remove_spec h root key : closed h → root < length h →
  ∃ t' h', Remove h (Some root) key = Ok (t', h') ∧
    closed h' ∧ valid h' t' ∧ extends h h' ∧ length h ≤ length h'.
Proof.
  intros Hc Hroot. unfold Remove.
  destruct (clone_root_spec h (Some root) Hc Hroot) as (n0 & -> & Hc1).
  cbn [mbind result_bind].
  set (h1 := if key_empty key then erase_child (length h) nul (h ++ [n0])
             else h ++ [n0]).
  assert (closed h1 ∧ extends h h1 ∧ length h1 = S (length h)) as (Hch1 & He1 & Hl1).
  { subst h1. destruct (key_empty key).
    - split; [by apply closed_erase_child|]. split.
      + apply extends_alter; [|lia]. apply extends_app; [apply extends_refl|lia].
      + unfold erase_child. rewrite length_alter, length_app. simpl. lia.
    - split; [done|]. split.
      + apply extends_app; [apply extends_refl|lia].
      + rewrite length_app. simpl. lia. }
  rewrite (walk_extends h h1) by done.
  destruct (walk_closed h key Hc root Hroot) as (w & Hw & Hwlt). rewrite Hw.
  cbn [mbind result_bind].
  destruct w as [cur|].
  2:{ exists (Some (length h)), h1. split; [done|]. split; [done|].
      split; [simpl; lia|]. split; [done|lia]. }
  specialize (Hwlt cur eq_refl).
  destruct (deref_lt h cur Hwlt) as (n & Hn & Hd).
  rewrite (deref_extends h h1 cur), Hd by done. cbn [mbind result_bind].
  destruct (negb (is_value_node_ n)).
  { exists (Some (length h)), h1. split; [done|]. split; [done|].
    split; [simpl; lia|]. split; [done|lia]. }
  destruct (clone_path_spec h key Hc root (length h) [(nul, length h)] h1)
    as (path & h2 & -> & Hc2 & He2 & Hl2 & Hp2); try done; try lia.
  { apply Forall_singleton. simpl. lia. }
  { eauto. }
  cbn [mbind result_bind].
  destruct (prune_loop_spec h path 0 h2) as (h3 & -> & Hc3 & He3 & Hl3);
    try done; try lia.
  cbn [mbind result_bind].
  destruct (deref_lt h3 (length h) ltac:(lia)) as (nr & Hnr & ->).
  cbn [mbind result_bind].
  destruct (decide (children_ nr = ∅)).
  - exists None, h3. split; [done|]. split; [done|]. split; [done|].
    split; [done|lia].
  - exists (Some (length h)), h3. split; [done|]. split; [done|].
    split; [simpl; lia|]. split; [done|lia].
Qed.

(** Old snapshots read the same after a [Remove]. *)
Lemma Remove_keeps_snapshots h root key t T key' :
  closed h → root < length h → valid h t →
  ∃ t' h', Remove h (Some root) key = Ok (t', h') ∧
           Get h' t T key' = Get h t T key'.
Proof.
  intros Hc Hroot Hv.
  destruct (Remove_spec h root key Hc Hroot) as (t' & h' & HR & _ & _ & He & _).
  exists t', h'. split; [done|]. by apply Get_extends.
Qed.

Lemma closed_nil : closed [].
Proof. intros p n ch c Hp. by rewrite lookup_nil in Hp. Qed.

(** [Get] with a key that is not empty returns, found or not. *)
Lemma Get_nonempty_key_returns h t T key :
  closed h → valid h t → key ≠ EmptyString → returns (Get h t T key).
Proof.
  intros Hc Hv Hkey. destruct t as [root|]; [|done]. simpl in *.
  destruct (walk_closed h key Hc root Hv) as (w & -> & Hw). simpl.
  destruct w as [cur|]; [|done]. specialize (Hw cur eq_refl).
  destruct key; [done|]. simpl.
  by destruct (deref_lt _ _ Hw) as (n & _ & ->).
Qed.

(** [Get] with the empty key throws exactly when the root has no child
    labelled with the null character. *)
Lemma Get_empty_key_throws h root n T :
  closed h → h !! root = Some n →
  (Get h (Some root) T EmptyString = OutOfRange ↔ children_ n !! nul = None).
Proof.
  intros Hc Hn. cbn [Get walk mbind result_bind key_empty].
  rewrite (proj2 (deref_Ok h root n) Hn). cbn [mbind result_bind]. unfold at_.
  destruct (children_ n !! nul) as [c|] eqn:E; cbn [mbind result_bind]; [|done].
  pose proof (Hc _ _ _ _ Hn E) as Hlt.
  destruct (deref_lt _ _ Hlt) as (m & _ & ->). done.
Qed.

(** The spec's scenarios E1 (structural sharing) and E2 (pruning). *)
Example scenario_E1 :
  ('(t1, h1) ← Put [] None "ab" (VUInt32 1);
   '(t2, h2) ← Put h1 t1 "ac" (VUInt32 2);
   Ok (Get h2 t1 TUInt32 "ab", Get h2 t1 TUInt32 "ac",
       Get h2 t2 TUInt32 "ab", Get h2 t2 TUInt32 "ac"))
    = Ok (Ok (Some (VUInt32 1)), Ok None,
          Ok (Some (VUInt32 1)), Ok (Some (VUInt32 2))).
Proof. vm_compute. reflexivity. Qed.

Example scenario_E2 :
  ('(t1, h1) ← Put [] None "ab" (VUInt32 1);
   '(t, h) ← Put h1 t1 "abc" (VUInt32 2);
   '(ta, ha) ← Remove h t "abc";
   '(tb, hb) ← Remove ha t "ab";
   Ok (Get hb ta TUInt32 "ab", Get hb ta TUInt32 "abc",
       Get hb tb TUInt32 "abc", Get hb tb TUInt32 "ab", Get hb tb TString "abc"))
    = Ok (Ok (Some (VUInt32 1)), Ok None,
          Ok (Some (VUInt32 2)), Ok None, Ok None).
Proof. vm_compute. reflexivity. Qed.

(** C6.  For every snapshot S (of a store without dangling pointers), every
    key k and every value v, Put(k, v) on S returns a snapshot S'; Get on S
    returns for k, and for every other key, what it returned before the Put,
    and Get(k) on S' returns v. *)
Theorem Put_then_Get h t k v :
  closed h → valid h t →
  ∃ t' h', Put h t k v = Ok (t', h') ∧
    (∀ T key, Get h' t T key = Get h t T key) ∧
    Get h' t' (type_of v) k = Ok (Some v).
Proof.
  intros Hc Hv.
  destruct (Put_spec h t k v Hc Hv) as (t' & h' & HPut & _ & _ & _ & Hext & HGet).
  exists t', h'. split; [done|]. split; [|done].
  intros T key. by apply Get_extends.
Qed.

Lemma Put_then_Get_witness :
  ∃ t' h', Put [] None "ab" (VUInt32 1) = Ok (t', h') ∧
    (∀ T key, Get h' None T key = Get [] None T key) ∧
    Get h' t' TUInt32 "ab" = Ok (Some (VUInt32 1)).
Proof.
  apply (Put_then_Get [] None "ab" (VUInt32 1)).
  - intros p n ch c Hp. rewrite lookup_nil in Hp. discriminate.
  - exact I.
Defined.

(** C5 (the code fails it).  Remove on the empty trie dereferences the null
    root for every key, and Get of the empty key on a root without a child
    for the null character throws std::out_of_range: here the trie holding
    only "a". *)
Theorem Remove_and_Get_can_fail :
  (∀ h key, Remove h None key = NullDeref) ∧
  ('(t, h) ← Put [] None "a" (VUInt32 1); Get h t TUInt32 "") = OutOfRange.
Proof.
  split.
  - intros h key. unfold Remove. simpl. done.
  - vm_compute. reflexivity.
Qed.

(** C7 (the code fails it).  From the trie with "b" and "bc", Put("xb", 2)
    followed by Remove("xb") gives a snapshot in which Get("xbc") finds the
    value of "bc", a key the first snapshot does not have; and
    Put("", 1).Remove("") on the empty trie gives a snapshot on which
    Get("") throws. *)
Theorem Put_Remove_changes_other_key :
  ('(t, t2, h2) ← trie_b_bc_put_remove_xb;
   Ok (Get h2 t TUInt32 "xbc", Get h2 t2 TUInt32 "xbc", Get h2 t2 TUInt32 "xb"))
    = Ok (Ok None, Ok (Some (VUInt32 3)), Ok None) ∧
  ('(t2, h2) ← trie_put_remove_empty_key; Get h2 t2 TUInt32 "") = OutOfRange.
Proof. split; vm_compute; reflexivity. Qed.

End TrieFacts.

(** * Properties of the replacer *)
Module ReplacerFacts.
Import Replacer.

Lemma deref_update p g r q :
  deref (update p g r) q = if decide (p = q) then g <$> deref r q else deref r q.
Proof.
  destruct p, q; simpl; try done.
  rewrite lookup_alter. repeat case_decide; simplify_eq; done.
Qed.

Lemma deref_update_eq p g r : deref (update p g r) p = g <$> deref r p.
Proof. rewrite deref_update. by rewrite decide_True. Qed.

Lemma deref_update_ne p g r q : p ≠ q → deref (update p g r) q = deref r q.
Proof. intros. rewrite deref_update. by rewrite decide_False. Qed.


Lemma update_id p g r :
  (∀ n, deref r p = Some n → g n = n) → update p g r = r.
Proof.
  intros Hg. destruct r as [ns he ms bs ts cs rs k], p; simpl in *.
  - by rewrite Hg.
  - by rewrite Hg.
  - by rewrite Hg.
  - f_equal. apply map_eq. intros i. rewrite lookup_alter. case_decide; [|done].
    subst. destruct (ns !! i) eqn:E; [|done]. simpl. by rewrite Hg.
Qed.

Lemma DisLink_unlinked p r n :
  deref r p = Some n → frontptr_ n = None → backptr_ n = None → DisLink p r = r.
Proof.
  intros Hd Hf Hb. unfold DisLink. rewrite Hd, Hf, Hb.
  apply update_id. intros n' Hn'. rewrite Hd in Hn'. injection Hn' as <-.
  destruct n; simpl in *; by subst.
Qed.


Lemma Remove_untracks f r0 r : Remove f r0 = Ok r → node_store_ r !! f = None.
Proof.
  unfold Remove. destruct (node_store_ r0 !! f) as [n|] eqn:E.
  - destruct (negb (GetEvictable n)); [done|]. intros [= <-].
    simpl. apply lookup_delete_eq.
  - by intros [= <-].
Qed.


(** *** Chains of nodes *)


Lemma linked_ext r r' prev l :
  (∀ q, q ∈ l → links <$> deref r' q = links <$> deref r q) →
  linked r prev l → linked r' prev l.
Proof.
  revert prev. induction l as [|p l IH]; intros prev Hext; simpl; [done|].
  intros (n & Hn & Hb & Hf & Hl).
  pose proof (Hext p ltac:(left)) as Hp. rewrite Hn in Hp.
  destruct (deref r' p) as [n'|]; simpl in Hp; [|done].
  injection Hp as Hf' Hb'.
  exists n'. split; [done|]. split; [congruence|]. split; [congruence|].
  apply IH; [|done]. intros q Hq. apply Hext. by right.
Qed.

Lemma linked_update_notin r prev l p g :
  p ∉ l → linked r prev l → linked (update p g r) prev l.
Proof.
  intros Hp. apply linked_ext. intros q Hq.
  rewrite deref_update_ne; [done|]. by intros ->.
Qed.


Lemma behind_cons prev p l1 : behind prev (p :: l1) = behind (Some p) l1.
Proof.
  unfold behind. destruct l1 as [|q l1]; [done|].
  rewrite last_cons. by destruct (last (q :: l1)).
Qed.

Lemma linked_split r prev l1 l2 :
  linked r prev (l1 ++ l2) → linked r (behind prev l1) l2.
Proof.
  revert prev. induction l1 as [|p l1 IH]; intros prev; [done|].
  simpl. intros (n & _ & _ & _ & Hl). rewrite behind_cons. by apply IH.
Qed.

Lemma linked_at r prev l1 x l2 :
  linked r prev (l1 ++ x :: l2) →
  ∃ n, deref r x = Some n ∧ backptr_ n = behind prev l1 ∧ frontptr_ n = head l2.
Proof.
  intros H%linked_split. simpl in H. destruct H as (n & ? & ? & ? & _). eauto.
Qed.

Lemma head_app_cons {A} (l1 : list A) x l2 y l3 :
  head (l1 ++ x :: l2) = head (l1 ++ x :: y :: l3).
Proof. by destruct l1. Qed.

(** Splicing [x] out from between [b] and [f]. *)
Lemma linked_remove r prev l1 b x f l2 :
  NoDup (l1 ++ b :: x :: f :: l2) →
  linked r prev (l1 ++ b :: x :: f :: l2) →
  linked (update x (λ n, set_backptr None (set_frontptr None n))
            (update f (set_backptr (Some b))
               (update b (set_frontptr (Some f)) r)))
         prev (l1 ++ b :: f :: l2).
Proof.
  revert prev. induction l1 as [|p l1 IH]; intros prev Hnd.
  - simpl. intros (nb & Hb & Hbb & Hbf & nx & Hx & Hxb & Hxf & nf & Hf & Hfb & Hff & Hl).
    apply NoDup_cons in Hnd as [Hb_notin Hnd].
    apply NoDup_cons in Hnd as [Hx_notin Hnd].
    apply NoDup_cons in Hnd as [Hf_notin Hnd].
    assert (b ≠ x ∧ b ≠ f ∧ x ≠ f) as (Hbx & Hbf' & Hxf').
    { set_solver. }
    exists (set_frontptr (Some f) nb). split; [|split; [done|split; [done|]]].
    { rewrite deref_update_ne, deref_update_ne, deref_update_eq, Hb by done. done. }
    exists (set_backptr (Some b) nf). split; [|split; [done|split; [done|]]].
    { rewrite deref_update_ne, deref_update_eq, deref_update_ne, Hf by done. done. }
    do 3 (apply linked_update_notin; [set_solver|]). done.
  - simpl. intros (n & Hn & Hnb & Hnf & Hl).
    apply NoDup_cons in Hnd as [Hp Hnd].
    exists n. split; [|split; [done|split]].
    + rewrite !deref_update_ne; [done|set_solver..].
    + rewrite Hnf. by destruct l1.
    + by apply IH.
Qed.

Lemma exists_last_ne {A} (l : list A) : l ≠ [] → ∃ l' b, l = l' ++ [b].
Proof.
  intros Hl. destruct (exists_last Hl) as (l' & b & ->). eauto.
Qed.

Lemma behind_snoc prev l b : behind prev (l ++ [b]) = Some b.
Proof. unfold behind. by rewrite last_snoc. Qed.

(** [DisLink] takes a node out of the middle of a chain. *)
Lemma DisLink_linked r prev l1 x l2 :
  NoDup (l1 ++ x :: l2) → l1 ≠ [] → l2 ≠ [] →
  linked r prev (l1 ++ x :: l2) → linked (DisLink x r) prev (l1 ++ l2).
Proof.
  intros Hnd H1 H2 Hl.
  destruct (exists_last_ne l1 H1) as (l1' & b & ->).
  destruct l2 as [|f l2]; [done|].
  destruct (linked_at _ _ _ _ _ Hl) as (n & Hn & Hb & Hf).
  rewrite behind_snoc in Hb. simpl in Hf.
  unfold DisLink. rewrite Hn, Hb, Hf.
  rewrite <- !app_assoc in *. simpl in *.
  by apply linked_remove.
Qed.

(** [MoveToEnd] puts a node that is on no list right in front of [e]. *)
Lemma MoveToEnd_linked r prev l1 e l2 x nx :
  NoDup (l1 ++ e :: l2) → x ∉ l1 ++ e :: l2 → l2 ≠ [] →
  deref r x = Some nx → frontptr_ nx = None → backptr_ nx = None →
  linked r prev (l1 ++ e :: l2) →
  linked (MoveToEnd x e r) prev (l1 ++ e :: x :: l2).
Proof.
  intros Hnd Hx H2 Hnx Hxf Hxb Hl.
  destruct l2 as [|f l2]; [done|].
  destruct (linked_at _ _ _ _ _ Hl) as (ne & Hne & Heb & Hef). simpl in Hef.
  unfold MoveToEnd. rewrite (DisLink_unlinked x r nx) by done.
  rewrite Hne, Hef. clear Heb.
  revert prev Hl. induction l1 as [|p l1 IH]; intros prev.
  - simpl. intros (ne' & Hne' & Heb & _ & nf & Hf & Hfb & Hff & Hl).
    rewrite Hne in Hne'. injection Hne' as <-.
    apply NoDup_cons in Hnd as [He_notin Hnd].
    apply NoDup_cons in Hnd as [Hf_notin Hnd].
    assert (e ≠ x ∧ e ≠ f ∧ x ≠ f) as (Hex & Hef' & Hxf').
    { set_solver. }
    exists (set_frontptr (Some x) ne). split; [|split; [done|split; [done|]]].
    { rewrite deref_update_ne, deref_update_ne, deref_update_eq, Hne by done. done. }
    exists (set_backptr (Some e) (set_frontptr (Some f) nx)).
    split; [|split; [done|split; [done|]]].
    { rewrite deref_update_eq, deref_update_ne, deref_update_ne, Hnx by done. done. }
    exists (set_backptr (Some x) nf). split; [|split; [done|split; [done|]]].
    { rewrite deref_update_ne, deref_update_eq, deref_update_ne, Hf by done. done. }
    do 3 (apply linked_update_notin; [set_solver|]). done.
  - simpl. intros (n & Hn & Hnb & Hnf & Hl).
    apply NoDup_cons in Hnd as [Hp Hnd].
    exists n. split; [|split; [done|split]].
    + rewrite !deref_update_ne; [done|set_solver..].
    + rewrite Hnf. by destruct l1.
    + apply IH; [done| |done]. apply not_elem_of_cons in Hx. tauto.
Qed.

(** What the two operations write, when the node is on a chain. *)
Lemma DisLink_on_chain r prev l1 b x f l2 :
  linked r prev (l1 ++ b :: x :: f :: l2) →
  DisLink x r =
    update x (λ n, set_backptr None (set_frontptr None n))
      (update f (set_backptr (Some b)) (update b (set_frontptr (Some f)) r)).
Proof.
  intros Hl.
  replace (l1 ++ b :: x :: f :: l2) with ((l1 ++ [b]) ++ x :: f :: l2) in Hl
    by by rewrite <- app_assoc.
  destruct (linked_at _ _ _ _ _ Hl) as (n & Hn & Hb & Hf).
  rewrite behind_snoc in Hb. simpl in Hf.
  unfold DisLink. by rewrite Hn, Hb, Hf.
Qed.

Lemma MoveToEnd_on_chain r prev l1 e f l2 x nx :
  linked r prev (l1 ++ e :: f :: l2) →
  deref r x = Some nx → frontptr_ nx = None → backptr_ nx = None →
  MoveToEnd x e r =
    update x (λ n, set_backptr (Some e) (set_frontptr (Some f) n))
      (update f (set_backptr (Some x)) (update e (set_frontptr (Some x)) r)).
Proof.
  intros Hl Hnx Hxf Hxb.
  destruct (linked_at _ _ _ _ _ Hl) as (ne & Hne & _ & Hef). simpl in Hef.
  unfold MoveToEnd. rewrite (DisLink_unlinked x r nx) by done.
  by rewrite Hne, Hef.
Qed.

(** Neither operation touches the data of any node. *)
Lemma deref_update_data p g r q :
  (∀ n, data (g n) = data n) →
  data <$> deref (update p g r) q = data <$> deref r q.
Proof.
  intros Hg. rewrite deref_update. case_decide; [|done].
  destruct (deref r q); simpl; [|done]. by rewrite Hg.
Qed.

Lemma DisLink_data p r q : data <$> deref (DisLink p r) q = data <$> deref r q.
Proof.
  unfold DisLink. destruct (deref r p) as [n|]; [|done].
  rewrite deref_update_data by done.
  destruct (frontptr_ n), (backptr_ n); by rewrite ?deref_update_data by done.
Qed.

Lemma MoveToEnd_data p e r q :
  data <$> deref (MoveToEnd p e r) q = data <$> deref r q.
Proof.
  unfold MoveToEnd. rewrite deref_update_data by done.
  destruct (match deref (DisLink p r) e with Some e0 => frontptr_ e0 | None => None end);
    rewrite ?deref_update_data by done; apply DisLink_data.
Qed.

Lemma update_scalars p g r :
  current_timestamp_ (update p g r) = current_timestamp_ r ∧
  curr_size_ (update p g r) = curr_size_ r ∧
  replacer_size_ (update p g r) = replacer_size_ r ∧
  rk_ (update p g r) = rk_ r.
Proof. by destruct p. Qed.

Lemma DisLink_scalars p r :
  current_timestamp_ (DisLink p r) = current_timestamp_ r ∧
  curr_size_ (DisLink p r) = curr_size_ r ∧
  replacer_size_ (DisLink p r) = replacer_size_ r ∧
  rk_ (DisLink p r) = rk_ r.
Proof.
  unfold DisLink. destruct (deref r p) as [n|]; [|done].
  destruct (frontptr_ n) as [[]|], (backptr_ n) as [[]|], p; done.
Qed.

Lemma MoveToEnd_scalars p e r :
  current_timestamp_ (MoveToEnd p e r) = current_timestamp_ r ∧
  curr_size_ (MoveToEnd p e r) = curr_size_ r ∧
  replacer_size_ (MoveToEnd p e r) = replacer_size_ r ∧
  rk_ (MoveToEnd p e r) = rk_ r.
Proof.
  unfold MoveToEnd.
  pose proof (DisLink_scalars p r) as (H1 & H2 & H3 & H4).
  set (r1 := DisLink p r) in *.
  destruct (match deref r1 e with Some e0 => frontptr_ e0 | None => None end) as [ef|].
  - destruct (update_scalars p (λ n, set_backptr (Some e) (set_frontptr (Some ef) n))
      (update ef (set_backptr (Some p)) (update e (set_frontptr (Some p)) r1)))
      as (-> & -> & -> & ->).
    destruct (update_scalars ef (set_backptr (Some p)) (update e (set_frontptr (Some p)) r1))
      as (-> & -> & -> & ->).
    destruct (update_scalars e (set_frontptr (Some p)) r1) as (-> & -> & -> & ->).
    done.
  - destruct (update_scalars p (λ n, set_backptr (Some e) (set_frontptr None n))
      (update e (set_frontptr (Some p)) r1))
      as (-> & -> & -> & ->).
    destruct (update_scalars e (set_frontptr (Some p)) r1) as (-> & -> & -> & ->).
    done.
Qed.

(** *** The chain of the two lists *)


Lemma drop_frame_notin f l : f ∉ l → drop_frame f l = l.
Proof.
  induction l as [|g l IH]; [done|]. intros [Hne Hl]%not_elem_of_cons.
  unfold drop_frame in *. rewrite filter_cons_True by done. by rewrite IH.
Qed.

Lemma drop_frame_middle f l1 l2 :
  f ∉ l1 → f ∉ l2 → drop_frame f (l1 ++ f :: l2) = l1 ++ l2.
Proof.
  intros H1 H2. unfold drop_frame. rewrite filter_app, filter_cons_False by naive_solver.
  fold (drop_frame f l1) (drop_frame f l2). by rewrite !drop_frame_notin.
Qed.

Lemma elem_of_drop_frame f g l : g ∈ drop_frame f l ↔ g ≠ f ∧ g ∈ l.
Proof. unfold drop_frame. by rewrite list_elem_of_filter. Qed.

Lemma drop_frame_app f l1 l2 :
  drop_frame f (l1 ++ l2) = drop_frame f l1 ++ drop_frame f l2.
Proof. apply filter_app. Qed.

#[local] Instance FrameNode_inj : Inj (=) (=) FrameNode.
Proof. by intros ?? [=]. Qed.

Lemma elem_of_chain q hist cache :
  q ∈ chain hist cache ↔
  q = HistoryEnd ∨ q = MiddleSeparator ∨ q = BufferStart ∨
  ∃ f, q = FrameNode f ∧ f ∈ hist ++ cache.
Proof.
  unfold chain. rewrite elem_of_cons, elem_of_app, elem_of_cons, elem_of_app,
    list_elem_of_singleton, !list_elem_of_fmap.
  setoid_rewrite elem_of_app. naive_solver.
Qed.

Lemma NoDup_chain hist cache : NoDup (hist ++ cache) → NoDup (chain hist cache).
Proof.
  intros Hnd. apply NoDup_app in Hnd as (Hh & Hhc & Hc).
  unfold chain. apply NoDup_cons. split.
  { rewrite elem_of_app, elem_of_cons, elem_of_app, list_elem_of_singleton,
      !list_elem_of_fmap. naive_solver. }
  apply NoDup_app. split; [|split].
  - apply (NoDup_fmap_2 _). done.
  - intros q (f & -> & Hf)%list_elem_of_fmap.
    rewrite elem_of_cons, elem_of_app, list_elem_of_singleton, list_elem_of_fmap.
    intros [?|[(g & [= <-] & Hg)|?]]; [done| |done]. by eapply Hhc.
  - apply NoDup_cons. split.
    + rewrite elem_of_app, list_elem_of_singleton, list_elem_of_fmap. naive_solver.
    + apply NoDup_app. split; [|split].
      * by apply (NoDup_fmap_2 _).
      * intros q (f & -> & Hf)%list_elem_of_fmap. by rewrite list_elem_of_singleton.
      * apply NoDup_singleton.
Qed.

(** A listed frame is strictly inside the chain, and taking it out of the
    chain is dropping it from its list. *)
Lemma chain_split hist cache f :
  NoDup (hist ++ cache) → f ∈ hist ++ cache →
  ∃ l1 l2, chain hist cache = l1 ++ FrameNode f :: l2 ∧ l1 ≠ [] ∧ l2 ≠ [] ∧
           chain (drop_frame f hist) (drop_frame f cache) = l1 ++ l2.
Proof.
  intros Hnd Hf. apply NoDup_app in Hnd as (Hh & Hhc & Hc).
  apply elem_of_app in Hf as [Hf|Hf].
  - apply list_elem_of_split in Hf as (h1 & h2 & ->).
    apply NoDup_app in Hh as (_ & Hh1 & Hh2%NoDup_cons).
    exists (HistoryEnd :: (FrameNode <$> h1)),
      ((FrameNode <$> h2) ++ MiddleSeparator :: (FrameNode <$> cache) ++ [BufferStart]).
    split; [|split; [done|split; [by destruct h2|]]].
    + unfold chain. rewrite fmap_app, fmap_cons. simpl. by rewrite <- app_assoc.
    + rewrite drop_frame_middle, (drop_frame_notin f cache).
      * unfold chain. rewrite fmap_app. simpl. by rewrite <- app_assoc.
      * intros Hc'. eapply Hhc; [|done]. set_solver.
      * intros Hh1'. eapply Hh1; [done|]. set_solver.
      * tauto.
  - apply list_elem_of_split in Hf as (c1 & c2 & ->).
    apply NoDup_app in Hc as (_ & Hc1 & Hc2%NoDup_cons).
    exists (HistoryEnd :: (FrameNode <$> hist) ++ MiddleSeparator :: (FrameNode <$> c1)),
      ((FrameNode <$> c2) ++ [BufferStart]).
    split; [|split; [done|split; [by destruct c2|]]].
    + unfold chain. rewrite fmap_app, fmap_cons. simpl.
      by repeat (rewrite <- app_assoc; simpl).
    + rewrite drop_frame_middle, (drop_frame_notin f hist).
      * unfold chain. rewrite fmap_app. simpl.
        by repeat (rewrite <- app_assoc; simpl).
      * intros Hh'. eapply Hhc; [done|]. set_solver.
      * intros Hc1'. eapply Hc1; [done|]. set_solver.
      * tauto.
Qed.

Lemma repr_tracked r hist cache f :
  repr r hist cache → f ∈ hist ++ cache → is_Some (node_store_ r !! f).
Proof.
  intros [Hl Hnd _] Hf.
  destruct (chain_split hist cache f Hnd Hf) as (l1 & l2 & Hc & _).
  rewrite Hc in Hl. destruct (linked_at _ _ _ _ _ Hl) as (n & Hn & _). eauto.
Qed.

Lemma DisLink_self_links x r n :
  deref (DisLink x r) x = Some n → frontptr_ n = None ∧ backptr_ n = None.
Proof.
  unfold DisLink. destruct (deref r x) as [n0|] eqn:E.
  - rewrite deref_update_eq.
    intros (m & _ & ->)%fmap_Some. done.
  - by rewrite E.
Qed.

Lemma DisLink_unlisted r hist cache f :
  repr r hist cache → f ∉ hist ++ cache → DisLink (FrameNode f) r = r.
Proof.
  intros Hr Hf. destruct (node_store_ r !! f) as [n|] eqn:E.
  - destruct (repr_unlisted _ _ _ Hr f n E Hf). by eapply DisLink_unlinked.
  - unfold DisLink. simpl. by rewrite E.
Qed.

Lemma DisLink_other r hist cache f g :
  repr r hist cache → g ≠ f → g ∉ hist ++ cache →
  node_store_ (DisLink (FrameNode f) r) !! g = node_store_ r !! g.
Proof.
  intros Hr Hgf Hg. destruct (decide (f ∈ hist ++ cache)) as [Hf|Hf].
  - destruct (chain_split hist cache f (repr_nodup _ _ _ Hr) Hf)
      as (l1 & l2 & Hc & H1 & H2 & _).
    destruct (exists_last_ne l1 H1) as (l1' & b & ->).
    destruct l2 as [|f' l2]; [done|].
    pose proof (repr_linked _ _ _ Hr) as Hl. rewrite Hc in Hl.
    rewrite <- app_assoc in Hl, Hc. simpl in Hl, Hc.
    rewrite (DisLink_on_chain _ _ _ _ _ _ _ Hl).
    assert (FrameNode g ∉ chain hist cache) as Hnotin.
    { rewrite elem_of_chain. naive_solver. }
    rewrite Hc in Hnotin.
    change (node_store_ ?r !! g) with (deref r (FrameNode g)).
    rewrite !deref_update_ne; [done|set_solver..].
  - by rewrite (DisLink_unlisted r hist cache f).
Qed.

(** [DisLink] drops the frame from the list it is on. *)
Lemma repr_DisLink r hist cache f :
  repr r hist cache →
  repr (DisLink (FrameNode f) r) (drop_frame f hist) (drop_frame f cache).
Proof.
  intros Hr. destruct (decide (f ∈ hist ++ cache)) as [Hf|Hf].
  - destruct (chain_split hist cache f (repr_nodup _ _ _ Hr) Hf)
      as (l1 & l2 & Hc & H1 & H2 & Hc').
    split.
    + rewrite Hc'. apply DisLink_linked; [|done..|].
      * rewrite <- Hc. apply NoDup_chain, Hr.
      * rewrite <- Hc. apply Hr.
    + rewrite <- drop_frame_app. apply NoDup_filter, Hr.
    + intros g n Hg Hnotin. rewrite <- drop_frame_app, elem_of_drop_frame in Hnotin.
      destruct (decide (g = f)) as [->|Hgf].
      * exact (DisLink_self_links (FrameNode f) r n Hg).
      * rewrite (DisLink_other r hist cache) in Hg by tauto.
        eapply repr_unlisted; [done..|tauto].
  - rewrite (DisLink_unlisted r hist cache f) by done.
    apply not_elem_of_app in Hf as [? ?]. by rewrite !drop_frame_notin.
Qed.

Lemma DisLink_twice x r : DisLink x (DisLink x r) = DisLink x r.
Proof.
  destruct (deref r x) as [n|] eqn:E.
  - destruct (deref (DisLink x r) x) as [n'|] eqn:E'.
    + destruct (DisLink_self_links x r n' E'). by eapply DisLink_unlinked.
    + pose proof (DisLink_data x r x) as Hd. by rewrite E, E' in Hd.
  - unfold DisLink at 2. rewrite E. unfold DisLink. by rewrite E.
Qed.

Lemma MoveToEnd_DisLink x e r : MoveToEnd x e (DisLink x r) = MoveToEnd x e r.
Proof. unfold MoveToEnd. by rewrite DisLink_twice. Qed.

Lemma repr_MoveToEnd_gen r h c f e l1 l2 h2 c2 :
  repr r h c → f ∉ h ++ c → is_Some (node_store_ r !! f) →
  chain h c = l1 ++ e :: l2 → l2 ≠ [] →
  chain h2 c2 = l1 ++ e :: FrameNode f :: l2 → NoDup (h2 ++ c2) →
  (∀ g, g ∉ h2 ++ c2 → g ≠ f ∧ g ∉ h ++ c) →
  repr (MoveToEnd (FrameNode f) e r) h2 c2.
Proof.
  intros Hr Hf [n Hn] Hc H2 Hc2 Hnd Hsub.
  destruct (repr_unlisted _ _ _ Hr f n Hn Hf) as [Hnf Hnb].
  pose proof (repr_linked _ _ _ Hr) as Hl. rewrite Hc in Hl.
  assert (FrameNode f ∉ l1 ++ e :: l2) as Hfnot.
  { rewrite <- Hc, elem_of_chain. naive_solver. }
  split; [| done |].
  - rewrite Hc2. eapply MoveToEnd_linked; try done.
    rewrite <- Hc. apply NoDup_chain, Hr.
  - intros g ng Hg Hgnot. destruct (Hsub g Hgnot) as [Hgf Hgnot'].
    destruct l2 as [|f' l2]; [done|].
    rewrite (MoveToEnd_on_chain r None l1 e f' l2 (FrameNode f) n Hl Hn Hnf Hnb) in Hg.
    assert (FrameNode g ∉ l1 ++ e :: f' :: l2) as Hgc.
    { rewrite <- Hc, elem_of_chain. naive_solver. }
    change (node_store_ ?r !! g) with (deref r (FrameNode g)) in Hg.
    rewrite !deref_update_ne in Hg.
    + by eapply repr_unlisted.
    + intros ->. apply Hgc. rewrite elem_of_app, !elem_of_cons. tauto.
    + intros ->. apply Hgc. rewrite elem_of_app, !elem_of_cons. tauto.
    + congruence.
Qed.

Lemma repr_drop_tracked r hist cache f :
  repr r hist cache → is_Some (node_store_ r !! f) →
  let r1 := DisLink (FrameNode f) r in
  repr r1 (drop_frame f hist) (drop_frame f cache) ∧
  (f ∉ drop_frame f hist ++ drop_frame f cache) ∧
  is_Some (node_store_ r1 !! f).
Proof.
  intros Hr [n Hn] r1. split; [by apply repr_DisLink|]. split.
  - rewrite <- drop_frame_app, elem_of_drop_frame. tauto.
  - pose proof (DisLink_data (FrameNode f) r (FrameNode f)) as Hd.
    simpl in Hd. rewrite Hn in Hd. subst r1.
    destruct (node_store_ (DisLink (FrameNode f) r) !! f); [eauto|done].
Qed.

(** [MoveToEnd(node, history_end_ptr_)]: the frame leaves its list and
    becomes the first of the history list; with [middle_separator_ptr_], the
    first of the cache list. *)
Lemma repr_MoveToEnd_history r hist cache f :
  repr r hist cache → is_Some (node_store_ r !! f) →
  repr (MoveToEnd (FrameNode f) HistoryEnd r)
       (f :: drop_frame f hist) (drop_frame f cache).
Proof.
  intros Hr Hf. rewrite <- MoveToEnd_DisLink.
  destruct (repr_drop_tracked r hist cache f Hr Hf) as (Hr1 & Hnot & Hf1).
  eapply (repr_MoveToEnd_gen _ _ _ _ _ []); try done.
  - by destruct (drop_frame f hist).
  - simpl. apply NoDup_cons. split; [done|]. apply Hr1.
  - intros g Hg. simpl in Hg. apply not_elem_of_cons in Hg. tauto.
Qed.

Lemma repr_MoveToEnd_cache r hist cache f :
  repr r hist cache → is_Some (node_store_ r !! f) →
  repr (MoveToEnd (FrameNode f) MiddleSeparator r)
       (drop_frame f hist) (f :: drop_frame f cache).
Proof.
  intros Hr Hf. rewrite <- MoveToEnd_DisLink.
  destruct (repr_drop_tracked r hist cache f Hr Hf) as (Hr1 & Hnot & Hf1).
  eapply (repr_MoveToEnd_gen _ _ _ _ _ (HistoryEnd :: (FrameNode <$> drop_frame f hist)));
    try done.
  - by destruct (drop_frame f cache).
  - rewrite <- Permutation_middle. apply NoDup_cons. split; [done|]. apply Hr1.
  - intros g Hg. rewrite <- Permutation_middle in Hg.
    apply not_elem_of_cons in Hg. tauto.
Qed.

Lemma behind_app prev l1 l2 : behind prev (l1 ++ l2) = behind (behind prev l1) l2.
Proof.
  revert prev. induction l1 as [|p l1 IH]; intros prev; [done|].
  simpl. by rewrite !behind_cons, IH.
Qed.

(** *** The scans of [Evict] *)

Lemma evictable_in_deref r f n :
  node_store_ r !! f = Some n → evictable_in r f = is_evictable_ n.
Proof. unfold evictable_in. by intros ->. Qed.

Lemma evict_scan_spec r stop l : (∀ f, stop ≠ FrameNode f) →
  ∀ prev rest fuel,
  linked r prev (stop :: (FrameNode <$> l) ++ rest) →
  (length l < fuel)%nat →
  evict_scan fuel r stop (behind (Some stop) (FrameNode <$> l)) =
    Ok (FrameNode <$> first_evictable r (rev l)).
Proof.
  intros Hstop. induction l as [|f l IH] using rev_ind; intros prev rest fuel Hl Hfuel.
  - destruct fuel; [simpl in Hfuel; lia|]. simpl.
    by rewrite decide_True.
  - destruct fuel; [simpl in Hfuel; lia|].
    rewrite length_app in Hfuel. simpl in Hfuel.
    rewrite fmap_app, behind_app. simpl.
    rewrite decide_False by (intros Heq; by eapply Hstop).
    rewrite fmap_app, <- app_assoc in Hl. simpl in Hl.
    destruct (linked_at r prev (stop :: (FrameNode <$> l)) (FrameNode f) rest Hl)
      as (n & Hn & Hb & _).
    simpl in Hn. rewrite Hn. rewrite rev_app_distr. simpl.
    rewrite (evictable_in_deref r f n Hn).
    unfold GetEvictable. destruct (is_evictable_ n); [done|].
    rewrite Hb, behind_cons. eapply IH; [done|lia].
Qed.

Lemma length_le_size_dom (l : list Z) (m : gmap Z LRUKNode) :
  NoDup l → (∀ f, f ∈ l → is_Some (m !! f)) → (length l ≤ size m)%nat.
Proof.
  intros Hnd Hin.
  rewrite <- (size_list_to_set (C := gset Z) l Hnd), <- size_dom.
  apply subseteq_size. intros f Hf. apply elem_of_dom, Hin.
  by apply elem_of_list_to_set in Hf.
Qed.

Lemma repr_length r hist cache :
  repr r hist cache → (length hist + length cache ≤ size (node_store_ r))%nat.
Proof.
  intros Hr. rewrite <- length_app. apply length_le_size_dom; [apply Hr|].
  intros f Hf. by eapply repr_tracked.
Qed.

Lemma IsHistoryEmpty_repr r hist cache :
  repr r hist cache → IsHistoryEmpty r = bool_decide (hist = []).
Proof.
  intros [Hl _ _]. unfold chain in Hl. simpl in Hl.
  destruct Hl as (n & [= <-] & _ & Hf & _).
  unfold IsHistoryEmpty. rewrite Hf.
  by destruct hist.
Qed.

Lemma IsBufferEmpty_repr r hist cache :
  repr r hist cache → IsBufferEmpty r = bool_decide (cache = []).
Proof.
  intros [Hl _ _].
  destruct (linked_at r None (HistoryEnd :: (FrameNode <$> hist)) MiddleSeparator
              ((FrameNode <$> cache) ++ [BufferStart]) Hl) as (n & [= <-] & _ & Hf).
  unfold IsBufferEmpty. rewrite Hf.
  by destruct cache.
Qed.

(** On a well-linked replacer [Evict] takes the evictable frame nearest the
    far end of the history list, or else of the cache list. *)
Lemma Evict_repr r hist cache : repr r hist cache →
  Evict r =
    if curr_size_ r =? 0 then Ok (None, r)
    else match first_evictable r (rev hist) with
         | Some f => evict_node (FrameNode f) r
         | None =>
             match first_evictable r (rev cache) with
             | Some f => evict_node (FrameNode f) r
             | None => Ok (None, r)
             end
         end.
Proof.
  intros Hr. pose proof (repr_length r hist cache Hr) as Hlen.
  pose proof (repr_linked _ _ _ Hr) as Hl.
  unfold Evict. destruct (curr_size_ r =? 0); [done|].
  assert ((if negb (IsHistoryEmpty r)
           then evict_scan (scan_fuel r) r HistoryEnd (backptr_ (middle_separator r))
           else Ok None) = Ok (FrameNode <$> first_evictable r (rev hist))) as ->.
  { rewrite (IsHistoryEmpty_repr r hist cache Hr).
    case_bool_decide as Hh; simpl; [by subst|].
    destruct (linked_at r None (HistoryEnd :: (FrameNode <$> hist)) MiddleSeparator
                ((FrameNode <$> cache) ++ [BufferStart]) Hl) as (n & [= <-] & Hb & _).
    rewrite Hb, behind_cons.
    eapply (evict_scan_spec r HistoryEnd hist ltac:(done) None); [exact Hl|].
    unfold scan_fuel. lia. }
  cbn [mbind result_bind].
  destruct (first_evictable r (rev hist)) as [f|]; [done|]. simpl.
  assert ((if negb (IsBufferEmpty r)
           then evict_scan (scan_fuel r) r MiddleSeparator (backptr_ (buffer_start r))
           else Ok None) = Ok (FrameNode <$> first_evictable r (rev cache))) as ->.
  { rewrite (IsBufferEmpty_repr r hist cache Hr).
    case_bool_decide as Hc; simpl; [by subst|].
    assert (chain hist cache =
            (HistoryEnd :: (FrameNode <$> hist) ++ MiddleSeparator :: (FrameNode <$> cache))
            ++ [BufferStart]) as Hch.
    { unfold chain. simpl. by rewrite <- app_assoc. }
    pose proof Hl as Hl'. rewrite Hch in Hl'.
    destruct (linked_at _ _ _ _ _ Hl') as (n & [= <-] & Hb & _).
    rewrite Hb.
    replace (HistoryEnd :: (FrameNode <$> hist) ++ MiddleSeparator :: (FrameNode <$> cache))
      with ((HistoryEnd :: (FrameNode <$> hist)) ++ MiddleSeparator :: (FrameNode <$> cache))
      by done.
    rewrite behind_app, behind_cons.
    pose proof (linked_split r None (HistoryEnd :: (FrameNode <$> hist)) _ Hl) as Hl2.
    eapply (evict_scan_spec r MiddleSeparator cache ltac:(done)); [exact Hl2|].
    unfold scan_fuel. lia. }
  cbn [mbind result_bind].
  by destruct (first_evictable r (rev cache)).
Qed.

(** *** Counting the evictable nodes *)


Lemma count_insert_fresh m f n : m !! f = None →
  evictable_count (<[f:=n]> m) = (evictable_count m + b2n (is_evictable_ n))%nat.
Proof.
  intros Hf. unfold evictable_count. rewrite map_filter_insert. case_decide as Hp.
  - simpl in Hp. rewrite Hp. simpl.
    rewrite map_size_insert_None; [lia|].
    apply map_lookup_filter_None_2. by left.
  - simpl in Hp. apply not_true_is_false in Hp. rewrite Hp. simpl.
    rewrite delete_id by done. lia.
Qed.

Lemma count_delete m f n : m !! f = Some n →
  evictable_count m = (evictable_count (delete f m) + b2n (is_evictable_ n))%nat.
Proof.
  intros Hf. rewrite <- (insert_id m f n) at 1 by done.
  rewrite <- insert_delete_eq. apply count_insert_fresh, lookup_delete_eq.
Qed.

Lemma count_alter m f n g : m !! f = Some n →
  evictable_count (alter g f m) =
    (evictable_count (delete f m) + b2n (is_evictable_ (g n)))%nat.
Proof.
  intros Hf.
  rewrite (count_delete (alter g f m) f (g n)) by (by rewrite lookup_alter_eq, Hf).
  f_equal. f_equal. apply map_eq. intros i.
  destruct (decide (i = f)) as [->|Hne].
  - by rewrite !lookup_delete_eq.
  - by rewrite !lookup_delete_ne, lookup_alter_ne by done.
Qed.

Lemma count_flags m m' :
  (∀ g, is_evictable_ <$> m' !! g = is_evictable_ <$> m !! g) →
  evictable_count m' = evictable_count m.
Proof.
  intros Hfl.
  assert (∀ m0 : gmap Z LRUKNode, evictable_count m0 =
            size (filter (λ kv : Z * bool, kv.2 = true) (is_evictable_ <$> m0))) as Hc.
  { intros m0. rewrite map_filter_fmap, map_size_fmap. unfold evictable_count.
    f_equal; try (apply map_filter_ext; by intros i x _). }
  rewrite !Hc. do 2 f_equal. apply map_eq. intros g. by rewrite !lookup_fmap.
Qed.

Lemma count_le_size m : (evictable_count m ≤ size m)%nat.
Proof. apply map_subseteq_size, map_filter_subseteq. Qed.

Lemma size_bounded (m : gmap Z LRUKNode) (N : nat) :
  (∀ f, is_Some (m !! f) → 0 ≤ f < Z.of_nat N) → (size m ≤ N)%nat.
Proof.
  intros Hb. rewrite <- size_dom.
  transitivity (size (list_to_set (C := gset Z) (Z.of_nat <$> seq 0 N))).
  - apply subseteq_size. intros f Hf%elem_of_dom. apply Hb in Hf.
    apply elem_of_list_to_set, list_elem_of_fmap. exists (Z.to_nat f).
    split; [lia|]. apply elem_of_seq. lia.
  - rewrite size_list_to_set.
    + by rewrite length_fmap, length_seq.
    + apply NoDup_fmap_2; [|apply NoDup_seq]. intros x y. lia.
Qed.

(** *** Orders of last access *)

Lemma sorted_drop_frame (g : Z → Z) f l :
  StronglySorted Z.gt (g <$> l) → StronglySorted Z.gt (g <$> drop_frame f l).
Proof.
  induction l as [|a l IH]; [done|]. rewrite fmap_cons.
  intros [Hall Hs]%StronglySorted_cons. unfold drop_frame.
  destruct (decide (a ≠ f)).
  - rewrite filter_cons_True by done. rewrite fmap_cons.
    apply StronglySorted_cons. split; [|by apply IH].
    rewrite Forall_fmap in *. rewrite Forall_forall in *.
    intros x Hx%list_elem_of_filter. apply Hall. tauto.
  - rewrite filter_cons_False by done. by apply IH.
Qed.

Lemma fmap_ext_elem {A B} (g h : A → B) (l : list A) :
  (∀ x, x ∈ l → g x = h x) → g <$> l = h <$> l.
Proof.
  induction l as [|a l IH]; [done|]. intros Hext.
  rewrite !fmap_cons, Hext, IH; [done| |by left].
  intros x Hx. apply Hext. by right.
Qed.

(** *** Keeping the invariant *)

Lemma data_lookup (m m' : gmap Z LRUKNode) g n' :
  data <$> m' !! g = data <$> m !! g → m' !! g = Some n' →
  ∃ n, m !! g = Some n ∧ fid_ n = fid_ n' ∧ k_ n = k_ n' ∧
       history_ n = history_ n' ∧ is_evictable_ n = is_evictable_ n'.
Proof.
  intros Hd Hn'. rewrite Hn' in Hd. destruct (m !! g) as [n|]; [|done].
  simpl in Hd. injection Hd as H1 H2 H3 H4. exists n. by rewrite H1, H2, H3, H4.
Qed.

Lemma last_access_of_data r r' g :
  data <$> node_store_ r' !! g = data <$> node_store_ r !! g →
  last_access_of r' g = last_access_of r g.
Proof.
  intros Hd. unfold last_access_of.
  destruct (node_store_ r' !! g) as [n'|], (node_store_ r !! g) as [n|];
    simpl in *; try done.
  injection Hd as _ _ Hh _. unfold last_access. by rewrite Hh.
Qed.

Lemma last_access_of_le r hist cache g :
  wf r hist cache → last_access_of r g ≤ current_timestamp_ r.
Proof.
  intros Hwf. unfold last_access_of.
  destruct (node_store_ r !! g) as [n|] eqn:E; simpl.
  - by eapply wf_time.
  - apply (wf_clock _ _ _ Hwf).
Qed.


Lemma elem_of_after p f hist cache g : g ≠ f →
  (g ∈ hist_after p f hist ↔ g ∈ hist) ∧ (g ∈ cache_after p f cache ↔ g ∈ cache).
Proof.
  intros Hne. destruct p; simpl; rewrite ?elem_of_cons, !elem_of_drop_frame; naive_solver.
Qed.

(** An operation that takes one frame off its list, maybe puts it at the
    head of a list with a newer timestamp, and leaves the other nodes' data
    alone keeps the invariant. *)
Lemma wf_step r r' hist cache f p :
  wf r hist cache →
  repr r' (hist_after p f hist) (cache_after p f cache) →
  rk_ r' = rk_ r → replacer_size_ r' = replacer_size_ r →
  current_timestamp_ r ≤ current_timestamp_ r' < SIZE_MOD →
  (∀ g, g ≠ f → data <$> node_store_ r' !! g = data <$> node_store_ r !! g) →
  (∀ n, node_store_ r' !! f = Some n →
     fid_ n = f ∧ k_ n = rk_ r ∧ 0 ≤ f < replacer_size_ r ∧
     last_access n ≤ current_timestamp_ r' ∧
     match p with
     | Unlisted => history_ n = []
     | OnHistory => history_ n ≠ [] ∧ GetSize n < rk_ r ∧
                    current_timestamp_ r < last_access n
     | OnCache => history_ n ≠ [] ∧ rk_ r ≤ GetSize n ∧
                  current_timestamp_ r < last_access n
     end) →
  curr_size_ r' = Z.of_nat (evictable_count (node_store_ r')) →
  wf r' (hist_after p f hist) (cache_after p f cache).
Proof.
  intros Hwf Hrepr Hk Hsz Hts Hdata Hf Hcount.
  assert (∀ g n', node_store_ r' !! g = Some n' → g ≠ f →
            ∃ n, node_store_ r !! g = Some n ∧ fid_ n = fid_ n' ∧ k_ n = k_ n' ∧
                 history_ n = history_ n' ∧ is_evictable_ n = is_evictable_ n') as Hold.
  { intros g n' Hn' Hne. eapply data_lookup; [|done]. by apply Hdata. }
  assert (∀ l, StronglySorted Z.gt (last_access_of r <$> l) →
               StronglySorted Z.gt (last_access_of r' <$> drop_frame f l)) as Hsorted.
  { intros l Hs.
    rewrite (fmap_ext_elem (last_access_of r') (last_access_of r)).
    - by apply sorted_drop_frame.
    - intros g [Hne _]%elem_of_drop_frame. by apply last_access_of_data, Hdata. }
  assert (∀ l, is_Some (node_store_ r' !! f) →
               (∀ n, node_store_ r' !! f = Some n → current_timestamp_ r < last_access n) →
               StronglySorted Z.gt (last_access_of r <$> l) →
               StronglySorted Z.gt (last_access_of r' <$> f :: drop_frame f l)) as Hcons.
  { intros l [n Hn] Hnew Hs. rewrite fmap_cons. apply StronglySorted_cons.
    split; [|by apply Hsorted].
    rewrite Forall_fmap, Forall_forall. intros g [Hne _]%elem_of_drop_frame.
    simpl. rewrite (last_access_of_data r r' g) by by apply Hdata.
    pose proof (last_access_of_le r hist cache g Hwf).
    unfold last_access_of at 1. rewrite Hn. simpl. specialize (Hnew n Hn). lia. }
  assert (p ≠ Unlisted → is_Some (node_store_ r' !! f)) as Htracked.
  { intros Hp. eapply repr_tracked; [done|].
    destruct p; [done| |]; simpl; set_solver. }
  split.
  - done.
  - intros g n' Hn' Hg. destruct (decide (g = f)) as [->|Hne].
    + destruct (Hf n' Hn') as (_ & _ & _ & _ & Hp).
      destruct p; [done| |]; exfalso; apply Hg; simpl; set_solver.
    + destruct (Hold g n' Hn' Hne) as (n & Hn & _ & _ & <- & _).
      eapply wf_unlisted; [done..|].
      destruct (elem_of_after p f hist cache g Hne).
      rewrite elem_of_app in *. tauto.
  - intros g n' Hn' Hg. destruct (decide (g = f)) as [->|Hne].
    + destruct (Hf n' Hn') as (_ & _ & _ & _ & Hp).
      destruct p; [|tauto..].
      exfalso. simpl in Hg. rewrite <- drop_frame_app, elem_of_drop_frame in Hg. tauto.
    + destruct (Hold g n' Hn' Hne) as (n & Hn & _ & _ & <- & _).
      eapply wf_listed; [done..|].
      destruct (elem_of_after p f hist cache g Hne).
      rewrite elem_of_app in *. tauto.
  - intros g n' Hn'. rewrite Hk, Hsz. destruct (decide (g = f)) as [->|Hne].
    + destruct (Hf n' Hn') as (? & ? & ? & _). done.
    + destruct (Hold g n' Hn' Hne) as (n & Hn & <- & <- & _).
      by eapply wf_node.
  - intros g n' Hg Hn'. rewrite Hk. destruct (decide (g = f)) as [->|Hne].
    + destruct (Hf n' Hn') as (_ & _ & _ & _ & Hp).
      destruct p; [| tauto |]; exfalso; simpl in Hg;
        apply elem_of_drop_frame in Hg; tauto.
    + destruct (Hold g n' Hn' Hne) as (n & Hn & _ & _ & Hh & _).
      unfold GetSize. rewrite <- Hh. eapply (wf_hist_size _ _ _ Hwf); [|done].
      by apply (elem_of_after p f hist cache g Hne).
  - intros g n' Hg Hn'. rewrite Hk. destruct (decide (g = f)) as [->|Hne].
    + destruct (Hf n' Hn') as (_ & _ & _ & _ & Hp).
      destruct p; [| | tauto]; exfalso; simpl in Hg;
        apply elem_of_drop_frame in Hg; tauto.
    + destruct (Hold g n' Hn' Hne) as (n & Hn & _ & _ & Hh & _).
      unfold GetSize. rewrite <- Hh. eapply (wf_cache_size _ _ _ Hwf); [|done].
      by apply (elem_of_after p f hist cache g Hne).
  - destruct p; simpl; try (apply Hsorted, Hwf).
    apply Hcons; [by apply Htracked| |apply Hwf].
    intros n Hn. destruct (Hf n Hn) as (_ & _ & _ & _ & Hp). tauto.
  - destruct p; simpl; try (apply Hsorted, Hwf).
    apply Hcons; [by apply Htracked| |apply Hwf].
    intros n Hn. destruct (Hf n Hn) as (_ & _ & _ & _ & Hp). tauto.
  - intros g n' Hn'. destruct (decide (g = f)) as [->|Hne].
    + destruct (Hf n' Hn') as (_ & _ & _ & ? & _). done.
    + destruct (Hold g n' Hn' Hne) as (n & Hn & _ & _ & Hh & _).
      unfold last_access. rewrite <- Hh.
      pose proof (wf_time _ _ _ Hwf g n Hn). unfold last_access in *. lia.
  - pose proof (wf_clock _ _ _ Hwf). lia.
  - done.
  - rewrite Hsz. apply Hwf.
  - rewrite Hk. apply Hwf.
Qed.

Lemma repr_links r r' hist cache :
  repr r hist cache →
  (∀ q, links <$> deref r' q = links <$> deref r q) →
  repr r' hist cache.
Proof.
  intros [Hl Hnd Hun] Hlinks. split; [|done|].
  - eapply linked_ext; [|done]. intros q _. apply Hlinks.
  - intros f n' Hn' Hf. pose proof (Hlinks (FrameNode f)) as Hq. simpl in Hq.
    rewrite Hn' in Hq. destruct (node_store_ r !! f) as [n|] eqn:E; [|done].
    simpl in Hq. injection Hq as -> ->. by eapply Hun.
Qed.

Lemma deref_update_links p g r q :
  (∀ n, links (g n) = links n) →
  links <$> deref (update p g r) q = links <$> deref r q.
Proof.
  intros Hg. rewrite deref_update. case_decide; [|done].
  destruct (deref r q); simpl; [|done]. by rewrite Hg.
Qed.

Lemma lookup_update_frame r f g h :
  node_store_ (update (FrameNode f) h r) !! g =
    if decide (f = g) then h <$> node_store_ r !! g else node_store_ r !! g.
Proof. simpl. rewrite lookup_alter. case_decide; by subst. Qed.

Lemma count_bound r hist cache :
  wf r hist cache → Z.of_nat (evictable_count (node_store_ r)) ≤ 2 ^ 31.
Proof.
  intros Hwf. pose proof (count_le_size (node_store_ r)).
  pose proof (wf_capacity _ _ _ Hwf).
  assert (size (node_store_ r) ≤ Z.to_nat (replacer_size_ r))%nat.
  { apply size_bounded. intros f [n Hn].
    destruct (wf_node _ _ _ Hwf f n Hn) as (_ & _ & ?). lia. }
  lia.
Qed.

Lemma to_size_t_small z : 0 ≤ z < SIZE_MOD → to_size_t z = z.
Proof. intros. unfold to_size_t. by apply Z.mod_small. Qed.

(** [SetEvictable] keeps the invariant and the lists. *)
Lemma wf_SetEvictable r hist cache f b :
  wf r hist cache → wf (SetEvictable f b r) hist cache.
Proof.
  intros Hwf. unfold SetEvictable.
  destruct (node_store_ r !! f) as [n|] eqn:Hn; [|done].
  destruct (negb (eqb (GetEvictable n) b)) eqn:Hflag; [|done].
  assert (is_evictable_ n = negb b) as Hev.
  { unfold GetEvictable in Hflag. by destruct (is_evictable_ n), b. }
  set (r1 := update (FrameNode f) (node_SetEvictable b) r).
  assert (∀ g n', node_store_ r1 !! g = Some n' →
            ∃ n0, node_store_ r !! g = Some n0 ∧ fid_ n0 = fid_ n' ∧
                  k_ n0 = k_ n' ∧ history_ n0 = history_ n') as Hold.
  { intros g n'. subst r1. rewrite lookup_update_frame. case_decide.
    - intros (n0 & Hn0 & ->)%fmap_Some. eauto.
    - eauto. }
  assert (∀ g, last_access_of r1 g = last_access_of r g) as Hla.
  { intros g. unfold last_access_of. subst r1. rewrite lookup_update_frame.
    case_decide; [|done]. by destruct (node_store_ r !! g). }
  assert (evictable_count (node_store_ r1) =
          evictable_count (delete f (node_store_ r)) + b2n b)%nat as Hc1.
  { subst r1. simpl. by rewrite (count_alter _ _ n). }
  pose proof (count_delete _ _ _ Hn) as Hc0. rewrite Hev in Hc0.
  pose proof (count_bound r hist cache Hwf) as Hcb.
  pose proof (wf_count _ _ _ Hwf) as Hcur.
  pose proof (wf_capacity _ _ _ Hwf) as Hcap.
  assert (Z.of_nat (evictable_count (node_store_ r1)) ≤ 2 ^ 31) as Hcb1.
  { pose proof (count_le_size (node_store_ r1)).
    assert (size (node_store_ r1) ≤ Z.to_nat (replacer_size_ r))%nat; [|lia].
    apply size_bounded. intros g [n' Hn'].
    destruct (Hold g n' Hn') as (n0 & Hn0 & _).
    destruct (wf_node _ _ _ Hwf g n0 Hn0) as (_ & _ & ?). lia. }
  split.
  - eapply repr_links; [apply Hwf|]. intros q. simpl.
    change (deref (set_curr_size ?z ?r0) q) with (deref r0 q).
    subst r1. by apply deref_update_links.
  - intros g n' Hn' Hg. destruct (Hold g n' Hn') as (n0 & Hn0 & _ & _ & <-).
    by eapply wf_unlisted.
  - intros g n' Hn' Hg. destruct (Hold g n' Hn') as (n0 & Hn0 & _ & _ & <-).
    by eapply wf_listed.
  - intros g n' Hn'. destruct (Hold g n' Hn') as (n0 & Hn0 & <- & <- & _).
    by eapply (wf_node _ _ _ Hwf).
  - intros g n' Hg Hn'. destruct (Hold g n' Hn') as (n0 & Hn0 & _ & _ & Hh).
    unfold GetSize. rewrite <- Hh. by eapply (wf_hist_size _ _ _ Hwf).
  - intros g n' Hg Hn'. destruct (Hold g n' Hn') as (n0 & Hn0 & _ & _ & Hh).
    unfold GetSize. rewrite <- Hh. by eapply (wf_cache_size _ _ _ Hwf).
  - rewrite (fmap_ext_elem _ (last_access_of r)) by (intros; apply Hla). apply Hwf.
  - rewrite (fmap_ext_elem _ (last_access_of r)) by (intros; apply Hla). apply Hwf.
  - intros g n' Hn'. destruct (Hold g n' Hn') as (n0 & Hn0 & _ & _ & Hh).
    unfold last_access. rewrite <- Hh. by eapply (wf_time _ _ _ Hwf).
  - apply Hwf.
  - simpl. change (node_store_ (update _ _ _)) with (node_store_ r1).
    replace (curr_size_ (update (FrameNode f) (node_SetEvictable b) r))
      with (curr_size_ r) by done.
    rewrite Hcur. unfold SIZE_MOD in *.
    destruct b; simpl in *; rewrite to_size_t_small; unfold SIZE_MOD; lia.
  - apply Hwf.
  - apply Hwf.
Qed.

Lemma repr_ext r r' hist cache :
  repr r hist cache →
  (∀ q, q ∈ chain hist cache → links <$> deref r' q = links <$> deref r q) →
  (∀ g n', node_store_ r' !! g = Some n' → g ∉ hist ++ cache →
           frontptr_ n' = None ∧ backptr_ n' = None) →
  repr r' hist cache.
Proof.
  intros [Hl Hnd Hun] Hlinks Hun'. split; [|done..].
  by eapply linked_ext.
Qed.

Lemma evictable_in_true r f :
  evictable_in r f = true →
  ∃ n, node_store_ r !! f = Some n ∧ is_evictable_ n = true.
Proof.
  unfold evictable_in. destruct (node_store_ r !! f) as [n|]; [|done]. eauto.
Qed.

Lemma DisLink_lookup r f g n :
  node_store_ r !! g = Some n →
  ∃ n1, node_store_ (DisLink (FrameNode f) r) !! g = Some n1 ∧ data n1 = data n.
Proof.
  intros Hn. pose proof (DisLink_data (FrameNode f) r (FrameNode g)) as Hd.
  simpl in Hd. rewrite Hn in Hd.
  destruct (node_store_ (DisLink (FrameNode f) r) !! g) as [n1|]; [|done].
  simpl in Hd. injection Hd as H1 H2 H3 H4. exists n1. split; [done|].
  unfold data. by rewrite H1, H2, H3, H4.
Qed.

Lemma data_fields n n' : data n = data n' →
  fid_ n = fid_ n' ∧ k_ n = k_ n' ∧ history_ n = history_ n' ∧
  is_evictable_ n = is_evictable_ n'.
Proof. unfold data. by intros [= -> -> -> ->]. Qed.

Lemma count_data r r' :
  (∀ g, data <$> node_store_ r' !! g = data <$> node_store_ r !! g) →
  evictable_count (node_store_ r') = evictable_count (node_store_ r).
Proof.
  intros Hd. apply count_flags. intros g. specialize (Hd g).
  destruct (node_store_ r' !! g), (node_store_ r !! g); simpl in *; try done.
  injection Hd as _ _ _ ->. done.
Qed.

(** Evicting an evictable frame: it leaves its list with a clean history. *)
Lemma wf_evict_node r hist cache f :
  wf r hist cache → evictable_in r f = true →
  ∃ r', evict_node (FrameNode f) r = Ok (Some f, r') ∧
        wf r' (drop_frame f hist) (drop_frame f cache) ∧
        (∃ n', node_store_ r' !! f = Some n' ∧ is_evictable_ n' = false ∧
               history_ n' = []).
Proof.
  intros Hwf (n & Hn & Hev)%evictable_in_true.
  destruct (DisLink_lookup r f f n Hn) as (n1 & Hn1 & Hd1).
  destruct (data_fields _ _ Hd1) as (Hfid & Hk1 & Hh1 & Hev1).
  destruct (wf_node _ _ _ Hwf f n Hn) as (Hnf & Hnk & Hrange).
  destruct (DisLink_scalars (FrameNode f) r) as (Hts & Hcs & Hrs & Hrk).
  unfold evict_node. set (r1 := DisLink (FrameNode f) r) in *.
  change (deref r1 (FrameNode f)) with (node_store_ r1 !! f). rewrite Hn1.
  unfold GetFrameID. rewrite Hfid, Hnf.
  eexists. split; [done|].
  set (r2 := update (FrameNode f) (λ n0, CleanHistory (node_SetEvictable false n0)) r1).
  assert (node_store_ r2 !! f = Some (CleanHistory (node_SetEvictable false n1))) as Hn2.
  { subst r2. rewrite lookup_update_frame, decide_True by done. by rewrite Hn1. }
  split; [|eauto].
  apply (wf_step r _ hist cache f Unlisted Hwf).
  - eapply repr_links; [by apply repr_DisLink, Hwf|].
    intros q. change (deref (set_curr_size ?z ?r0) q) with (deref r0 q).
    by apply deref_update_links.
  - done.
  - done.
  - change (current_timestamp_ (set_curr_size _ r2)) with (current_timestamp_ r1).
    rewrite Hts. pose proof (wf_clock _ _ _ Hwf). lia.
  - intros g Hne. change (node_store_ (set_curr_size ?z ?r0)) with (node_store_ r0).
    unfold r2. rewrite lookup_update_frame, decide_False by done.
    apply (DisLink_data (FrameNode f) r (FrameNode g)).
  - intros n' Hn'. change (node_store_ (set_curr_size ?z ?r0)) with (node_store_ r0) in Hn'.
    rewrite Hn2 in Hn'. injection Hn' as <-. simpl.
    rewrite Hfid, Hk1. repeat split; try done; try lia.
    unfold last_access. simpl.
    change (current_timestamp_ (set_curr_size _ r2)) with (current_timestamp_ r1).
    rewrite Hts. apply (wf_clock _ _ _ Hwf).
  - change (node_store_ (set_curr_size ?z ?r0)) with (node_store_ r0).
    change (curr_size_ (set_curr_size ?z ?r0)) with z.
    change (curr_size_ r2) with (curr_size_ r1). rewrite Hcs.
    unfold r2. simpl. rewrite (count_alter _ _ n1) by done. simpl.
    assert (evictable_count (node_store_ r1) = evictable_count (node_store_ r)) as Hc.
    { apply count_data. intros g. apply (DisLink_data (FrameNode f) r (FrameNode g)). }
    pose proof (count_delete _ _ _ Hn1) as Hc1. rewrite Hev1, Hev, Hc in Hc1.
    pose proof (count_bound r hist cache Hwf).
    rewrite (wf_count _ _ _ Hwf). simpl in Hc1.
    rewrite to_size_t_small; unfold SIZE_MOD; lia.
Qed.

Lemma first_evictable_Some r l f :
  first_evictable r l = Some f →
  evictable_in r f = true ∧
  ∃ l1 l2, l = l1 ++ f :: l2 ∧ ∀ g, g ∈ l1 → evictable_in r g = false.
Proof.
  induction l as [|a l IH]; [done|]. simpl.
  destruct (evictable_in r a) eqn:Ea.
  - intros [= <-]. split; [done|]. exists [], l. split; [done|]. by intros g Hg%elem_of_nil.
  - intros (Hf & l1 & l2 & -> & Hl1)%IH. split; [done|].
    exists (a :: l1), l2. split; [done|].
    intros g [->|Hg]%elem_of_cons; [done|]. by apply Hl1.
Qed.

Lemma first_evictable_None r l :
  first_evictable r l = None → ∀ g, g ∈ l → evictable_in r g = false.
Proof.
  induction l as [|a l IH]; [by intros _ g Hg%elem_of_nil|]. simpl.
  destruct (evictable_in r a) eqn:Ea; [done|].
  intros Hl g [->|Hg]%elem_of_cons; [done|]. by apply IH.
Qed.

Lemma wf_Evict r hist cache victim r' :
  wf r hist cache → Evict r = Ok (victim, r') → ∃ hist' cache', wf r' hist' cache'.
Proof.
  intros Hwf. rewrite (Evict_repr r hist cache) by apply Hwf.
  destruct (curr_size_ r =? 0); [intros [= <- <-]; eauto|].
  destruct (first_evictable r (rev hist)) as [f|] eqn:Eh.
  - apply first_evictable_Some in Eh as (Hev & _).
    destruct (wf_evict_node r hist cache f Hwf Hev) as (r1 & -> & Hwf1 & _).
    intros [= <- <-]. eauto.
  - destruct (first_evictable r (rev cache)) as [f|] eqn:Ec.
    + apply first_evictable_Some in Ec as (Hev & _).
      destruct (wf_evict_node r hist cache f Hwf Hev) as (r1 & -> & Hwf1 & _).
      intros [= <- <-]. eauto.
    + intros [= <- <-]. eauto.
Qed.

(** [Remove] drops the frame from its list. *)
Lemma wf_Remove r hist cache f r' :
  wf r hist cache → Remove f r = Ok r' →
  wf r' (drop_frame f hist) (drop_frame f cache).
Proof.
  intros Hwf. unfold Remove.
  destruct (node_store_ r !! f) as [n|] eqn:Hn.
  2:{ intros [= <-].
      assert (f ∉ hist ++ cache) as Hf.
      { intros Hf. destruct (repr_tracked r hist cache f (wf_repr _ _ _ Hwf) Hf) as [n Hn'].
        congruence. }
      apply not_elem_of_app in Hf as [? ?]. by rewrite !drop_frame_notin. }
  unfold GetEvictable. destruct (is_evictable_ n) eqn:Hev; [|done]. simpl.
  intros [= <-].
  destruct (DisLink_lookup r f f n Hn) as (n1 & Hn1 & Hd1).
  destruct (data_fields _ _ Hd1) as (Hfid & Hk1 & Hh1 & Hev1).
  destruct (DisLink_scalars (FrameNode f) r) as (Hts & Hcs & Hrs & Hrk).
  set (r1 := DisLink (FrameNode f) r) in *.
  apply (wf_step r _ hist cache f Unlisted Hwf).
  - eapply (repr_ext r1); [by apply repr_DisLink, Hwf | |].
    + intros q Hq. destruct q; try done. simpl.
      rewrite lookup_delete_ne; [done|]. intros ->.
      apply elem_of_chain in Hq as [?|[?|[?|(g & [= <-] & Hg)]]]; try done.
      rewrite <- drop_frame_app, elem_of_drop_frame in Hg. tauto.
    + intros g n'. simpl. intros Hn' Hg.
      apply lookup_delete_Some in Hn' as [Hne Hn'].
      eapply (repr_unlisted r1); [by apply repr_DisLink, Hwf|done|done].
  - done.
  - done.
  - change (current_timestamp_ (set_curr_size _ _)) with (current_timestamp_ r1).
    rewrite Hts. pose proof (wf_clock _ _ _ Hwf). lia.
  - intros g Hne. simpl. rewrite lookup_delete_ne by done.
    apply (DisLink_data (FrameNode f) r (FrameNode g)).
  - intros n'. simpl. by rewrite lookup_delete_eq.
  - simpl. rewrite Hcs.
    assert (evictable_count (node_store_ r1) = evictable_count (node_store_ r)) as Hc.
    { apply count_data. intros g. apply (DisLink_data (FrameNode f) r (FrameNode g)). }
    pose proof (count_delete _ _ _ Hn1) as Hc1. rewrite Hev1, Hev, Hc in Hc1.
    pose proof (count_bound r hist cache Hwf).
    rewrite (wf_count _ _ _ Hwf). simpl in Hc1.
    rewrite to_size_t_small; unfold SIZE_MOD; lia.
Qed.

Lemma count_split r f :
  evictable_count (node_store_ r) =
    (evictable_count (delete f (node_store_ r)) + b2n (evictable_in r f))%nat.
Proof.
  unfold evictable_in. destruct (node_store_ r !! f) as [n|] eqn:Hn; simpl.
  - by apply count_delete.
  - rewrite delete_id by done. lia.
Qed.


(** The second half of [RecordAccess]: the node holds the new timestamp and
    is moved to the head of the list its size asks for. *)
Lemma wf_access_placed r hist cache f r1 n1 p :
  wf r hist cache →
  repr r1 hist cache →
  node_store_ r1 !! f = Some n1 →
  (∀ g, g ≠ f → node_store_ r1 !! g = node_store_ r !! g) →
  rk_ r1 = rk_ r → replacer_size_ r1 = replacer_size_ r →
  curr_size_ r1 = curr_size_ r →
  current_timestamp_ r1 = current_timestamp_ r + 1 →
  current_timestamp_ r + 1 < SIZE_MOD →
  fid_ n1 = f → k_ n1 = rk_ r → 0 ≤ f < replacer_size_ r →
  history_ n1 ≠ [] → last_access n1 = current_timestamp_ r1 →
  is_evictable_ n1 = evictable_in r f →
  match p with
  | Unlisted => False
  | OnHistory => GetSize n1 < rk_ r
  | OnCache => rk_ r ≤ GetSize n1
  end →
  wf (MoveToEnd (FrameNode f) (end_of p) r1) (hist_after p f hist) (cache_after p f cache).
Proof.
  intros Hwf Hrepr Hn1 Hother Hrk Hrs Hcs Hts Hlim Hfid Hk Hrange Hne Hlast Hev Hp.
  destruct (MoveToEnd_scalars (FrameNode f) (end_of p) r1) as (Hts' & Hcs' & Hrs' & Hrk').
  assert (∀ g, data <$> node_store_ (MoveToEnd (FrameNode f) (end_of p) r1) !! g =
               data <$> node_store_ r1 !! g) as Hdata.
  { intros g. apply (MoveToEnd_data (FrameNode f) (end_of p) r1 (FrameNode g)). }
  set (r' := MoveToEnd (FrameNode f) (end_of p) r1) in *.
  pose proof (wf_clock _ _ _ Hwf) as Hclock.
  apply (wf_step r r' hist cache f p Hwf).
  - destruct p; [done| |]; simpl.
    + apply repr_MoveToEnd_history; [done|eauto].
    + apply repr_MoveToEnd_cache; [done|eauto].
  - congruence.
  - congruence.
  - lia.
  - intros g Hg. rewrite <- Hother by done. apply Hdata.
  - intros n' Hn'. pose proof (Hdata f) as Hd.
    rewrite Hn', Hn1 in Hd. simpl in Hd. apply (inj Some) in Hd.
    destruct (data_fields _ _ Hd) as (Hf1 & Hf2 & Hf3 & Hf4).
    unfold last_access, GetSize in *. rewrite Hf1, Hf2, Hf3.
    split; [done|]. split; [done|]. split; [done|]. split; [lia|].
    destruct p; [done| |]; (split; [done|]; split; [done|lia]).
  - rewrite Hcs', Hcs, (wf_count _ _ _ Hwf). f_equal.
    rewrite (count_data r1 r') by apply Hdata.
    rewrite (count_split r f), (count_split r1 f).
    unfold evictable_in at 2. rewrite Hn1. simpl. rewrite Hev. f_equal. f_equal.
    apply map_eq. intros g. destruct (decide (g = f)) as [->|Hg].
    + by rewrite !lookup_delete_eq.
    + rewrite !lookup_delete_ne by done. symmetry. by apply Hother.
Qed.

Lemma node_RecordAccess_spec ts n :
  2 ≤ k_ n →
  let n' := (node_RecordAccess ts n).1 in
  let dropped := (node_RecordAccess ts n).2 in
  fid_ n' = fid_ n ∧ k_ n' = k_ n ∧ is_evictable_ n' = is_evictable_ n ∧
  links n' = links n ∧ history_ n' ≠ [] ∧ last_access n' = ts ∧
  (dropped = true → k_ n ≤ GetSize n') ∧
  (dropped = false → GetSize n' = GetSize n + 1 ∧ GetSize n' ≤ k_ n).
Proof.
  intros Hk. unfold node_RecordAccess.
  destruct (k_ n <? Z.of_nat (length (history_ n ++ [ts]))) eqn:Hlt; simpl.
  - apply Z.ltb_lt in Hlt. rewrite length_app in Hlt. simpl in Hlt.
    destruct (history_ n) as [|a [|b h]] eqn:Hh; simpl in Hlt; try lia.
    unfold last_access, GetSize. simpl. repeat split; try done.
    + change (List.last ((b :: h) ++ [ts]) 0 = ts). apply last_last.
    + intros _. rewrite length_app. simpl. lia.
  - apply Z.ltb_ge in Hlt. unfold last_access, GetSize. simpl.
    repeat split; try done.
    + by destruct (history_ n).
    + change (List.last (history_ n ++ [ts]) 0 = ts). apply last_last.
    + rewrite length_app. simpl. lia.
Qed.

Lemma Ok_inj {A} (a b : A) : Ok a = Ok b → a = b.
Proof. congruence. Qed.

Lemma valid_frame r f :
  replacer_size_ r ≤ 2 ^ 31 → - 2 ^ 31 ≤ f < 2 ^ 31 →
  (replacer_size_ r <=? to_size_t f) = false → 0 ≤ f < replacer_size_ r.
Proof.
  intros Hcap Hint Hchk%Z.leb_gt. unfold to_size_t, SIZE_MOD in Hchk.
  destruct (decide (0 ≤ f)).
  - rewrite Z.mod_small in Hchk by lia. lia.
  - replace f with (f + 2 ^ 64 - 1 * 2 ^ 64) in Hchk by lia.
    rewrite Zminus_mod, Z_mod_mult, Z.sub_0_r, Z.mod_mod in Hchk by lia.
    rewrite Z.mod_small in Hchk by lia. lia.
Qed.

(** [RecordAccess] keeps the invariant: the frame becomes the head of the
    history list or of the cache list. *)
Lemma wf_RecordAccess r hist cache f r' :
  wf r hist cache → - 2 ^ 31 ≤ f < 2 ^ 31 →
  current_timestamp_ r + 1 < SIZE_MOD →
  RecordAccess f r = Ok r' →
  ∃ p, wf r' (hist_after p f hist) (cache_after p f cache).
Proof.
  intros Hwf Hint Hlim. pose proof (wf_clock _ _ _ Hwf) as Hclock.
  pose proof (wf_k _ _ _ Hwf) as Hk.
  unfold RecordAccess.
  rewrite (to_size_t_small (current_timestamp_ r + 1)) by lia.
  set (ts := current_timestamp_ r + 1).
  set (r0 := set_current_timestamp ts r).
  change (replacer_size_ r0) with (replacer_size_ r).
  change (node_store_ r0) with (node_store_ r).
  change (rk_ r0) with (rk_ r). change (current_timestamp_ r0) with ts.
  destruct (replacer_size_ r <=? to_size_t f) eqn:Hchk; [done|].
  pose proof (valid_frame r f (wf_capacity _ _ _ Hwf) Hint Hchk) as Hrange.
  destruct (node_store_ r !! f) as [n|] eqn:Hn.
  - (* the frame has a node *)
    destruct (wf_node _ _ _ Hwf f n Hn) as (Hfid & Hkn & _).
    pose proof (node_RecordAccess_spec ts n ltac:(lia)) as Hspec.
    destruct (node_RecordAccess ts n) as [n' dropped]. simpl in Hspec.
    destruct Hspec as (Hf' & Hk' & Hev' & Hlinks & Hne & Hlast & Hdrop & Hkeep).
    set (r1 := update (FrameNode f) (λ _, n') r0).
    assert (node_store_ r1 !! f = Some n') as Hn1.
    { subst r1. rewrite lookup_update_frame, decide_True by done.
      change (node_store_ r0) with (node_store_ r). by rewrite Hn. }
    assert (∀ g, g ≠ f → node_store_ r1 !! g = node_store_ r !! g) as Hother.
    { intros g Hg. subst r1. by rewrite lookup_update_frame, decide_False by done. }
    assert (repr r1 hist cache) as Hrepr.
    { eapply repr_links; [apply Hwf|]. intros q. subst r1.
      rewrite deref_update. case_decide; [|done]. subst q.
      change (deref r0 (FrameNode f)) with (node_store_ r !! f).
      simpl. rewrite Hn. simpl. by rewrite Hlinks. }
    assert (∀ p, match p with
                 | Unlisted => False
                 | OnHistory => GetSize n' < rk_ r
                 | OnCache => rk_ r ≤ GetSize n'
                 end →
                 wf (MoveToEnd (FrameNode f) (end_of p) r1)
                    (hist_after p f hist) (cache_after p f cache)) as Hplace.
    { intros p Hp. apply (wf_access_placed r hist cache f r1 n' p); try done.
      - congruence.
      - congruence.
      - unfold evictable_in. rewrite Hn. done. }
    destruct dropped.
    + intros <-%Ok_inj. exists OnCache. apply (Hplace OnCache).
      rewrite <- Hkn. by apply Hdrop.
    + change (rk_ r1) with (rk_ r).
      destruct (GetSize n' <? rk_ r) eqn:Hsz; intros <-%Ok_inj.
      * exists OnHistory. apply (Hplace OnHistory). by apply Z.ltb_lt.
      * exists OnCache. apply (Hplace OnCache). by apply Z.ltb_ge.
  - (* the frame has no node: a node is made *)
    intros <-%Ok_inj. exists OnHistory.
    assert (f ∉ hist ++ cache) as Hf.
    { intros Hf. destruct (repr_tracked r hist cache f (wf_repr _ _ _ Hwf) Hf). congruence. }
    set (n1 := (node_RecordAccess ts (new_LRUKNode f (rk_ r))).1).
    assert (n1 = mkNode f (rk_ r) [ts] false None None) as Hn1eq.
    { subst n1. unfold node_RecordAccess. simpl.
      by rewrite (proj2 (Z.ltb_ge _ _)) by lia. }
    match goal with |- wf (MoveToEnd _ _ ?x) _ _ => set (r1 := x) end.
    assert (node_store_ r1 !! f = Some n1) as Hn1.
    { subst r1. rewrite lookup_update_frame, decide_True by done.
      simpl. by rewrite lookup_insert_eq. }
    assert (∀ g, g ≠ f → node_store_ r1 !! g = node_store_ r !! g) as Hother.
    { intros g Hg. subst r1. rewrite lookup_update_frame, decide_False by done.
      simpl. by rewrite lookup_insert_ne. }
    assert (repr r1 hist cache) as Hrepr.
    { eapply (repr_ext r); [apply Hwf| |].
      - intros q Hq. destruct q; try done.
        change (deref ?x (FrameNode f0)) with (node_store_ x !! f0).
        rewrite Hother; [done|]. intros ->. apply Hf.
        apply elem_of_chain in Hq as [?|[?|[?|(g & [= <-] & Hg)]]]; done.
      - intros g n' Hn' Hg. destruct (decide (g = f)) as [->|Hne].
        + rewrite Hn1 in Hn'. injection Hn' as <-. by rewrite Hn1eq.
        + rewrite Hother in Hn' by done.
          exact (repr_unlisted r hist cache (wf_repr _ _ _ Hwf) g n' Hn' Hg). }
    apply (wf_access_placed r hist cache f r1 n1 OnHistory); try done;
      rewrite ?Hn1eq; try done.
    + unfold evictable_in. by rewrite Hn.
    + unfold GetSize. simpl. lia.
Qed.

(** *** Reachable states *)

Lemma init_node_store_lookup num_frames k f n :
  init_node_store num_frames k !! f = Some n →
  n = new_LRUKNode f k ∧ 0 ≤ f < num_frames.
Proof.
  unfold init_node_store. intros H%elem_of_list_to_map_2.
  apply list_elem_of_fmap in H as (i & [= -> ->] & Hi%elem_of_seq).
  split; [done|]. lia.
Qed.

Lemma count_none m :
  (∀ f n, m !! f = Some n → is_evictable_ n = false) → evictable_count m = 0%nat.
Proof.
  intros Hm. unfold evictable_count.
  replace (filter (λ kv : Z * LRUKNode, is_evictable_ kv.2 = true) m)
    with (∅ : gmap Z LRUKNode); [done|].
  symmetry. apply map_eq. intros f. rewrite lookup_empty.
  apply map_lookup_filter_None. right. intros n Hn. simpl.
  by rewrite (Hm f n Hn).
Qed.

Lemma wf_new num_frames k :
  0 ≤ num_frames ≤ 2 ^ 31 → 2 ≤ k → wf (new_LRUKReplacer num_frames k) [] [].
Proof.
  intros Hn Hk. split; simpl.
  - split.
    + simpl. repeat (eexists; split; [done|]; split; [done|]; split; [done|]). done.
    + constructor.
    + intros f n (-> & _)%init_node_store_lookup _. done.
  - by intros f n (-> & _)%init_node_store_lookup _.
  - by intros f n _ Hf%elem_of_nil.
  - intros f n (-> & ?)%init_node_store_lookup. done.
  - by intros f n Hf%elem_of_nil.
  - by intros f n Hf%elem_of_nil.
  - constructor.
  - constructor.
  - intros f n (-> & ?)%init_node_store_lookup. done.
  - unfold SIZE_MOD. lia.
  - rewrite count_none; [done|]. by intros f n (-> & ?)%init_node_store_lookup.
  - lia.
  - done.
Qed.

Lemma SetEvictable_rk f b r : rk_ (SetEvictable f b r) = rk_ r.
Proof.
  unfold SetEvictable. destruct (node_store_ r !! f); [|done].
  by destruct (negb _).
Qed.

Lemma evict_node_rk p r v r' : evict_node p r = Ok (v, r') → rk_ r' = rk_ r.
Proof.
  unfold evict_node. destruct (deref (DisLink p r) p); [|done].
  intros [= _ <-]. simpl.
  destruct (update_scalars p (λ n, CleanHistory (node_SetEvictable false n)) (DisLink p r))
    as (_ & _ & _ & ->).
  apply DisLink_scalars.
Qed.

Lemma Evict_rk r v r' : Evict r = Ok (v, r') → rk_ r' = rk_ r.
Proof.
  unfold Evict. destruct (curr_size_ r =? 0); [by intros [= _ <-]|].
  destruct (if negb (IsHistoryEmpty r) then _ else _) as [[p|]| | | | |]; simpl; try done.
  { apply evict_node_rk. }
  destruct (if negb (IsBufferEmpty r) then _ else _) as [[p|]| | | | |]; simpl; try done.
  { apply evict_node_rk. }
  by intros [= _ <-].
Qed.

Lemma Remove_rk f r r' : Remove f r = Ok r' → rk_ r' = rk_ r.
Proof.
  unfold Remove. destruct (node_store_ r !! f); [|by intros [= <-]].
  destruct (negb _); [done|]. intros [= <-]. simpl. apply DisLink_scalars.
Qed.

Lemma RecordAccess_rk f r r' : RecordAccess f r = Ok r' → rk_ r' = rk_ r.
Proof.
  unfold RecordAccess. destruct (_ <=? _); [done|].
  cbn [node_store_ set_current_timestamp].
  destruct (node_store_ r !! f) as [n|].
  - destruct (node_RecordAccess _ n) as [n' dropped].
    destruct dropped; [|destruct (_ <? _)]; intros <-%Ok_inj;
      by destruct (MoveToEnd_scalars (FrameNode f) MiddleSeparator
                (update (FrameNode f) (λ _, n')
                   (set_current_timestamp (to_size_t (current_timestamp_ r + 1)) r)))
           as (_ & _ & _ & ->) ||
      by destruct (MoveToEnd_scalars (FrameNode f) HistoryEnd
                (update (FrameNode f) (λ _, n')
                   (set_current_timestamp (to_size_t (current_timestamp_ r + 1)) r)))
           as (_ & _ & _ & ->).
  - intros <-%Ok_inj.
    match goal with |- rk_ (MoveToEnd ?p ?e ?x) = _ =>
      by destruct (MoveToEnd_scalars p e x) as (_ & _ & _ & ->) end.
Qed.

(** Every reachable state is well formed. *)
Lemma reachable_wf num_frames k r :
  0 ≤ num_frames ≤ 2 ^ 31 → 2 ≤ k → reachable num_frames k r →
  rk_ r = k ∧ ∃ hist cache, wf r hist cache.
Proof.
  intros Hn Hk. induction 1 as [|r r' f _ IH Hint Hlim Hacc|r f b _ IH
                                |r r' v _ IH Hev|r r' f _ IH Hrem].
  - split; [done|]. exists [], []. by apply wf_new.
  - destruct IH as (Hrk & hist & cache & Hwf). split.
    + by rewrite (RecordAccess_rk f r r').
    + destruct (wf_RecordAccess r hist cache f r' Hwf Hint Hlim Hacc) as [p Hwf'].
      eauto.
  - destruct IH as (Hrk & hist & cache & Hwf). split.
    + by rewrite SetEvictable_rk.
    + exists hist, cache. by apply wf_SetEvictable.
  - destruct IH as (Hrk & hist & cache & Hwf). split.
    + by rewrite (Evict_rk r v r').
    + by eapply wf_Evict.
  - destruct IH as (Hrk & hist & cache & Hwf). split.
    + by rewrite (Remove_rk f r r').
    + eexists _, _. by eapply wf_Remove.
Qed.

Lemma elem_of_rev {A} (x : A) l : x ∈ rev l ↔ x ∈ l.
Proof. rewrite !list_elem_of_In. symmetry. apply in_rev. Qed.








(** The spec's invariants of the replacer, in every reachable state with
    K >= 2: the size is the number of evictable nodes, and a node is on the
    history list exactly when it has fewer than K accesses (and at least
    one). *)
Theorem reachable_invariants num_frames k r :
  0 ≤ num_frames ≤ 2 ^ 31 → 2 ≤ k → reachable num_frames k r →
  Size r = Z.of_nat (evictable_count (node_store_ r)) ∧
  ∃ hist cache, repr r hist cache ∧
    ∀ f n, node_store_ r !! f = Some n →
      (f ∈ hist ↔ 0 < GetSize n < k) ∧ (f ∈ cache ↔ k ≤ GetSize n).
Proof.
  intros Hn Hk Hreach.
  destruct (reachable_wf num_frames k r Hn Hk Hreach) as (Hrk & hist & cache & Hwf).
  split; [apply Hwf|]. exists hist, cache. split; [apply Hwf|].
  intros f n Hf. subst k.
  assert (history_ n = [] ↔ GetSize n = 0) as Hsz.
  { unfold GetSize. destruct (history_ n); simpl; split; try done; lia. }
  assert (0 ≤ GetSize n) as Hnn by (unfold GetSize; lia).
  pose proof (wf_k _ _ _ Hwf) as Hk2.
  destruct (decide (f ∈ hist)) as [Hh|Hh].
  - pose proof (wf_hist_size _ _ _ Hwf f n Hh Hf) as Hlt.
    pose proof (wf_listed _ _ _ Hwf f n Hf ltac:(set_solver)) as Hne.
    assert (GetSize n ≠ 0) by tauto.
    split; split; intros ?; try done; try lia.
    exfalso. pose proof (wf_repr _ _ _ Hwf) as [_ Hnd _].
    apply NoDup_app in Hnd as (_ & Hdis & _). by eapply Hdis.
  - destruct (decide (f ∈ cache)) as [Hc|Hc].
    + pose proof (wf_cache_size _ _ _ Hwf f n Hc Hf).
      split; split; intros ?; try done; try lia.
    + pose proof (wf_unlisted _ _ _ Hwf f n Hf ltac:(set_solver)) as He.
      apply Hsz in He.
      split; split; intros ?; try done; try lia.
Qed.



(** The spec's scenario E3: K = 2, accesses 1, 2, 3, 1, 2, all evictable:
    Evict gives 3, then 1. *)
Example scenario_E3 :
  (r ← RecordAccesses [1; 2; 3; 1; 2] (new_LRUKReplacer 4 2);
   '(v1, r) ← Evict (SetEvictables [1; 2; 3] r);
   '(v2, r) ← Evict r;
   Ok (v1, v2, Size r)) = Ok (Some 3, Some 1, 1).
Proof. vm_compute. reflexivity. Qed.


End ReplacerFacts.

(** * Properties of the buffer pool manager *)
Module BufferPoolFacts.
Import Replacer BufferPool.

Lemma page_at_update_page s f g p :
  page_at s f = Ok p → page_at (update_page f g s) f = Ok (g p).
Proof.
  unfold page_at. destruct (0 <=? f); [|done].
  destruct (pages_ s !! Z.to_nat f) as [q|] eqn:E; [|done].
  intros [= ->]. simpl. by rewrite list_lookup_alter_eq, E.
Qed.

Lemma SetEvictable_true_evictable r f :
  is_Some (node_store_ r !! f) → evictable_in (SetEvictable f true r) f = true.
Proof.
  intros [n Hn]. unfold SetEvictable, evictable_in. rewrite Hn.
  unfold GetEvictable. destruct (is_evictable_ n) eqn:E; simpl.
  - by rewrite Hn.
  - rewrite lookup_alter_eq, Hn. done.
Qed.

(** *** Pin counts *)

Lemma pin_counts_update_page f g s :
  (∀ p, pin_count_ (g p) = pin_count_ p) →
  pin_counts (update_page f g s) = pin_counts s.
Proof.
  intros Hg. unfold pin_counts, update_page. simpl.
  apply list_eq. intros i. rewrite !list_lookup_fmap, list_lookup_alter.
  case_decide; [|done]. subst. destruct (pages_ s !! Z.to_nat f); simpl; [|done].
  by rewrite Hg.
Qed.

Lemma bind_Ok {A B} (r : result A) (k : A → result B) b :
  r ≫= k = Ok b → ∃ a, r = Ok a ∧ k a = Ok b.
Proof. destruct r; simpl; try done. eauto. Qed.

Lemma touch_pin_counts f s s' : touch f s = Ok s' → pin_counts s' = pin_counts s.
Proof.
  unfold touch. intros (rep & _ & [= <-])%bind_Ok. done.
Qed.

Lemma install_new_pin_counts f s r s' :
  install_new f s = Ok (r, s') → pin_counts s' = pin_counts s.
Proof.
  unfold install_new. simpl. intros (p & _ & [= _ <-])%bind_Ok.
  change (pin_counts (set_page_table ?m ?x)) with (pin_counts x).
  by rewrite pin_counts_update_page.
Qed.

(** The future of the next request: its answer is the first of the answers
    left, which it uses up. *)
Lemma future_get_eq s :
  future_get s = (requests_succeed 1 s, set_answers (drop 1 (answers_ s)) s).
Proof.
  unfold future_get, requests_succeed. destruct s as [? ? ? ? ? ? ? [|b rest]]; simpl.
  - done.
  - by rewrite andb_true_r.
Qed.

Lemma disk_write_eq pid f s :
  disk_write pid f s =
    p ← page_at s f;
    if requests_succeed 1 s
    then Ok (set_disk (<[pid := data_ p]> (disk_ s))
               (set_answers (drop 1 (answers_ s)) s))
    else ExecutionException.
Proof. unfold disk_write. by rewrite future_get_eq. Qed.

Lemma disk_read_eq pid f s :
  disk_read pid f s =
    _ ← page_at s f;
    if requests_succeed 1 s
    then Ok (update_page f (set_data (disk_ s pid))
               (set_answers (drop 1 (answers_ s)) s))
    else ExecutionException.
Proof. unfold disk_read. by rewrite future_get_eq. Qed.

Lemma disk_write_pin_counts pid f s s' :
  disk_write pid f s = Ok s' → pin_counts s' = pin_counts s.
Proof.
  rewrite disk_write_eq. intros (p & _ & H)%bind_Ok.
  destruct (requests_succeed 1 s); [|done]. by injection H as <-.
Qed.

Lemma disk_read_pin_counts pid f s s' :
  disk_read pid f s = Ok s' → pin_counts s' = pin_counts s.
Proof.
  rewrite disk_read_eq. intros (p & _ & H)%bind_Ok.
  destruct (requests_succeed 1 s); [|done]. injection H as <-.
  by rewrite pin_counts_update_page.
Qed.

Lemma erase_found_pin_counts pid s s' :
  erase_found pid s = Ok s' → pin_counts s' = pin_counts s.
Proof. unfold erase_found. destruct (_ !! _); [|done]. by intros [= <-]. Qed.

(** [NewPage] leaves every pin count as it is: the page it returns is as
    pinned as the frame was before. *)
Lemma NewPage_pin_counts s r s' :
  NewPage s = Ok (r, s') → pin_counts s' = pin_counts s.
Proof.
  unfold NewPage. destruct (pop_back (free_list_ s)) as [[f rest]|].
  - intros (s1 & Ht%touch_pin_counts & Hi%install_new_pin_counts)%bind_Ok.
    by rewrite Hi, Ht.
  - destruct (0 <? Size (replacer_ s)); [|by intros [= _ <-]].
    intros ([victim rep] & _ & H)%bind_Ok.
    destruct victim as [f|]; [|done].
    apply bind_Ok in H as (p & _ & H).
    apply bind_Ok in H as (s1 & H1 & H).
    apply bind_Ok in H as (s2 & Ht%touch_pin_counts & Hi%install_new_pin_counts).
    rewrite Hi, Ht.
    destruct (is_dirty_ p).
    + apply bind_Ok in H1 as (s0 & Hw%disk_write_pin_counts & He%erase_found_pin_counts).
      rewrite He, pin_counts_update_page by done. by rewrite Hw.
    + by injection H1 as <-.
Qed.

Lemma install_fetched_pin_counts pid f s r s' :
  install_fetched pid f s = Ok (r, s') → pin_counts s' = pin_counts s.
Proof.
  unfold install_fetched.
  intros (s1 & Hr%disk_read_pin_counts & H)%bind_Ok.
  apply bind_Ok in H as (s2 & Ht%touch_pin_counts & [= _ <-]).
  change (pin_counts (set_page_table ?m ?x)) with (pin_counts x).
  rewrite pin_counts_update_page by done. by rewrite Ht, Hr.
Qed.

(** [FetchPage] leaves every pin count as it is, on a hit and on a miss. *)
Lemma FetchPage_pin_counts pid s r s' :
  FetchPage pid s = Ok (r, s') → pin_counts s' = pin_counts s.
Proof.
  unfold FetchPage. destruct (page_table_ s !! pid); [by intros [= _ <-]|].
  destruct (pop_back (free_list_ s)) as [[f rest]|].
  - by intros Hi%install_fetched_pin_counts.
  - destruct (0 <? Size (replacer_ s)); [|by intros [= _ <-]].
    intros ([victim rep] & _ & H)%bind_Ok.
    destruct victim as [f|]; [|done].
    apply bind_Ok in H as (p & _ & H).
    apply bind_Ok in H as (s1 & He%erase_found_pin_counts & H).
    apply bind_Ok in H as (s2 & H2 & Hi%install_fetched_pin_counts).
    rewrite Hi. destruct (is_dirty_ p).
    + apply bind_Ok in H2 as (s0 & Hw%disk_write_pin_counts & [= <-]).
      rewrite pin_counts_update_page by done. by rewrite Hw, He.
    + injection H2 as <-. by rewrite He.
Qed.

Lemma page_at_pin_count s f p :
  page_at s f = Ok p → pin_count_ p ∈ pin_counts s.
Proof.
  unfold page_at. destruct (0 <=? f); [|done].
  destruct (pages_ s !! Z.to_nat f) as [q|] eqn:E; [|done]. intros [= <-].
  unfold pin_counts. apply list_elem_of_fmap_2. by eapply list_elem_of_lookup_2.
Qed.

Lemma UnpinPage_pin_counts pid d s r s' :
  Forall (λ c, c = 0) (pin_counts s) →
  UnpinPage pid d s = Ok (r, s') → pin_counts s' = pin_counts s.
Proof.
  intros Hz. unfold UnpinPage. destruct (page_table_ s !! pid) as [f|];
    [|by intros [= _ <-]].
  intros (p & Hp & H)%bind_Ok.
  assert (pin_count_ p = 0) as Hpin.
  { rewrite Forall_forall in Hz. by apply Hz, (page_at_pin_count s f). }
  rewrite Hpin, Z.ltb_irrefl in H.
  apply bind_Ok in H as (p' & _ & [= _ <-]).
  destruct (pin_count_ p' =? 0);
    change (pin_counts (set_replacer ?m ?x)) with (pin_counts x);
    destruct (d && negb (is_dirty_ p))%bool; by rewrite ?pin_counts_update_page.
Qed.

Lemma FlushPage_pin_counts pid s r s' :
  FlushPage pid s = Ok (r, s') → pin_counts s' = pin_counts s.
Proof.
  unfold FlushPage. destruct (page_table_ s !! pid) as [f|]; [|by intros [= _ <-]].
  intros (s1 & Hw%disk_write_pin_counts & [= _ <-])%bind_Ok.
  by rewrite pin_counts_update_page.
Qed.

Lemma FlushAllPages_pin_counts s s' :
  FlushAllPages s = Ok s' → pin_counts s' = pin_counts s.
Proof.
  unfold FlushAllPages. generalize (map_to_list (page_table_ s)). intros l.
  revert s'. induction l as [|[pid f] l IH]; intros s'; simpl.
  - by intros [= <-].
  - intros (s1 & H1%IH & H)%bind_Ok.
    apply bind_Ok in H as (s2 & Hw%disk_write_pin_counts & [= <-]).
    rewrite pin_counts_update_page by done. by rewrite Hw.
Qed.

Lemma DeletePage_pin_counts pid s r s' :
  DeletePage pid s = Ok (r, s') → pin_counts s' = pin_counts s.
Proof.
  unfold DeletePage. destruct (page_table_ s !! pid) as [f|]; [|by intros [= _ <-]].
  intros (p & _ & H)%bind_Ok. destruct (0 <? pin_count_ p); [by injection H as _ <-|].
  apply bind_Ok in H as (s1 & He%erase_found_pin_counts & H).
  apply bind_Ok in H as (rep & _ & [= _ <-]).
  by rewrite pin_counts_update_page.
Qed.

(** No call pins a page: in every pool reached from the constructor every
    pin count is 0. *)
Theorem reachable_pool_never_pinned pool_size replacer_k s :
  reachable_pool pool_size replacer_k s → Forall (λ c, c = 0) (pin_counts s).
Proof.
  induction 1 as [disk|s f bytes _ IH|s r s' _ IH H|s pid r s' _ IH H
                  |s pid d r s' _ IH H|s pid r s' _ IH H|s s' _ IH H
                  |s pid r s' _ IH H].
  - unfold pin_counts. simpl. rewrite Forall_fmap. by apply Forall_replicate.
  - by rewrite pin_counts_update_page.
  - by rewrite (NewPage_pin_counts s r s').
  - by rewrite (FetchPage_pin_counts pid s r s').
  - by rewrite (UnpinPage_pin_counts pid d s r s').
  - by rewrite (FlushPage_pin_counts pid s r s').
  - by rewrite (FlushAllPages_pin_counts s s').
  - by rewrite (DeletePage_pin_counts pid s r s').
Qed.

(** Some reachable pools to try things on. *)
Lemma reachable_pool1_new : reachable_pool 1 2 pool1_new.
Proof.
  apply (reach_NewPage 1 2 pool1 (Some (0, 0))); [apply reach_pool_new|].
  vm_compute. reflexivity.
Qed.

Lemma reachable_pool1_unpinned : reachable_pool 1 2 pool1_unpinned.
Proof.
  apply (reach_UnpinPage 1 2 pool1_new 0 false true); [apply reachable_pool1_new|].
  vm_compute. reflexivity.
Qed.

Lemma reachable_pool1_unpinned_dirty : reachable_pool 1 2 pool1_unpinned_dirty.
Proof.
  apply (reach_UnpinPage 1 2 pool1_new 0 true true); [apply reachable_pool1_new|].
  vm_compute. reflexivity.
Qed.

Lemma reachable_pool1_two_pages : reachable_pool 1 2 pool1_two_pages.
Proof.
  apply (reach_NewPage 1 2 pool1_unpinned (Some (1, 0)));
    [apply reachable_pool1_unpinned|].
  vm_compute. reflexivity.
Qed.

Lemma reachable_pool1_stale : reachable_pool 1 2 pool1_stale.
Proof.
  apply (reach_DeletePage 1 2 pool1_two_unpinned 0 true).
  - apply (reach_UnpinPage 1 2 pool1_two_pages 1 false true);
      [apply reachable_pool1_two_pages|].
    vm_compute. reflexivity.
  - vm_compute. reflexivity.
Qed.

Lemma reachable_pool1_written : reachable_pool 1 2 pool1_written.
Proof. apply reach_write, reachable_pool1_new. Qed.

Lemma reachable_pool1_written_unpinned :
  reachable_pool 1 2 pool1_written_unpinned.
Proof.
  apply (reach_UnpinPage 1 2 pool1_written 0 true true);
    [apply reachable_pool1_written|].
  vm_compute. reflexivity.
Qed.

(** A hit of [FetchPage] returns the frame and changes nothing. *)
Lemma FetchPage_resident s page_id frame_id :
  page_table_ s !! page_id = Some frame_id →
  FetchPage page_id s = Ok (Some frame_id, s).
Proof. intros H. unfold FetchPage. by rewrite H. Qed.

(** C2, as the code has it.  For every page_id that is not resident,
    DeletePage(page_id) returns false and leaves the pool unchanged. *)
Theorem DeletePage_not_resident s page_id :
  page_table_ s !! page_id = None → DeletePage page_id s = Ok (false, s).
Proof. intros H. unfold DeletePage. by rewrite H. Qed.

Lemma DeletePage_not_resident_witness :
  page_table_ pool1 !! 7 = None ∧ DeletePage 7 pool1 = Ok (false, pool1).
Proof.
  split; [reflexivity|]. apply (DeletePage_not_resident pool1 7). reflexivity.
Defined.

(** C2 as stated fails: page 7 is not resident in a new pool, and
    DeletePage(7) returns false, not true. *)
Lemma DeletePage_not_resident_counterexample :
  page_table_ pool1 !! 7 = None ∧
  DeletePage 7 pool1 = Ok (false, pool1) ∧ DeletePage 7 pool1 ≠ Ok (true, pool1).
Proof. split; [reflexivity|]. split; [reflexivity|]. discriminate. Qed.

(** What UnpinPage does for a resident page whose pin count is already 0: it
    returns true, the pin count stays 0, and SetEvictable(frame, true) is
    applied to the replacer, after which the replacer has the frame evictable
    if it tracks it. *)
Lemma UnpinPage_unpinned s page_id is_dirty frame_id p :
  page_table_ s !! page_id = Some frame_id →
  page_at s frame_id = Ok p → pin_count_ p = 0 →
  ∃ s' p', UnpinPage page_id is_dirty s = Ok (true, s') ∧
    page_at s' frame_id = Ok p' ∧ pin_count_ p' = 0 ∧
    replacer_ s' = SetEvictable frame_id true (replacer_ s) ∧
    (is_Some (node_store_ (replacer_ s) !! frame_id) →
     evictable_in (replacer_ s') frame_id = true).
Proof.
  intros Hpt Hp Hpin. unfold UnpinPage. rewrite Hpt, Hp. cbn [mbind result_bind].
  rewrite Hpin, Z.ltb_irrefl.
  set (s1 := if (is_dirty && negb (is_dirty_ p))%bool
             then update_page frame_id (set_is_dirty true) s else s).
  assert (∃ p1, page_at s1 frame_id = Ok p1 ∧ pin_count_ p1 = 0 ∧
                replacer_ s1 = replacer_ s) as (p1 & Hp1 & Hpin1 & Hrep).
  { subst s1. destruct (is_dirty && negb (is_dirty_ p))%bool.
    - eexists. split; [by apply page_at_update_page|]. done.
    - eauto. }
  rewrite Hp1. cbn [mbind result_bind]. rewrite Hpin1, Z.eqb_refl.
  eexists _, p1. split; [done|]. split; [done|]. split; [done|].
  split; [by rewrite Hrep|]. simpl. rewrite Hrep. apply SetEvictable_true_evictable.
Qed.

Lemma UnpinPage_unpinned_witness :
  ∃ s' p', UnpinPage 0 false pool1_new = Ok (true, s') ∧
    page_at s' 0 = Ok p' ∧ pin_count_ p' = 0 ∧
    replacer_ s' = SetEvictable 0 true (replacer_ pool1_new) ∧
    (is_Some (node_store_ (replacer_ pool1_new) !! 0) →
     evictable_in (replacer_ s') 0 = true).
Proof.
  apply (UnpinPage_unpinned pool1_new 0 false 0 pool1_new_frame0).
  - vm_compute. reflexivity.
  - vm_compute. reflexivity.
  - vm_compute. reflexivity.
Defined.

(** With a clean victim [NewPage] takes no entry out of the page table: it
    only adds the new page. *)
Lemma NewPage_clean_victim_page_table s f rep p s1 :
  free_list_ s = [] → 0 < Size (replacer_ s) →
  Evict (replacer_ s) = Ok (Some f, rep) →
  page_at s f = Ok p → is_dirty_ p = false →
  touch f (set_replacer rep s) = Ok s1 →
  ∃ s', NewPage s = Ok (Some (next_page_id_ s, f), s') ∧
        page_table_ s' = emplace (next_page_id_ s) f (page_table_ s).
Proof.
  intros Hfree Hsize Hev Hp Hclean Htouch. unfold NewPage.
  rewrite Hfree. simpl pop_back. cbv iota.
  rewrite (proj2 (Z.ltb_lt _ _) Hsize), Hev. cbn [mbind result_bind].
  change (page_at (set_replacer rep s) f) with (page_at s f). rewrite Hp.
  cbn [mbind result_bind]. rewrite Hclean. cbn [mbind result_bind].
  rewrite Htouch. cbn [mbind result_bind].
  unfold touch in Htouch. apply bind_Ok in Htouch as (rep' & _ & [= <-]).
  unfold install_new. cbn [AllocatePage].
  change (page_at (set_next_page_id ?n (set_replacer ?r (set_replacer rep s))) f)
    with (page_at s f).
  rewrite Hp. cbn [mbind result_bind]. eexists. split; [done|]. done.
Qed.

(** The spec's scenario E5: with one frame, FetchPage(1) finds no victim
    while page 0 is not evictable; after UnpinPage(0, true) it succeeds, and
    page 0 has been written to disk. *)
Example scenario_E5 :
  (fst <$> FetchPage 1 pool1_new) = Ok None ∧
  ('(r, s) ← FetchPage 1 pool1_written_unpinned;
   Ok (r, page_table_ s !! 0, page_table_ s !! 1, disk_ s 0))
    = Ok (Some 0, None, Some 0, some_bytes).
Proof. split; vm_compute; reflexivity. Qed.

(** A disk that fails its second request: FetchPage(5) reads page 5 into
    frame 0, and the FlushPage(5) that follows throws. *)
Example failing_disk :
  ('(r, s) ← FetchPage 5 pool1_patchy; Ok (r, data_ <$> page_at s 0))
    = Ok (Some 0, Ok some_bytes) ∧
  FlushPage 5 (pool_of (FetchPage 5 pool1_patchy)) = ExecutionException.
Proof. split; vm_compute; reflexivity. Qed.

(** C1 (the code fails it).  Pool of one frame: NewPage gives page 0 in frame
    0; after UnpinPage(0, false) the next NewPage takes frame 0 from the
    replacer, clean, and gives page 1.  The page table then maps both page 0
    and page 1 to frame 0.  Had the victim been dirty (UnpinPage(0, true)),
    the entry of page 0 would be gone. *)
Theorem NewPage_clean_victim_keeps_old_entry :
  ('(p, s) ← NewPage pool1_unpinned;
   Ok (p, page_table_ s !! 0, page_table_ s !! 1, free_list_ s))
    = Ok (Some (1, 0), Some 0, Some 0, []) ∧
  ('(p, s) ← NewPage pool1_unpinned_dirty;
   Ok (p, page_table_ s !! 0, page_table_ s !! 1, free_list_ s))
    = Ok (Some (1, 0), None, Some 0, []).
Proof. split; vm_compute; reflexivity. Qed.

(** C3 (the code fails it).  Page 0 is resident in frame 0, unpinned and
    evictable.  FetchPage(0) returns frame 0 and changes nothing: the pin
    count is still 0, no access is recorded, the replacer still has the frame
    evictable, and the next NewPage takes the frame away. *)
Theorem FetchPage_hit_changes_nothing :
  page_table_ pool1_unpinned !! 0 = Some 0 ∧
  FetchPage 0 pool1_unpinned = Ok (Some 0, pool1_unpinned) ∧
  (pin_count_ <$> page_at pool1_unpinned 0) = Ok 0 ∧
  evictable_in (replacer_ pool1_unpinned) 0 = true ∧
  (history_ <$> node_store_ (replacer_ pool1_unpinned) !! 0) = Some [1] ∧
  (fst <$> NewPage pool1_unpinned) = Ok (Some (1, 0)).
Proof. repeat split; vm_compute; reflexivity. Qed.

(** C8 (the code fails it).  Pool of one frame: NewPage gives page 0 with pin
    count 0, and DeletePage(0) right after it throws (the replacer refuses to
    remove a frame that is not evictable) instead of returning false.  After
    UnpinPage(0, false), DeletePage(0) returns true. *)
Theorem DeletePage_after_NewPage_throws :
  NewPage pool1 = Ok (Some (0, 0), pool1_new) ∧
  (pin_count_ <$> page_at pool1_new 0) = Ok 0 ∧
  DeletePage 0 pool1_new = ExecutionException ∧
  UnpinPage 0 false pool1_new = Ok (true, pool1_unpinned) ∧
  (fst <$> DeletePage 0 pool1_unpinned) = Ok true.
Proof. repeat split; vm_compute; reflexivity. Qed.

(** C9 (the code fails it).  Pool of one frame after NewPage,
    UnpinPage(0, false), NewPage, UnpinPage(1, false) and DeletePage(0): the
    second NewPage left the entry of page 0 in the page table (the slip of
    C1), so DeletePage(0) took frame 0 out of the replacer while page 1 is
    resident in it, with pin count 0.  UnpinPage(1, d) returns true and the
    pin count stays 0, but no frame is marked evictable: the replacer does
    not track frame 0, SetEvictable does nothing, and Size() stays 0. *)
Theorem UnpinPage_untracked_frame_not_evictable :
  reachable_pool 1 2 pool1_stale ∧
  page_table_ pool1_stale !! 1 = Some 0 ∧
  (pin_count_ <$> page_at pool1_stale 0) = Ok 0 ∧
  node_store_ (replacer_ pool1_stale) !! 0 = None ∧
  ∀ is_dirty, ∃ s',
    UnpinPage 1 is_dirty pool1_stale = Ok (true, s') ∧
    (pin_count_ <$> page_at s' 0) = Ok 0 ∧
    replacer_ s' = replacer_ pool1_stale ∧
    evictable_in (replacer_ s') 0 = false ∧
    Size (replacer_ s') = 0.
Proof.
  split; [apply reachable_pool1_stale|].
  split; [vm_compute; reflexivity|]. split; [vm_compute; reflexivity|].
  split; [vm_compute; reflexivity|].
  intros d. eexists. split.
  - destruct d; vm_compute; reflexivity.
  - destruct d; repeat split; vm_compute; reflexivity.
Qed.

End BufferPoolFacts.

(** * Laws of the trie *)
Module TrieLaws.
Import Trie TrieFacts.
Local Open Scope nat_scope.

(** *** Reading below a node *)

Lemma read_nil h p T :
  read h p T EmptyString = n ← deref h p; Ok (dynamic_cast T n).
Proof. done. Qed.

Lemma read_cons h p T c rest :
  read h p T (String c rest) =
    n ← deref h p;
    match children_ n !! c with
    | Some x => read h x T rest
    | None => Ok None
    end.
Proof.
  unfold read. cbn [walk]. destruct (deref h p) as [n| | | | |]; try done.
  cbn [mbind result_bind]. by destruct (children_ n !! c).
Qed.

Lemma Get_read h p T key :
  key ≠ EmptyString → Get h (Some p) T key = read h p T key.
Proof. by destruct key. Qed.

(** An old node reads the same in every store that extends its own. *)
Lemma read_old h h' p T key :
  closed h → extends h h' → p < length h → read h' p T key = read h p T key.
Proof.
  intros Hc He Hp. unfold read. rewrite (walk_extends h h') by done.
  destruct (walk_closed h key Hc p Hp) as (w & -> & Hw). cbn [mbind result_bind].
  destruct w as [cur|]; [|done]. by rewrite (deref_extends h h' cur) by eauto.
Qed.

Lemma dynamic_cast_value T n v :
  value_ n = Some v → dynamic_cast T n = cast_value T v.
Proof. unfold dynamic_cast, cast_value. by intros ->. Qed.

Lemma dynamic_cast_plain T n : value_ n = None → dynamic_cast T n = None.
Proof. unfold dynamic_cast. by intros ->. Qed.

Lemma dynamic_cast_same_value T n m :
  value_ n = value_ m → dynamic_cast T n = dynamic_cast T m.
Proof. unfold dynamic_cast. by intros ->. Qed.

(** A node without children that holds no value reads as nothing. *)
Lemma read_bare h p n T key :
  h !! p = Some n → children_ n = ∅ → value_ n = None → read h p T key = Ok None.
Proof.
  intros Hn Hch Hv. destruct key as [|c rest].
  - rewrite read_nil, (proj2 (deref_Ok h p n) Hn). cbn.
    by rewrite dynamic_cast_plain.
  - rewrite read_cons, (proj2 (deref_Ok h p n) Hn). cbn.
    by rewrite Hch, lookup_empty.
Qed.

Lemma agree_from_refl q h : agree_from q h h.
Proof. by intros x _. Qed.

Lemma agree_from_mono q q' h h' :
  q ≤ q' → agree_from q h h' → agree_from q' h h'.
Proof. intros Hq Ha x Hx. apply Ha. lia. Qed.

(** The copy [q] of the old node [p] with one edge replaced. *)
Lemma reads_as_parent h0 h q p m on ch s hit :
  closed h0 → h0 !! p = Some on → h !! q = Some m →
  value_ m = value_ on →
  (∀ c, c ≠ ch → children_ m !! c = children_ on !! c) →
  (∀ h', extends h0 h' → agree_from q h h' → ∀ T rest,
     match children_ m !! ch with
     | Some x => read h' x T rest
     | None => Ok None
     end =
     if decide (rest = s) then hit T
     else match children_ on !! ch with
          | Some y => read h0 y T rest
          | None => Ok None
          end) →
  reads_as h0 h q p (String ch s) hit.
Proof.
  intros Hc Hon Hm Hval Hother Hedge h' He Ha T k'.
  pose proof (lookup_lt_Some _ _ _ Hm) as Hq.
  assert (deref h' q = Ok m) as Hdq.
  { apply deref_Ok. rewrite Ha by lia. done. }
  pose proof (proj2 (deref_Ok h0 p on) Hon) as Hdp.
  destruct k' as [|c rest].
  - rewrite decide_False by done. rewrite !read_nil, Hdq, Hdp. cbn.
    by rewrite (dynamic_cast_same_value T m on).
  - rewrite !read_cons, Hdq, Hdp. cbn [mbind result_bind].
    destruct (decide (c = ch)) as [->|Hne].
    + rewrite (Hedge h' He Ha T rest).
      destruct (decide (rest = s)) as [->|Hrs].
      * by rewrite decide_True.
      * rewrite decide_False; [done|]. by intros [= ?].
    + rewrite decide_False by (by intros [= ? ?]).
      rewrite (Hother c Hne).
      destruct (children_ on !! c) as [x|] eqn:Hx; [|done].
      apply read_old; [done..|]. by eapply Hc.
Qed.

Lemma closedb_closed h : closedb h = true → closed h.
Proof.
  intros H p n ch c Hp Hch. unfold closedb in H.
  rewrite forallb_forall in H.
  assert (In n h) as Hin.
  { apply list_elem_of_In. by eapply list_elem_of_lookup_2. }
  specialize (H n Hin). rewrite forallb_forall in H.
  assert (In (ch, c) (map_to_list (children_ n))) as Hin2.
  { apply list_elem_of_In. by apply elem_of_map_to_list. }
  specialize (H _ Hin2). simpl in H. by apply Nat.ltb_lt in H.
Qed.

Lemma closed_one_empty : closed [empty_node].
Proof.
  intros p n ch c Hp Hch. destruct p as [|p]; simpl in Hp.
  - injection Hp as <-. simpl in Hch. by rewrite lookup_empty in Hch.
  - by rewrite lookup_nil in Hp.
Qed.

(** *** What [Get] gives after [Put] and [Remove] *)

(** X1.  After Put(k, v), Get<T>(k) on the new snapshot returns v when T is
    the type of v and "not found" for every other T: a mismatch of the cast
    is reported as a missing key.  This holds for every key, the empty one
    included. *)
Theorem Get_after_Put_at_any_type h t k v T :
  closed h → valid h t →
  ∃ t' h', Put h t k v = Ok (t', h') ∧ Get h' t' T k = Ok (cast_value T v).
Proof.
  intros Hc Hv. unfold Put.
  destruct (clone_root_spec h t Hc Hv) as (n0 & -> & Hc1).
  cbn [mbind result_bind].
  set (h1 := h ++ [n0]) in *.
  assert (length h1 = S (length h)) as Hlen1.
  { subst h1. rewrite length_app. simpl. lia. }
  assert (h1 !! length h = Some n0) as Hroot.
  { subst h1. rewrite lookup_app_r by lia. by rewrite Nat.sub_diag. }
  destruct k as [|ch rest]; cbn [key_empty].
  - set (vn := mkTrieNode ∅ (Some v)).
    destruct (hang_new_child h1 (length h) nul vn n0 Hroot)
      as (Hlen & Hcur & Hnext & Hframe).
    cbn [make_shared]. eexists _, _. split; [done|].
    cbn. unfold deref. rewrite Hcur. cbn. unfold at_. cbn.
    rewrite lookup_insert_eq. cbn. rewrite Hnext. cbn.
    reflexivity.
  - destruct (put_loop_spec (String ch rest) v ltac:(done) t (length h) h1)
      as (h' & -> & Hc' & Hlen' & Hframe' & l & nl & Hwalk & Hl & Hval);
      [done| by eapply valid_mono; [|done]; lia | lia |].
    cbn [mbind result_bind]. eexists _, _. split; [done|].
    unfold Get. rewrite Hwalk. cbn [mbind result_bind key_empty].
    unfold deref. rewrite Hl. cbn [mbind result_bind].
    by rewrite (dynamic_cast_value T nl v).
Qed.

Lemma Get_after_Put_at_any_type_witness :
  ∃ t' h', Put [] None "ab" (VUInt32 7) = Ok (t', h') ∧
           Get h' t' TString "ab" = Ok (cast_value TString (VUInt32 7)).
Proof.
  apply (Get_after_Put_at_any_type [] None "ab" (VUInt32 7) TString).
  - apply closed_nil.
  - exact I.
Defined.

(** X2.  Get fails in one case only.  On a snapshot with a root, Get of the
    empty key throws std::out_of_range when the root has no child for the
    null character; in every other case (a key that is not empty, or a root
    with that child) Get returns, found or not. *)
Theorem Get_throws_only_for_the_empty_key h root n T key :
  closed h → h !! root = Some n →
  (key = EmptyString ∧ children_ n !! nul = None ∧
   Get h (Some root) T key = OutOfRange) ∨
  (¬ (key = EmptyString ∧ children_ n !! nul = None) ∧
   ∃ o, Get h (Some root) T key = Ok o).
Proof.
  intros Hc Hn. pose proof (lookup_lt_Some _ _ _ Hn) as Hlt.
  destruct key as [|c rest].
  - destruct (children_ n !! nul) as [x|] eqn:Hx.
    + right. split; [by intros [_ ?]|].
      cbn [Get walk mbind result_bind key_empty].
      rewrite (proj2 (deref_Ok h root n) Hn). cbn [mbind result_bind].
      unfold at_. rewrite Hx. cbn [mbind result_bind].
      destruct (deref_lt h x) as (m & _ & ->); [by eapply Hc|]. by eexists.
    + left. split; [done|]. split; [done|].
      by apply (Get_empty_key_throws h root n T Hc Hn).
  - right. split; [by intros [? _]|].
    pose proof (Get_nonempty_key_returns h (Some root) T (String c rest) Hc Hlt
                  ltac:(done)) as Hr.
    destruct (Get h (Some root) T (String c rest)); try done. by eexists.
Qed.

Lemma Get_throws_only_for_the_empty_key_witness :
  (EmptyString = EmptyString ∧ children_ empty_node !! nul = None ∧
   Get [empty_node] (Some 0) TUInt32 EmptyString = OutOfRange) ∨
  (¬ (EmptyString = EmptyString ∧ children_ empty_node !! nul = None) ∧
   ∃ o, Get [empty_node] (Some 0) TUInt32 EmptyString = Ok o).
Proof.
  apply (Get_throws_only_for_the_empty_key [empty_node] 0 empty_node TUInt32 "").
  - apply closed_one_empty.
  - reflexivity.
Defined.

(** X3.  Remove on a snapshot with a root returns, for every key, and
    leaves every earlier snapshot as it was: Get on any snapshot of the old
    store gives the same for every key and type. *)
Theorem Remove_returns_and_keeps_snapshots h root key t :
  closed h → root < length h → valid h t →
  ∃ t' h', Remove h (Some root) key = Ok (t', h') ∧
    closed h' ∧ valid h' t' ∧
    ∀ T key', Get h' t T key' = Get h t T key'.
Proof.
  intros Hc Hroot Hv.
  destruct (Remove_spec h root key Hc Hroot) as (t' & h' & HR & Hc' & Hv' & He & _).
  exists t', h'. split; [done|]. split; [done|]. split; [done|].
  intros T key'. by apply Get_extends.
Qed.

Lemma Remove_returns_and_keeps_snapshots_witness :
  ∃ t' h', Remove [empty_node] (Some 0) "a" = Ok (t', h') ∧
    closed h' ∧ valid h' t' ∧
    ∀ T key', Get h' (Some 0) T key' = Get [empty_node] (Some 0) T key'.
Proof.
  apply (Remove_returns_and_keeps_snapshots [empty_node] 0 "a" (Some 0)).
  - apply closed_one_empty.
  - simpl. lia.
  - simpl. lia.
Defined.

(** X4.  The empty key and the key made of the one character NUL name the
    same entry: Put stores the value of the empty key under the root's child
    for the null character, which is where the loops of Get and Put go for
    the key "\0".  After Put("", v), Get("\0") returns v, and after
    Put("\0", v), Get("") returns v. *)
Theorem empty_key_is_the_NUL_key h t v :
  closed h → valid h t →
  (∃ t' h', Put h t EmptyString v = Ok (t', h') ∧
            Get h' t' (type_of v) (String nul EmptyString) = Ok (Some v)) ∧
  (∃ t' h', Put h t (String nul EmptyString) v = Ok (t', h') ∧
            Get h' t' (type_of v) EmptyString = Ok (Some v)).
Proof.
  intros Hc Hv.
  destruct (clone_root_spec h t Hc Hv) as (n0 & Hclone & Hc1).
  set (h1 := h ++ [n0]) in *.
  assert (length h1 = S (length h)) as Hlen1.
  { subst h1. rewrite length_app. simpl. lia. }
  assert (h1 !! length h = Some n0) as Hroot.
  { subst h1. rewrite lookup_app_r by lia. by rewrite Nat.sub_diag. }
  split.
  - unfold Put. rewrite Hclone. cbn [mbind result_bind key_empty make_shared].
    set (vn := mkTrieNode ∅ (Some v)).
    destruct (hang_new_child h1 (length h) nul vn n0 Hroot)
      as (Hlen & Hcur & Hnext & Hframe).
    eexists _, _. split; [done|].
    cbn. unfold deref. rewrite Hcur. cbn. rewrite lookup_insert_eq.
    cbn [mbind result_bind]. rewrite Hnext. cbn [mbind result_bind].
    rewrite (dynamic_cast_value _ vn v) by done.
    unfold cast_value. by rewrite decide_True.
  - destruct (Put_spec h t (String nul EmptyString) v Hc Hv)
      as (t' & h' & HPut & Hc' & Hv' & _ & _ & HGet).
    exists t', h'. split; [done|].
    destruct t' as [r'|]; [|done].
    cbn [Get walk mbind result_bind key_empty] in *.
    destruct (deref h' r') as [nr| | | | |]; try done.
    cbn [mbind result_bind] in *. unfold at_.
    destruct (children_ nr !! nul) as [x|]; [|done].
    cbn [mbind result_bind] in *. done.
Qed.

Lemma empty_key_is_the_NUL_key_witness :
  (∃ t' h', Put [] None EmptyString (VUInt32 1) = Ok (t', h') ∧
            Get h' t' TUInt32 (String nul EmptyString) = Ok (Some (VUInt32 1))) ∧
  (∃ t' h', Put [] None (String nul EmptyString) (VUInt32 1) = Ok (t', h') ∧
            Get h' t' TUInt32 EmptyString = Ok (Some (VUInt32 1))).
Proof.
  apply (empty_key_is_the_NUL_key [] None (VUInt32 1)).
  - apply closed_nil.
  - exact I.
Defined.

(** *** The path of [Remove] *)

Lemma trail_agree r h0 h h1 : length h ≤ length h1 →
  ∀ up ch q p, trail r h0 h ((ch, q) :: up) p →
  (∀ x, x < q → h1 !! x = h !! x) → trail r h0 h1 ((ch, q) :: up) p.
Proof.
  intros Hl. induction up as [|[pch parent] up IH]; intros ch q p Ht Hx.
  - destruct Ht as [Hq ->]. split; [lia|done].
  - destruct Ht as (Hq & Hpq & op & on & Hon & Hch & Hpar & Hup).
    split; [lia|]. split; [done|]. exists op, on.
    split; [done|]. split; [done|]. split; [by rewrite Hx|].
    apply IH; [done|]. intros x Hlt. apply Hx. lia.
Qed.

(** The second loop of [Remove] lays such a path along the key. *)
Lemma clone_path_trail r h0 : closed h0 →
  ∀ key cur new_cur pch up h pn,
  extends h0 h → trail r h0 h ((pch, new_cur) :: up) cur →
  h !! new_cur = h0 !! cur → cur < length h0 →
  walk h0 cur key = Ok (Some pn) →
  ∃ cf qf upf h',
    clone_path key cur new_cur ((pch, new_cur) :: up) h = Ok ((cf, qf) :: upf, h') ∧
    extends h0 h' ∧ length h ≤ length h' ∧
    trail r h0 h' ((cf, qf) :: upf) pn ∧ h' !! qf = h0 !! pn ∧ pn < length h0 ∧
    path_root ((cf, qf) :: upf) = path_root ((pch, new_cur) :: up) ∧
    (∀ s, key_from_root ((cf, qf) :: upf) s =
          key_from_root ((pch, new_cur) :: up) (key +:+ s)) ∧
    length ((cf, qf) :: upf) = length ((pch, new_cur) :: up) + String.length key.
Proof.
  intros Hc0. induction key as [|ch rest IH];
    intros cur new_cur pch up h pn He Ht Hclone Hcur Hwalk.
  - simpl in Hwalk. injection Hwalk as <-.
    exists pch, new_cur, up, h. cbn [clone_path].
    split; [done|]. split; [done|]. split; [done|]. split; [done|].
    split; [done|]. split; [done|]. split; [done|]. split; [done|].
    simpl. lia.
  - simpl in Hwalk. destruct (deref_lt h0 cur Hcur) as (on & Hon & Hd).
    rewrite Hd in Hwalk. cbn [mbind result_bind] in Hwalk.
    destruct (children_ on !! ch) as [c|] eqn:Hch; [|done].
    pose proof (Hc0 _ _ _ _ Hon Hch) as Hlt.
    destruct (deref_lt h0 c Hlt) as (nc & Hnc & Hdc).
    pose proof Ht as Ht'. destruct Ht' as [Hnew _].
    rewrite Hon in Hclone.
    cbn [clone_path]. rewrite (deref_extends h0 h cur), Hd by done.
    cbn [mbind result_bind]. unfold at_. rewrite Hch. cbn [mbind result_bind].
    unfold Clone. rewrite (deref_extends h0 h c), Hdc by done.
    cbn [mbind result_bind make_shared].
    destruct (hang_new_child h new_cur ch nc on Hclone) as (Hlen & Hcur1 & Hnext & Hframe).
    set (h1 := set_child new_cur ch (length h) (h ++ [nc])) in *.
    destruct (IH c (length h) ch ((pch, new_cur) :: up) h1 pn)
      as (cf & qf & upf & h' & Hcp & He' & Hl' & Ht1 & Hq1 & Hpn & Hroot & Hkey & Hlenp);
      try done.
    + apply extends_alter; [|lia]. apply extends_app; [done|lia].
    + split; [lia|]. split; [lia|]. exists cur, on.
      split; [done|]. split; [done|]. split; [done|].
      apply (trail_agree r h0 h h1); [lia|done|].
      intros x Hx. apply Hframe; lia.
    + by rewrite Hnext.
    + exists cf, qf, upf, h'. split; [done|]. split; [done|]. split; [lia|].
      split; [done|]. split; [done|]. split; [done|].
      split; [by rewrite Hroot|]. split.
      * intros s. by rewrite Hkey.
      * rewrite Hlenp. simpl. lia.
Qed.

(** The first turn of the third loop of [Remove], on the copy of the node
    that holds the value: the copy is taken out, or replaced by a node
    without a value. *)
Lemma prune_leaf r h0 : closed h0 →
  ∀ ch q pch parent up h p n,
  extends h0 h → trail r h0 h ((ch, q) :: (pch, parent) :: up) p →
  h !! q = Some n → h0 !! p = Some n → is_value_node_ n = true →
  ∃ op, extends h0 (prune_step 0 ch n parent h) ∧
        length h ≤ length (prune_step 0 ch n parent h) ∧
        trail r h0 (prune_step 0 ch n parent h) ((pch, parent) :: up) op ∧
        reads_as h0 (prune_step 0 ch n parent h) parent op (String ch EmptyString) gone.
Proof.
  intros Hc0 ch q pch parent up h p n He Ht Hq Hp Hval.
  destruct Ht as (Hqb & Hpq & op & on & Hon & Hch & Hpar & Hup).
  pose proof Hup as Hup'. destruct Hup' as [Hparb _].
  exists op. unfold prune_step. rewrite Hval. cbn [Nat.eqb andb].
  destruct (decide (children_ n = ∅)) as [Hempty|Hsome].
  - (* the copy has no children: it is taken out of its parent *)
    assert (erase_child parent ch h !! parent =
            Some (mkTrieNode (delete ch (<[ch := q]> (children_ on))) (value_ on)))
      as Hpar1.
    { unfold erase_child. by rewrite list_lookup_alter_eq, Hpar. }
    assert (length (erase_child parent ch h) = length h) as Hlen.
    { unfold erase_child. by rewrite length_alter. }
    split; [apply extends_alter; [done|lia]|]. split; [lia|]. split.
    + apply (trail_agree r h0 h); [lia|done|].
      intros x Hx. unfold erase_child. rewrite list_lookup_alter_ne; [done|lia].
    + eapply reads_as_parent; [done|exact Hon|exact Hpar1|done| |].
      * intros c Hne. simpl. by rewrite lookup_delete_ne, lookup_insert_ne.
      * intros h' He' Ha T rest. simpl. rewrite lookup_delete_eq, Hch.
        destruct (decide (rest = EmptyString)) as [->|Hrest]; [done|].
        destruct rest as [|c rest]; [done|].
        rewrite read_cons, (proj2 (deref_Ok h0 p n) Hp). cbn [mbind result_bind].
        by rewrite Hempty, lookup_empty.
  - (* it has children: a node without a value takes its place *)
    cbn [make_shared].
    set (plain := mkTrieNode (children_ n) None).
    destruct (hang_new_child h parent ch plain _ Hpar) as (Hlen & Hpar1 & Hnew & Hframe).
    set (h1 := set_child parent ch (length h) (h ++ [plain])) in *.
    split; [apply extends_alter; [|lia]; apply extends_app; [done|lia]|].
    split; [lia|]. split.
    + apply (trail_agree r h0 h); [lia|done|].
      intros x Hx. apply Hframe; lia.
    + eapply reads_as_parent; [done|exact Hon|exact Hpar1|done| |].
      * intros c Hne. simpl. by rewrite !lookup_insert_ne.
      * intros h' He' Ha T rest. simpl. rewrite lookup_insert_eq, Hch.
        assert (h' !! length h = Some plain) as Hplain.
        { rewrite Ha by lia. done. }
        destruct rest as [|c rest].
        -- rewrite decide_True by done.
           rewrite read_nil, (proj2 (deref_Ok h' _ plain) Hplain). done.
        -- rewrite decide_False by done.
           rewrite !read_cons, (proj2 (deref_Ok h' _ plain) Hplain),
             (proj2 (deref_Ok h0 p n) Hp).
           cbn [mbind result_bind]. simpl.
           destruct (children_ n !! c) as [x|] eqn:Hx; [|done].
           apply read_old; [done..|]. by eapply Hc0.
Qed.

(** A later turn of that loop: a copy without children and without a value
    is taken out of its parent, and any other copy is left in place. *)
Lemma prune_inner r h0 : closed h0 →
  ∀ j ch q pch parent up h p n s,
  j ≠ 0 → extends h0 h → trail r h0 h ((ch, q) :: (pch, parent) :: up) p →
  h !! q = Some n → reads_as h0 h q p s gone →
  ∃ op, extends h0 (prune_step j ch n parent h) ∧
        length h ≤ length (prune_step j ch n parent h) ∧
        trail r h0 (prune_step j ch n parent h) ((pch, parent) :: up) op ∧
        reads_as h0 (prune_step j ch n parent h) parent op (String ch s) gone.
Proof.
  intros Hc0 j ch q pch parent up h p n s Hj He Ht Hq Hreads.
  destruct Ht as (Hqb & Hpq & op & on & Hon & Hch & Hpar & Hup).
  pose proof Hup as Hup'. destruct Hup' as [Hparb _].
  exists op. unfold prune_step.
  assert (Nat.eqb j 0 = false) as -> by (by apply Nat.eqb_neq).
  cbn [andb].
  destruct (bool_decide (children_ n = ∅) && negb (is_value_node_ n))%bool eqn:Hbare.
  - apply andb_true_iff in Hbare as [Hempty%bool_decide_eq_true Hplain].
    assert (value_ n = None) as Hnoval.
    { unfold is_value_node_ in Hplain. by destruct (value_ n). }
    assert (erase_child parent ch h !! parent =
            Some (mkTrieNode (delete ch (<[ch := q]> (children_ on))) (value_ on)))
      as Hpar1.
    { unfold erase_child. by rewrite list_lookup_alter_eq, Hpar. }
    assert (length (erase_child parent ch h) = length h) as Hlen.
    { unfold erase_child. by rewrite length_alter. }
    split; [apply extends_alter; [done|lia]|]. split; [lia|]. split.
    + apply (trail_agree r h0 h); [lia|done|].
      intros x Hx. unfold erase_child. rewrite list_lookup_alter_ne; [done|lia].
    + eapply reads_as_parent; [done|exact Hon|exact Hpar1|done| |].
      * intros c Hne. simpl. by rewrite lookup_delete_ne, lookup_insert_ne.
      * intros h' He' Ha T rest. simpl. rewrite lookup_delete_eq, Hch.
        destruct (decide (rest = s)) as [->|Hrest]; [done|].
        pose proof (Hreads h He (agree_from_refl q h) T rest) as Hr.
        rewrite decide_False in Hr by done. rewrite <- Hr.
        symmetry. by eapply read_bare.
  - split; [done|]. split; [done|]. split.
    + apply (trail_agree r h0 h); [lia|done|done].
    + eapply reads_as_parent; [done|exact Hon|exact Hpar|done| |].
      * intros c Hne. simpl. by rewrite lookup_insert_ne.
      * intros h' He' Ha T rest. simpl. rewrite lookup_insert_eq, Hch.
        rewrite (Hreads h' He'); [done|].
        intros x Hx. apply Ha. lia.
Qed.

(** The rest of the third loop, up to the root. *)
Lemma prune_loop_reads r h0 : closed h0 →
  ∀ up ch q j h p s,
  j ≠ 0 → extends h0 h → trail r h0 h ((ch, q) :: up) p →
  reads_as h0 h q p s gone →
  ∃ h', prune_loop j ((ch, q) :: up) h = Ok h' ∧
        extends h0 h' ∧ length h ≤ length h' ∧
        reads_as h0 h' (path_root ((ch, q) :: up)) r
                 (key_from_root ((ch, q) :: up) s) gone.
Proof.
  intros Hc0. induction up as [|[pch parent] up IH];
    intros ch q j h p s Hj He Ht Hreads.
  - destruct Ht as [_ ->]. exists h. by repeat split.
  - pose proof Ht as Ht'. destruct Ht' as [Hqb _].
    destruct (lookup_lt_is_Some_2 h q ltac:(lia)) as [n Hn].
    rewrite prune_loop_cons, (proj2 (deref_Ok h q n) Hn). cbn [mbind result_bind].
    destruct (prune_inner r h0 Hc0 j ch q pch parent up h p n s Hj He Ht Hn Hreads)
      as (op & He1 & Hl1 & Ht1 & Hr1).
    destruct (IH pch parent (S j) _ op (String ch s) ltac:(done) He1 Ht1 Hr1)
      as (h' & -> & He' & Hl' & Hr').
    exists h'. split; [done|]. split; [done|]. split; [lia|]. done.
Qed.

Lemma String_app_empty (s : string) : s +:+ EmptyString = s.
Proof.
  induction s as [|c s IH]; [done|].
  change (String c (s +:+ EmptyString) = String c s). by rewrite IH.
Qed.

(** The copy of the root reads like the root. *)
Lemma read_root_copy h0 h r n b T key :
  closed h0 → extends h0 h → h0 !! r = Some n → h !! b = Some n →
  key ≠ EmptyString → read h b T key = read h0 r T key.
Proof.
  intros Hc0 He Hr Hb Hkey. destruct key as [|c rest]; [done|].
  rewrite !read_cons, (proj2 (deref_Ok h b n) Hb), (proj2 (deref_Ok h0 r n) Hr).
  cbn [mbind result_bind].
  destruct (children_ n !! c) as [x|] eqn:Hx; [|done].
  apply read_old; [done..|]. by eapply Hc0.
Qed.

(** [Remove] of a key that is not empty takes the key out and leaves the
    other keys that are not empty as they are. *)
Lemma Remove_reads h root k :
  closed h → root < length h → k ≠ EmptyString →
  ∃ t' h', Remove h (Some root) k = Ok (t', h') ∧
    (∀ T, Get h' t' T k = Ok None) ∧
    (∀ T k', k' ≠ EmptyString → k' ≠ k →
       Get h' t' T k' = Get h (Some root) T k').
Proof.
  intros Hc Hroot Hk.
  assert (∀ t' h',
    (∀ T k', k' ≠ EmptyString →
       Get h' t' T k' = if decide (k' = k) then Ok None
                        else Get h (Some root) T k') →
    (∀ T, Get h' t' T k = Ok None) ∧
    (∀ T k', k' ≠ EmptyString → k' ≠ k →
       Get h' t' T k' = Get h (Some root) T k')) as Hsplit.
  { intros t' h' H. split.
    - intros T. by rewrite (H T k Hk), decide_True.
    - intros T k' Hk' Hne. by rewrite (H T k' Hk'), decide_False. }
  destruct (deref_lt h root Hroot) as (nr & Hnr & Hdr).
  unfold Remove, clone_root, Clone. rewrite Hdr.
  cbn [mbind result_bind make_shared].
  assert (key_empty k = false) as -> by (by destruct k).
  set (h1 := h ++ [nr]).
  assert (length h1 = S (length h)) as Hlen1.
  { subst h1. rewrite length_app. simpl. lia. }
  assert (h1 !! length h = Some nr) as Hb.
  { subst h1. rewrite lookup_app_r by lia. by rewrite Nat.sub_diag. }
  assert (extends h h1) as He1.
  { apply extends_app; [apply extends_refl|lia]. }
  assert (∀ T k', k' ≠ EmptyString →
            Get h1 (Some (length h)) T k' = Get h (Some root) T k') as Hcopy.
  { intros T k' Hk'. rewrite !Get_read by done. by eapply read_root_copy. }
  rewrite (walk_extends h h1) by done.
  destruct (walk_closed h k Hc root Hroot) as (w & Hw & Hwlt). rewrite Hw.
  cbn [mbind result_bind].
  destruct w as [cur|].
  2:{ (* the key leaves the trie *)
      eexists _, _. split; [done|]. apply Hsplit. intros T k' Hk'.
      rewrite Hcopy by done. destruct (decide (k' = k)) as [->|]; [|done].
      rewrite Get_read by done. unfold read. by rewrite Hw. }
  specialize (Hwlt cur eq_refl).
  destruct (deref_lt h cur Hwlt) as (n & Hn & Hd).
  rewrite (deref_extends h h1 cur), Hd by done. cbn [mbind result_bind].
  destruct (is_value_node_ n) eqn:Hval; cbn [negb].
  2:{ (* the key leads to a node without a value *)
      eexists _, _. split; [done|]. apply Hsplit. intros T k' Hk'.
      rewrite Hcopy by done. destruct (decide (k' = k)) as [->|]; [|done].
      rewrite Get_read by done. unfold read. rewrite Hw.
      cbn [mbind result_bind]. rewrite Hd. cbn [mbind result_bind].
      rewrite dynamic_cast_plain; [done|].
      unfold is_value_node_ in Hval. by destruct (value_ n). }
  (* the key leads to a node with a value *)
  destruct (clone_path_trail root h Hc k root (length h) nul [] h1 cur)
    as (cf & qf & upf & h2 & -> & He2 & Hl2 & Ht2 & Hq2 & _ & Hroot2 & Hkey2 & Hlen2);
    try done.
  { split; [lia|done]. }
  { by rewrite Hb. }
  cbn [mbind result_bind].
  destruct upf as [|[pch parent] up].
  { exfalso. destruct k; [done|]. simpl in Hlen2. lia. }
  rewrite Hn in Hq2.
  rewrite prune_loop_cons, (proj2 (deref_Ok h2 qf n) Hq2). cbn [mbind result_bind].
  destruct (prune_leaf root h Hc cf qf pch parent up h2 cur n He2 Ht2 Hq2 Hn Hval)
    as (op & He3 & Hl3 & Ht3 & Hr3).
  destruct (prune_loop_reads root h Hc up pch parent 1 _ op (String cf EmptyString)
              ltac:(done) He3 Ht3 Hr3) as (h4 & -> & He4 & Hl4 & Hr4).
  cbn [mbind result_bind].
  assert (path_root ((pch, parent) :: up) = length h) as Hroot4.
  { exact Hroot2. }
  assert (key_from_root ((pch, parent) :: up) (String cf EmptyString) = k) as Hkey4.
  { pose proof (Hkey2 EmptyString) as Hx.
    rewrite String_app_empty in Hx. exact Hx. }
  rewrite Hroot4, Hkey4 in Hr4.
  destruct (deref_lt h4 (length h) ltac:(lia)) as (nr4 & Hnr4 & ->).
  cbn [mbind result_bind].
  assert (∀ T k', k' ≠ EmptyString →
            read h4 (length h) T k' = if decide (k' = k) then Ok None
                                      else Get h (Some root) T k') as Hfin.
  { intros T k' Hk'. rewrite (Hr4 h4 He4 (agree_from_refl _ _) T k').
    destruct (decide (k' = k)); [done|]. by rewrite Get_read. }
  destruct (decide (children_ nr4 = ∅)) as [Hempty|Hsome].
  - (* nothing is left below the root: the empty trie *)
    eexists _, _. split; [done|]. apply Hsplit. intros T k' Hk'.
    rewrite <- (Hfin T k' Hk'). cbn [Get].
    destruct k' as [|c rest]; [done|].
    rewrite read_cons, (proj2 (deref_Ok h4 _ nr4) Hnr4). cbn [mbind result_bind].
    by rewrite Hempty, lookup_empty.
  - eexists _, _. split; [done|]. apply Hsplit. intros T k' Hk'.
    rewrite Get_read by done. by apply Hfin.
Qed.

(** X5.  Remove does what it is for, on every key that is not empty.  On a
    snapshot with a root, Remove(k) returns a snapshot on which Get(k) is
    "not found" for every type, and on which Get of every other key that is
    not empty returns what it returned on the old snapshot. *)
Theorem Get_after_Remove h root k :
  closed h → root < length h → k ≠ EmptyString →
  ∃ t' h', Remove h (Some root) k = Ok (t', h') ∧
    (∀ T, Get h' t' T k = Ok None) ∧
    (∀ T k', k' ≠ EmptyString → k' ≠ k →
       Get h' t' T k' = Get h (Some root) T k').
Proof. apply Remove_reads. Qed.

Lemma Get_after_Remove_witness :
  ∃ t' h', Remove (store_of trie_b_bc) (Some 2) "b" = Ok (t', h') ∧
    (∀ T, Get h' t' T "b" = Ok None) ∧
    (∀ T k', k' ≠ EmptyString → k' ≠ "b"%string →
       Get h' t' T k' = Get (store_of trie_b_bc) (Some 2) T k').
Proof.
  apply (Get_after_Remove (store_of trie_b_bc) 2 "b").
  - apply closedb_closed. vm_compute. reflexivity.
  - vm_compute. lia.
  - discriminate.
Defined.

(** *** The loop of [Put] *)

Lemma find_child_extends h0 h cur ch :
  valid h0 cur → extends h0 h → find_child h cur ch = find_child h0 cur ch.
Proof.
  intros Hv He. destruct cur as [c|]; [|done]. simpl in *.
  by rewrite (deref_extends h0 h c).
Qed.

(** While no character of the key is found below [cur], the loop hangs a
    chain of new nodes under [new_cur], the last one holding the value. *)
Lemma put_miss h0 v : closed h0 →
  ∀ key cur new_cur h, key ≠ EmptyString →
  valid h0 cur → all_miss h0 cur key → extends h0 h →
  length h0 ≤ new_cur → h !! new_cur = Some empty_node →
  ∃ h', put_loop key v cur new_cur h = Ok h' ∧
    extends h0 h' ∧ length h ≤ length h' ∧
    (∀ x, x < length h → x ≠ new_cur → h' !! x = h !! x) ∧
    ∀ h'', agree_from new_cur h' h'' → ∀ T k',
      read h'' new_cur T k' =
        if decide (k' = key) then Ok (cast_value T v) else Ok None.
Proof.
  intros Hc0. induction key as [|ch rest IH]; [done|].
  intros cur new_cur h _ Hv [Hmiss Hrest] He Hnew Hm.
  pose proof (lookup_lt_Some _ _ _ Hm) as Hlt.
  cbn [put_loop]. rewrite (find_child_extends h0 h cur ch Hv He), Hmiss.
  cbn [mbind result_bind].
  destruct rest as [|ch2 rest2].
  - cbn [make_shared].
    set (vn := mkTrieNode ∅ (Some v)).
    destruct (hang_new_child h new_cur ch vn _ Hm) as (Hlen & Hcur & Hnext & Hframe).
    set (h1 := set_child new_cur ch (length h) (h ++ [vn])) in *.
    exists h1. split; [done|].
    split; [apply extends_alter; [|lia]; apply extends_app; [done|lia]|].
    split; [lia|]. split; [done|].
    intros h'' Ha T k'.
    assert (deref h'' new_cur =
            Ok (mkTrieNode (<[ch := length h]> (children_ empty_node)) (value_ empty_node)))
      as Hd.
    { apply deref_Ok. rewrite Ha by lia. done. }
    assert (deref h'' (length h) = Ok vn) as Hdn.
    { apply deref_Ok. rewrite Ha by lia. done. }
    destruct k' as [|c r].
    + rewrite decide_False by done. by rewrite read_nil, Hd.
    + rewrite read_cons, Hd. cbn [mbind result_bind children_]. simpl.
      destruct (decide (c = ch)) as [->|Hne].
      * rewrite lookup_insert_eq. destruct r as [|c2 r2].
        -- rewrite decide_True by done. by rewrite read_nil, Hdn.
        -- rewrite decide_False by done.
           rewrite read_cons, Hdn. cbn. by rewrite lookup_empty.
      * rewrite lookup_insert_ne, lookup_empty by done.
        rewrite decide_False; [done|]. by intros [= ? ?].
  - set (rest := String ch2 rest2) in *.
    cbn [make_shared].
    destruct (hang_new_child h new_cur ch empty_node _ Hm)
      as (Hlen & Hcur & Hnext & Hframe).
    set (h1 := set_child new_cur ch (length h) (h ++ [empty_node])) in *.
    destruct (IH cur (length h) h1 ltac:(done) Hv Hrest)
      as (h' & -> & He' & Hl' & Hframe' & Hreads); [|lia|done|].
    { apply extends_alter; [|lia]. apply extends_app; [done|lia]. }
    exists h'. split; [done|]. split; [done|]. split; [lia|]. split.
    { intros x Hx Hne. rewrite Hframe' by lia. by apply Hframe. }
    intros h'' Ha T k'.
    assert (deref h'' new_cur =
            Ok (mkTrieNode (<[ch := length h]> (children_ empty_node)) (value_ empty_node)))
      as Hd.
    { apply deref_Ok. rewrite Ha by lia. rewrite Hframe' by lia. done. }
    destruct k' as [|c r].
    + rewrite decide_False by done. by rewrite read_nil, Hd.
    + rewrite read_cons, Hd. cbn [mbind result_bind children_]. simpl.
      destruct (decide (c = ch)) as [->|Hne].
      * rewrite lookup_insert_eq.
        rewrite (Hreads h'' (agree_from_mono new_cur (length h) h' h'' ltac:(lia) Ha)).
        destruct (decide (r = rest)) as [->|Hr].
        -- by rewrite decide_True.
        -- rewrite decide_False; [done|]. by intros [= ?].
      * rewrite lookup_insert_ne, lookup_empty by done.
        rewrite decide_False; [done|]. by intros [= ? ?].
Qed.

(** While the characters of the key are found, the loop copies the nodes
    along the key; at the first one that is missing it goes on as above. *)
Lemma put_hit h0 v : closed h0 →
  ∀ key p new_cur h on, key ≠ EmptyString →
  put_safe h0 (Some p) key → h0 !! p = Some on → extends h0 h →
  length h0 ≤ new_cur → h !! new_cur = Some on →
  ∃ h', put_loop key v (Some p) new_cur h = Ok h' ∧
    extends h0 h' ∧ length h ≤ length h' ∧
    (∀ x, x < length h → x ≠ new_cur → h' !! x = h !! x) ∧
    reads_as h0 h' new_cur p key (λ T, Ok (cast_value T v)).
Proof.
  intros Hc0. induction key as [|ch rest IH]; [done|].
  intros p new_cur h on _ Hsafe Hon He Hnew Hm.
  pose proof (lookup_lt_Some _ _ _ Hm) as Hlt.
  pose proof (lookup_lt_Some _ _ _ Hon) as Hp.
  assert (find_child h0 (Some p) ch = Ok (children_ on !! ch)) as Hfind.
  { simpl. by rewrite (proj2 (deref_Ok h0 p on) Hon). }
  cbn [put_safe] in Hsafe. rewrite Hfind in Hsafe.
  cbn [put_loop]. rewrite (find_child_extends h0 h (Some p) ch Hp He), Hfind.
  cbn [mbind result_bind].
  assert (∀ (h1 h' : store) (nx : TrieNode),
            h1 = set_child new_cur ch (length h) (h ++ [nx]) →
            (∀ x, x < length h1 → x ≠ length h → h' !! x = h1 !! x) →
            h' !! new_cur =
              Some (mkTrieNode (<[ch := length h]> (children_ on)) (value_ on)))
    as Hparent.
  { intros h1 h' nx -> Hfr.
    destruct (hang_new_child h new_cur ch nx _ Hm) as (Hlen & Hcur & _ & _).
    rewrite Hfr by lia. done. }
  destruct rest as [|ch2 rest2].
  - (* the last character *)
    assert (∃ vn, (match children_ on !! ch with
                   | Some c =>
                       n ← deref h c;
                       let '(next_cur, h) :=
                         make_shared (mkTrieNode (children_ n) (Some v)) h in
                       Ok (set_child new_cur ch next_cur h)
                   | None =>
                       let '(next_cur, h) :=
                         make_shared (mkTrieNode ∅ (Some v)) h in
                       Ok (set_child new_cur ch next_cur h)
                   end) = Ok (set_child new_cur ch (length h) (h ++ [vn])) ∧
                  value_ vn = Some v ∧
                  match children_ on !! ch with
                  | Some c => ∃ nc, h0 !! c = Some nc ∧ children_ vn = children_ nc
                  | None => children_ vn = ∅
                  end) as (vn & -> & Hvn & Hkids).
    { destruct (children_ on !! ch) as [c|] eqn:Hch.
      - pose proof (Hc0 _ _ _ _ Hon Hch) as Hcl.
        destruct (deref_lt h0 c Hcl) as (nc & Hnc & Hdc).
        rewrite (deref_extends h0 h c), Hdc by done.
        eexists. split; [done|]. split; [done|]. by exists nc.
      - eexists. by split. }
    destruct (hang_new_child h new_cur ch vn _ Hm) as (Hlen & Hcur & Hnext & Hframe).
    set (h1 := set_child new_cur ch (length h) (h ++ [vn])) in *.
    exists h1. split; [done|].
    split; [apply extends_alter; [|lia]; apply extends_app; [done|lia]|].
    split; [lia|]. split; [done|].
    eapply reads_as_parent; [done|exact Hon|exact Hcur|done| |].
    + intros c Hne. simpl. by rewrite lookup_insert_ne.
    + intros h'' He'' Ha T r. simpl. rewrite lookup_insert_eq.
      assert (deref h'' (length h) = Ok vn) as Hdn.
      { apply deref_Ok. rewrite Ha by lia. done. }
      destruct r as [|c2 r2].
      * rewrite decide_True by done. rewrite read_nil, Hdn. cbn.
        by rewrite (dynamic_cast_value T vn v).
      * rewrite decide_False by done. rewrite read_cons, Hdn.
        cbn [mbind result_bind].
        destruct (children_ on !! ch) as [c|] eqn:Hch.
        -- destruct Hkids as (nc & Hnc & ->).
           rewrite read_cons, (proj2 (deref_Ok h0 c nc) Hnc).
           cbn [mbind result_bind].
           destruct (children_ nc !! c2) as [x|] eqn:Hx; [|done].
           apply read_old; [done..|]. by eapply Hc0.
        -- by rewrite Hkids, lookup_empty.
  - (* an inner character *)
    set (rest := String ch2 rest2) in *.
    destruct (children_ on !! ch) as [c|] eqn:Hch.
    + pose proof (Hc0 _ _ _ _ Hon Hch) as Hcl.
      destruct (deref_lt h0 c Hcl) as (nc & Hnc & Hdc).
      unfold Clone. rewrite (deref_extends h0 h c), Hdc by done.
      cbn [mbind result_bind make_shared].
      destruct (hang_new_child h new_cur ch nc _ Hm) as (Hlen & Hcur & Hnext & Hframe).
      set (h1 := set_child new_cur ch (length h) (h ++ [nc])) in *.
      destruct (IH c (length h) h1 nc ltac:(done) Hsafe Hnc)
        as (h' & -> & He' & Hl' & Hframe' & Hreads); [|lia|done|].
      { apply extends_alter; [|lia]. apply extends_app; [done|lia]. }
      exists h'. split; [done|]. split; [done|]. split; [lia|]. split.
      { intros x Hx Hne. rewrite Hframe' by lia. by apply Hframe. }
      eapply (reads_as_parent h0 h' new_cur p
                (mkTrieNode (<[ch := length h]> (children_ on)) (value_ on)) on);
        [done|exact Hon| |done| |].
      * by apply (Hparent h1 h' nc).
      * intros c0 Hne. simpl. by rewrite lookup_insert_ne.
      * intros h'' He'' Ha T r. simpl. rewrite lookup_insert_eq, Hch.
        apply (Hreads h'' He''). eapply agree_from_mono; [|done]. lia.
    + cbn [make_shared].
      destruct (hang_new_child h new_cur ch empty_node _ Hm)
        as (Hlen & Hcur & Hnext & Hframe).
      set (h1 := set_child new_cur ch (length h) (h ++ [empty_node])) in *.
      destruct (put_miss h0 v Hc0 rest (Some p) (length h) h1 ltac:(done) Hp Hsafe)
        as (h' & -> & He' & Hl' & Hframe' & Hreads); [|lia|done|].
      { apply extends_alter; [|lia]. apply extends_app; [done|lia]. }
      exists h'. split; [done|]. split; [done|]. split; [lia|]. split.
      { intros x Hx Hne. rewrite Hframe' by lia. by apply Hframe. }
      eapply (reads_as_parent h0 h' new_cur p
                (mkTrieNode (<[ch := length h]> (children_ on)) (value_ on)) on);
        [done|exact Hon| |done| |].
      * by apply (Hparent h1 h' empty_node).
      * intros c0 Hne. simpl. by rewrite lookup_insert_ne.
      * intros h'' He'' Ha T r. simpl. rewrite lookup_insert_eq, Hch.
        apply (Hreads h''). eapply agree_from_mono; [|done]. lia.
Qed.

(** [Put] with a key on which its stale [cur] does no harm. *)
Lemma Put_reads h t k v :
  closed h → valid h t → k ≠ EmptyString → put_safe h t k →
  ∃ t' h', Put h t k v = Ok (t', h') ∧
    (∀ T, Get h' t' T k = Ok (cast_value T v)) ∧
    (∀ T k', k' ≠ EmptyString → k' ≠ k → Get h' t' T k' = Get h t T k').
Proof.
  intros Hc Hv Hk Hsafe. unfold Put.
  assert (key_empty k = false) as Hke by (by destruct k).
  destruct t as [root|]; cbn [clone_root].
  - simpl in Hv. destruct (deref_lt h root Hv) as (nr & Hnr & Hdr).
    unfold Clone. rewrite Hdr. cbn [mbind result_bind make_shared]. rewrite Hke.
    set (h1 := h ++ [nr]).
    assert (h1 !! length h = Some nr) as Hb.
    { subst h1. rewrite lookup_app_r by lia. by rewrite Nat.sub_diag. }
    destruct (put_hit h v Hc k root (length h) h1 nr Hk Hsafe Hnr)
      as (h' & -> & He' & Hl' & _ & Hreads); [|lia|done|].
    { apply extends_app; [apply extends_refl|lia]. }
    cbn [mbind result_bind]. eexists _, _. split; [done|]. split.
    + intros T. rewrite Get_read by done.
      rewrite (Hreads h' He' (agree_from_refl _ _)). by rewrite decide_True.
    + intros T k' Hk' Hne. rewrite !Get_read by done.
      rewrite (Hreads h' He' (agree_from_refl _ _)). by rewrite decide_False.
  - cbn [mbind result_bind make_shared]. rewrite Hke.
    set (h1 := h ++ [empty_node]).
    assert (h1 !! length h = Some empty_node) as Hb.
    { subst h1. rewrite lookup_app_r by lia. by rewrite Nat.sub_diag. }
    assert (all_miss h None k) as Hmiss.
    { clear. induction k; by split. }
    destruct (put_miss h v Hc k None (length h) h1 Hk I Hmiss)
      as (h' & -> & He' & Hl' & _ & Hreads); [|lia|done|].
    { apply extends_app; [apply extends_refl|lia]. }
    cbn [mbind result_bind]. eexists _, _. split; [done|]. split.
    + intros T. rewrite Get_read by done.
      rewrite (Hreads h' (agree_from_refl _ _)). by rewrite decide_True.
    + intros T k' Hk' Hne. rewrite Get_read by done.
      rewrite (Hreads h' (agree_from_refl _ _)). by rewrite decide_False.
Qed.

(** X6.  When Put changes nothing but its key.  If, along the key, no
    character is found below the node at which an earlier character of the
    key was missing ([put_safe]: so for every key whose node is in the trie
    already, and for every key on the empty trie), then Put(k, v) returns a
    snapshot on which Get(k) gives v and Get of every other key that is not
    empty returns what it returned on the old snapshot. *)
Theorem Put_changes_its_key_only h t k v :
  closed h → valid h t → k ≠ EmptyString → put_safe h t k →
  ∃ t' h', Put h t k v = Ok (t', h') ∧
    (∀ T, Get h' t' T k = Ok (cast_value T v)) ∧
    (∀ T k', k' ≠ EmptyString → k' ≠ k → Get h' t' T k' = Get h t T k').
Proof. apply Put_reads. Qed.

Lemma Put_changes_its_key_only_witness :
  ∃ t' h', Put (store_of trie_b_bc) (Some 2) "bc" (VUInt32 9) = Ok (t', h') ∧
    (∀ T, Get h' t' T "bc" = Ok (cast_value T (VUInt32 9))) ∧
    (∀ T k', k' ≠ EmptyString → k' ≠ "bc"%string →
       Get h' t' T k' = Get (store_of trie_b_bc) (Some 2) T k').
Proof.
  apply (Put_changes_its_key_only (store_of trie_b_bc) (Some 2) "bc" (VUInt32 9)).
  - apply closedb_closed. vm_compute. reflexivity.
  - vm_compute. lia.
  - discriminate.
  - vm_compute. exact I.
Defined.


(** X7.  Put followed by Remove of the same key gives the old trie back, as
    far as Get can tell, on the keys where Put is sound: for a key k that is
    not empty and on which the stale [cur] of Put does no harm, the snapshot
    S.Put(k, v).Remove(k) has no k and agrees with S on every other key that
    is not empty. *)
Theorem Put_then_Remove_restores h t k v :
  closed h → valid h t → k ≠ EmptyString → put_safe h t k →
  ∃ t1 h1 t2 h2, Put h t k v = Ok (t1, h1) ∧ Remove h1 t1 k = Ok (t2, h2) ∧
    (∀ T, Get h2 t2 T k = Ok None) ∧
    (∀ T k', k' ≠ EmptyString → k' ≠ k → Get h2 t2 T k' = Get h t T k').
Proof.
  intros Hc Hv Hk Hsafe.
  destruct (Put_reads h t k v Hc Hv Hk Hsafe) as (t1 & h1 & HPut & _ & Hother).
  destruct (Put_spec h t k v Hc Hv) as (t1' & h1' & HPut' & Hc1 & Hv1 & _ & _ & HGet).
  rewrite HPut in HPut'. injection HPut' as <- <-.
  destruct t1 as [r1|].
  2:{ simpl in HGet. discriminate. }
  simpl in Hv1.
  destruct (Remove_reads h1 r1 k Hc1 Hv1 Hk) as (t2 & h2 & HRem & Hgone & Hkeep).
  exists (Some r1), h1, t2, h2. split; [done|]. split; [done|]. split; [done|].
  intros T k' Hk' Hne. rewrite (Hkeep T k' Hk' Hne). by apply Hother.
Qed.

Lemma Put_then_Remove_restores_witness :
  ∃ t1 h1 t2 h2,
    Put (store_of trie_b_bc) (Some 2) "bx" (VUInt32 9) = Ok (t1, h1) ∧
    Remove h1 t1 "bx" = Ok (t2, h2) ∧
    (∀ T, Get h2 t2 T "bx" = Ok None) ∧
    (∀ T k', k' ≠ EmptyString → k' ≠ "bx"%string →
       Get h2 t2 T k' = Get (store_of trie_b_bc) (Some 2) T k').
Proof.
  apply (Put_then_Remove_restores (store_of trie_b_bc) (Some 2) "bx" (VUInt32 9)).
  - apply closedb_closed. vm_compute. reflexivity.
  - vm_compute. lia.
  - discriminate.
  - vm_compute. exact I.
Defined.

End TrieLaws.

(** * Laws of the replacer *)
Module ReplacerLaws.
Import Replacer ReplacerFacts.

(** *** What no operation changes *)

Lemma fixed_data r r' :
  replacer_size_ r' = replacer_size_ r →
  (∀ q, data <$> deref r' q = data <$> deref r q) →
  fixed r' = fixed r.
Proof.
  intros Hs Hd. unfold fixed. rewrite Hs.
  pose proof (Hd HistoryEnd) as H1. pose proof (Hd MiddleSeparator) as H2.
  pose proof (Hd BufferStart) as H3.
  apply (inj Some) in H1. apply (inj Some) in H2. apply (inj Some) in H3.
  by rewrite H1, H2, H3.
Qed.

Lemma DisLink_fixed p r : fixed (DisLink p r) = fixed r.
Proof.
  apply fixed_data; [apply DisLink_scalars|]. apply DisLink_data.
Qed.

Lemma MoveToEnd_fixed p e r : fixed (MoveToEnd p e r) = fixed r.
Proof.
  apply fixed_data; [apply MoveToEnd_scalars|]. apply MoveToEnd_data.
Qed.

Lemma SetEvictable_fixed f b r : fixed (SetEvictable f b r) = fixed r.
Proof.
  unfold SetEvictable. destruct (node_store_ r !! f); [|done].
  by destruct (negb _).
Qed.

Lemma evict_node_fixed f r v r' :
  evict_node (FrameNode f) r = Ok (v, r') → fixed r' = fixed r.
Proof.
  unfold evict_node. destruct (deref (DisLink (FrameNode f) r) (FrameNode f)); [|done].
  intros [= _ <-]. rewrite <- (DisLink_fixed (FrameNode f) r). done.
Qed.

Lemma Remove_fixed f r r' : Remove f r = Ok r' → fixed r' = fixed r.
Proof.
  unfold Remove. destruct (node_store_ r !! f); [|by intros [= <-]].
  destruct (negb _); [done|]. intros [= <-].
  rewrite <- (DisLink_fixed (FrameNode f) r). done.
Qed.

Lemma RecordAccess_fixed f r r' : RecordAccess f r = Ok r' → fixed r' = fixed r.
Proof.
  unfold RecordAccess. destruct (_ <=? _); [done|].
  cbn [node_store_ set_current_timestamp].
  destruct (node_store_ r !! f) as [n|].
  - destruct (node_RecordAccess _ n) as [n' dropped].
    destruct dropped; [|destruct (_ <? _)]; intros <-%Ok_inj;
      by rewrite MoveToEnd_fixed.
  - intros <-%Ok_inj. by rewrite MoveToEnd_fixed.
Qed.

Lemma Evict_fixed_wf r hist cache v r' :
  wf r hist cache → Evict r = Ok (v, r') → fixed r' = fixed r.
Proof.
  intros Hwf. rewrite (Evict_repr r hist cache) by apply Hwf.
  destruct (curr_size_ r =? 0); [by intros [= _ <-]|].
  destruct (first_evictable r (rev hist)) as [f|]; [apply evict_node_fixed|].
  destruct (first_evictable r (rev cache)) as [f|]; [apply evict_node_fixed|].
  by intros [= _ <-].
Qed.

(** In every reachable state the capacity is the one the constructor was
    given, and the sentinels are the nodes -1, -2 and -3, without history and
    not evictable. *)
Lemma reachable_fixed num_frames k r :
  0 ≤ num_frames ≤ 2 ^ 31 → 2 ≤ k → reachable num_frames k r →
  fixed r = (num_frames, [(-1, 0, [], false); (-2, 0, [], false); (-3, 0, [], false)]).
Proof.
  intros Hn Hk Hreach. induction Hreach as [|r r' f Hr IH Hint Hlim Hacc|r f b Hr IH
                                |r r' v Hr IH Hev|r r' f Hr IH Hrem].
  - done.
  - by rewrite (RecordAccess_fixed f r r').
  - by rewrite SetEvictable_fixed.
  - destruct (reachable_wf num_frames k r Hn Hk Hr) as (_ & hist & cache & Hwf).
    by rewrite (Evict_fixed_wf r hist cache v r').
  - by rewrite (Remove_fixed f r r').
Qed.

Lemma reachable_size num_frames k r :
  0 ≤ num_frames ≤ 2 ^ 31 → 2 ≤ k → reachable num_frames k r →
  replacer_size_ r = num_frames.
Proof.
  intros Hn Hk Hreach.
  pose proof (reachable_fixed num_frames k r Hn Hk Hreach) as H.
  unfold fixed in H. by injection H.
Qed.

(** A reachable state to try things on: frame 1 accessed once and marked
    evictable. *)
Lemma reachable_replacer_evictable : reachable 4 2 replacer_evictable.
Proof.
  apply reach_SetEvictable.
  apply (reach_RecordAccess 4 2 (new_LRUKReplacer 4 2) replacer_accessed 1).
  - apply reach_new.
  - vm_compute. split; [discriminate|reflexivity].
  - vm_compute. reflexivity.
  - vm_compute. reflexivity.
Qed.

(** *** The size and the lists *)

(** X8.  In every state reached from the constructor (at most 2^31 frames,
    K >= 2), Size() is the number of tracked frames that are marked
    evictable, it is at most num_frames, and every tracked frame has an id
    in [0, num_frames) that its node returns as GetFrameID. *)
Theorem Size_counts_the_evictable_frames num_frames k r :
  0 ≤ num_frames ≤ 2 ^ 31 → 2 ≤ k → reachable num_frames k r →
  Size r = Z.of_nat (evictable_count (node_store_ r)) ∧
  0 ≤ Size r ≤ num_frames ∧
  ∀ f n, node_store_ r !! f = Some n → 0 ≤ f < num_frames ∧ GetFrameID n = f.
Proof.
  intros Hn Hk Hreach.
  destruct (reachable_wf num_frames k r Hn Hk Hreach) as (Hrk & hist & cache & Hwf).
  pose proof (reachable_size num_frames k r Hn Hk Hreach) as Hsize.
  assert (∀ f n, node_store_ r !! f = Some n → 0 ≤ f < num_frames ∧ GetFrameID n = f)
    as Hnodes.
  { intros f n Hf. destruct (wf_node _ _ _ Hwf f n Hf) as (Hfid & _ & Hrange).
    split; [lia|done]. }
  split; [apply Hwf|]. split; [|done].
  unfold Size. rewrite (wf_count _ _ _ Hwf).
  pose proof (count_le_size (node_store_ r)).
  assert (size (node_store_ r) ≤ Z.to_nat num_frames)%nat; [|lia].
  apply size_bounded. intros f [n Hf]. destruct (Hnodes f n Hf). lia.
Qed.

Lemma Size_counts_the_evictable_frames_witness :
  Size replacer_evictable = Z.of_nat (evictable_count (node_store_ replacer_evictable)) ∧
  0 ≤ Size replacer_evictable ≤ 4 ∧
  ∀ f n, node_store_ replacer_evictable !! f = Some n → 0 ≤ f < 4 ∧ GetFrameID n = f.
Proof.
  apply (Size_counts_the_evictable_frames 4 2 replacer_evictable).
  - vm_compute. split; discriminate.
  - vm_compute. discriminate.
  - apply reachable_replacer_evictable.
Defined.



(** *** [Evict] *)

Lemma evict_node_effect f r v r' :
  evict_node (FrameNode f) r = Ok (v, r') →
  curr_size_ r' = to_size_t (curr_size_ r - 1) ∧
  ∀ g, g ≠ f → data <$> node_store_ r' !! g = data <$> node_store_ r !! g.
Proof.
  unfold evict_node.
  destruct (deref (DisLink (FrameNode f) r) (FrameNode f)); [|done].
  intros [= _ <-]. split.
  - simpl. by destruct (DisLink_scalars (FrameNode f) r) as (_ & -> & _).
  - intros g Hg. cbn [node_store_ set_curr_size]. rewrite lookup_alter_ne by done.
    apply (DisLink_data (FrameNode f) r (FrameNode g)).
Qed.

(** The two ways [Evict] ends on a well-formed replacer. *)
Lemma Evict_cases r hist cache : wf r hist cache →
  (Evict r = Ok (None, r) ∧
   ∀ g ng, node_store_ r !! g = Some ng → is_evictable_ ng = true →
           history_ ng = []) ∨
  (∃ f nf r', Evict r = Ok (Some f, r') ∧
     evict_node (FrameNode f) r = Ok (Some f, r') ∧
     node_store_ r !! f = Some nf ∧ is_evictable_ nf = true ∧
     history_ nf ≠ [] ∧ f ∈ hist ++ cache ∧ 1 ≤ curr_size_ r).
Proof.
  intros Hwf. rewrite (Evict_repr r hist cache) by apply Hwf.
  pose proof (wf_count _ _ _ Hwf) as Hcount.
  destruct (curr_size_ r =? 0) eqn:Hzero.
  { left. split; [done|]. intros g ng Hg Hev. apply Z.eqb_eq in Hzero.
    pose proof (count_delete _ _ _ Hg) as Hc. rewrite Hev in Hc. simpl in Hc. lia. }
  apply Z.eqb_neq in Hzero.
  assert (1 ≤ curr_size_ r) as Hpos by lia.
  assert (∀ f l, l = hist ∨ l = cache → first_evictable r (rev l) = Some f →
            ∃ nf r', evict_node (FrameNode f) r = Ok (Some f, r') ∧
              node_store_ r !! f = Some nf ∧ is_evictable_ nf = true ∧
              history_ nf ≠ [] ∧ f ∈ hist ++ cache) as Hvictim.
  { intros f l Hl (Hev & l1 & l2 & Hrev & _)%first_evictable_Some.
    assert (f ∈ l) as Hin.
    { apply elem_of_rev. rewrite Hrev. set_solver. }
    assert (f ∈ hist ++ cache) as Hin2 by (destruct Hl; subst; set_solver).
    destruct (wf_evict_node r hist cache f Hwf Hev) as (r' & Hnode & _).
    apply evictable_in_true in Hev as (nf & Hnf & Hnfev).
    exists nf, r'. split; [done|]. split; [done|]. split; [done|].
    split; [|done]. by eapply wf_listed. }
  destruct (first_evictable r (rev hist)) as [f|] eqn:Eh.
  { right. destruct (Hvictim f hist ltac:(by left) Eh)
      as (nf & r' & Hnode & Hnf & Hnfev & Hfh & Hin).
    exists f, nf, r'. rewrite Hnode. by repeat (split; [done|]). }
  destruct (first_evictable r (rev cache)) as [f|] eqn:Ec.
  { right. destruct (Hvictim f cache ltac:(by right) Ec)
      as (nf & r' & Hnode & Hnf & Hnfev & Hfh & Hin).
    exists f, nf, r'. rewrite Hnode. by repeat (split; [done|]). }
  left. split; [done|]. intros g ng Hg Hev.
  destruct (history_ ng) as [|a hs] eqn:Hh; [done|]. exfalso.
  assert (g ∈ hist ++ cache) as Hin.
  { destruct (decide (g ∈ hist ++ cache)); [done|].
    pose proof (wf_unlisted _ _ _ Hwf g ng Hg ltac:(done)). congruence. }
  assert (evictable_in r g = true) as Hevin.
  { unfold evictable_in. by rewrite Hg. }
  apply elem_of_app in Hin as [Hin|Hin].
  - apply (proj2 (elem_of_rev g hist)) in Hin.
    by rewrite (first_evictable_None r _ Eh g Hin) in Hevin.
  - apply (proj2 (elem_of_rev g cache)) in Hin.
    by rewrite (first_evictable_None r _ Ec g Hin) in Hevin.
Qed.

(** X10.  In every reachable state Evict returns: its two scans end, on
    nodes that exist.  It returns a frame exactly when some tracked frame is
    evictable and has a recorded access; when there is none it returns
    false and changes nothing, whatever Size() says. *)
Theorem Evict_returns_a_frame_iff num_frames k r :
  0 ≤ num_frames ≤ 2 ^ 31 → 2 ≤ k → reachable num_frames k r →
  ∃ victim r', Evict r = Ok (victim, r') ∧
    (is_Some victim ↔
     ∃ g ng, node_store_ r !! g = Some ng ∧ is_evictable_ ng = true ∧
             history_ ng ≠ []) ∧
    (victim = None → r' = r).
Proof.
  intros Hn Hk Hreach.
  destruct (reachable_wf num_frames k r Hn Hk Hreach) as (_ & hist & cache & Hwf).
  destruct (Evict_cases r hist cache Hwf) as [[Hev Hnone]|(f & nf & r' & Hev & _ & Hnf & Hfev & Hfh & _)].
  - exists None, r. split; [done|]. split; [|done]. split.
    + by intros [? ?].
    + intros (g & ng & Hg & Hgev & Hgh). by destruct Hgh; eapply Hnone.
  - exists (Some f), r'. split; [done|]. split; [|done]. split; eauto.
Qed.

Lemma Evict_returns_a_frame_iff_witness :
  ∃ victim r', Evict replacer_evictable = Ok (victim, r') ∧
    (is_Some victim ↔
     ∃ g ng, node_store_ replacer_evictable !! g = Some ng ∧
             is_evictable_ ng = true ∧ history_ ng ≠ []) ∧
    (victim = None → r' = replacer_evictable).
Proof.
  apply (Evict_returns_a_frame_iff 4 2 replacer_evictable).
  - vm_compute. split; discriminate.
  - vm_compute. discriminate.
  - apply reachable_replacer_evictable.
Defined.

(** X11.  What Evict does to its victim.  When Evict returns frame f in a
    reachable state, f was on one of the two lists and is taken off it, the
    other frames keeping their order; the node of f stays in the replacer,
    not evictable and with an empty history; Size() goes down by one; no
    other node changes its history or its flag.  Remove(f) right after it
    throws, the victim being tracked and not evictable. *)
Theorem Evict_takes_the_victim_off_its_list num_frames k r f r' :
  0 ≤ num_frames ≤ 2 ^ 31 → 2 ≤ k → reachable num_frames k r →
  Evict r = Ok (Some f, r') →
  ∃ hist cache n', repr r hist cache ∧ f ∈ hist ++ cache ∧
    repr r' (drop_frame f hist) (drop_frame f cache) ∧
    node_store_ r' !! f = Some n' ∧ is_evictable_ n' = false ∧ history_ n' = [] ∧
    Size r' = Size r - 1 ∧
    (∀ g, g ≠ f → data <$> node_store_ r' !! g = data <$> node_store_ r !! g) ∧
    Remove f r' = ExecutionException.
Proof.
  intros Hn Hk Hreach Hev.
  destruct (reachable_wf num_frames k r Hn Hk Hreach) as (_ & hist & cache & Hwf).
  destruct (Evict_cases r hist cache Hwf)
    as [[Hev' _]|(f' & nf & r'' & Hev' & Hnode & Hnf & Hfev & Hfh & Hin & Hpos)];
    rewrite Hev' in Hev; [done|]. injection Hev as -> ->.
  assert (evictable_in r f = true) as Hevin.
  { unfold evictable_in. by rewrite Hnf. }
  destruct (wf_evict_node r hist cache f Hwf Hevin)
    as (r1 & Hnode1 & Hwf' & n' & Hn' & Hn'ev & Hn'h).
  rewrite Hnode in Hnode1. injection Hnode1 as <-.
  destruct (evict_node_effect f r _ r' Hnode) as (Hsize & Hdata).
  exists hist, cache, n'. split; [apply Hwf|]. split; [done|].
  split; [apply Hwf'|]. split; [done|]. split; [done|]. split; [done|].
  split; [|split; [done|]].
  - unfold Size. rewrite Hsize.
    pose proof (count_bound r hist cache Hwf) as Hb.
    rewrite (wf_count _ _ _ Hwf) in *.
    rewrite to_size_t_small; [done|]. unfold SIZE_MOD. lia.
  - unfold Remove. rewrite Hn'. unfold GetEvictable. by rewrite Hn'ev.
Qed.

Lemma Evict_takes_the_victim_off_its_list_witness :
  ∃ hist cache n', repr replacer_evictable hist cache ∧ 1 ∈ hist ++ cache ∧
    repr (state_of 4 2 (snd <$> Evict replacer_evictable))
         (drop_frame 1 hist) (drop_frame 1 cache) ∧
    node_store_ (state_of 4 2 (snd <$> Evict replacer_evictable)) !! 1 = Some n' ∧
    is_evictable_ n' = false ∧ history_ n' = [] ∧
    Size (state_of 4 2 (snd <$> Evict replacer_evictable)) = Size replacer_evictable - 1 ∧
    (∀ g, g ≠ 1 →
       data <$> node_store_ (state_of 4 2 (snd <$> Evict replacer_evictable)) !! g =
       data <$> node_store_ replacer_evictable !! g) ∧
    Remove 1 (state_of 4 2 (snd <$> Evict replacer_evictable)) = ExecutionException.
Proof.
  apply (Evict_takes_the_victim_off_its_list 4 2 replacer_evictable 1).
  - vm_compute. split; discriminate.
  - vm_compute. discriminate.
  - apply reachable_replacer_evictable.
  - vm_compute. reflexivity.
Defined.

(** *** [RecordAccess] *)

(** X12.  The bounds check of RecordAccess.  In a reachable state, for a
    frame id that is an int32, RecordAccess returns when the id is in
    [0, num_frames) and throws ExecutionException for every other id,
    negative ones included (the cast to size_t makes them large). *)
Theorem RecordAccess_checks_the_frame_id num_frames k r f :
  0 ≤ num_frames ≤ 2 ^ 31 → 2 ≤ k → reachable num_frames k r →
  - 2 ^ 31 ≤ f < 2 ^ 31 →
  (0 ≤ f < num_frames → ∃ r', RecordAccess f r = Ok r') ∧
  (¬ (0 ≤ f < num_frames) → RecordAccess f r = ExecutionException).
Proof.
  intros Hn Hk Hreach Hint.
  pose proof (reachable_size num_frames k r Hn Hk Hreach) as Hsize.
  unfold RecordAccess. cbn [replacer_size_ set_current_timestamp]. rewrite Hsize.
  split.
  - intros Hf.
    assert (to_size_t f = f) as ->.
    { apply to_size_t_small. unfold SIZE_MOD. lia. }
    rewrite (proj2 (Z.leb_gt num_frames f)) by lia.
    destruct (node_store_ _ !! f) as [n|]; [|by eexists].
    destruct (node_RecordAccess _ n) as [n' dropped].
    destruct dropped; [by eexists|]. destruct (_ <? _); by eexists.
  - intros Hf.
    assert (num_frames ≤ to_size_t f) as Hle.
    { unfold to_size_t, SIZE_MOD. destruct (decide (0 ≤ f)).
      - rewrite Z.mod_small by lia. lia.
      - replace f with (f + 2 ^ 64 - 1 * 2 ^ 64) by lia.
        rewrite Zminus_mod, Z_mod_mult, Z.sub_0_r, Z.mod_mod by lia.
        rewrite Z.mod_small by lia. lia. }
    by rewrite (proj2 (Z.leb_le _ _) Hle).
Qed.

Lemma RecordAccess_checks_the_frame_id_witness :
  (0 ≤ -1 < 4 → ∃ r', RecordAccess (-1) replacer_evictable = Ok r') ∧
  (¬ (0 ≤ -1 < 4) → RecordAccess (-1) replacer_evictable = ExecutionException).
Proof.
  apply (RecordAccess_checks_the_frame_id 4 2 replacer_evictable (-1)).
  - vm_compute. split; discriminate.
  - vm_compute. discriminate.
  - apply reachable_replacer_evictable.
  - vm_compute. split; [discriminate|reflexivity].
Defined.





(** *** [SetEvictable] and [Remove] *)

Lemma SetEvictable_same f b r n :
  node_store_ r !! f = Some n → is_evictable_ n = b → SetEvictable f b r = r.
Proof.
  intros Hn Hb. unfold SetEvictable. rewrite Hn. unfold GetEvictable.
  rewrite Hb. by destruct b.
Qed.

Lemma SetEvictable_flag f b r n' :
  node_store_ (SetEvictable f b r) !! f = Some n' → is_evictable_ n' = b.
Proof.
  unfold SetEvictable. destruct (node_store_ r !! f) as [n|] eqn:Hn.
  2:{ by rewrite Hn. }
  destruct (negb (eqb (GetEvictable n) b)) eqn:Hflag.
  - change (node_store_ (set_curr_size ?z ?r0)) with (node_store_ r0).
    rewrite lookup_update_frame, decide_True by done. rewrite Hn.
    by intros [= <-].
  - rewrite Hn. intros [= <-]. unfold GetEvictable in Hflag.
    by destruct (is_evictable_ n), b.
Qed.

Lemma SetEvictable_twice f b r :
  SetEvictable f b (SetEvictable f b r) = SetEvictable f b r.
Proof.
  destruct (node_store_ (SetEvictable f b r) !! f) as [n'|] eqn:Hn'.
  - apply (SetEvictable_same f b _ n' Hn'). by eapply SetEvictable_flag.
  - unfold SetEvictable at 1. by rewrite Hn'.
Qed.

(** X14.  SetEvictable counts a frame once.  In a reachable state, a second
    SetEvictable(f, b) with the same flag changes nothing; and marking a
    tracked frame that is not evictable as evictable and then as not
    evictable again gives back the very state it started from, Size()
    included. *)
Theorem SetEvictable_counts_a_frame_once num_frames k r :
  0 ≤ num_frames ≤ 2 ^ 31 → 2 ≤ k → reachable num_frames k r →
  (∀ f b, SetEvictable f b (SetEvictable f b r) = SetEvictable f b r) ∧
  (∀ f n, node_store_ r !! f = Some n → is_evictable_ n = false →
     Size (SetEvictable f true r) = Size r + 1 ∧
     SetEvictable f false (SetEvictable f true r) = r).
Proof.
  intros Hn Hk Hreach. split; [intros f b; apply SetEvictable_twice|].
  intros f n Hf Hev.
  destruct (reachable_wf num_frames k r Hn Hk Hreach) as (_ & hist & cache & Hwf).
  pose proof (count_bound r hist cache Hwf) as Hb.
  pose proof (wf_count _ _ _ Hwf) as Hcount.
  assert (SetEvictable f true r =
          set_curr_size (curr_size_ r + 1)
            (update (FrameNode f) (node_SetEvictable true) r)) as Hset.
  { unfold SetEvictable. rewrite Hf. unfold GetEvictable. rewrite Hev. simpl.
    rewrite to_size_t_small; [done|]. unfold SIZE_MOD. lia. }
  rewrite Hset. split; [done|].
  unfold SetEvictable.
  change (node_store_ (set_curr_size ?z ?r0)) with (node_store_ r0).
  rewrite lookup_update_frame, decide_True by done. rewrite Hf. simpl.
  rewrite to_size_t_small by (unfold SIZE_MOD; lia).
  destruct r as [m he ms bs ts cs rs rk]. simpl in *.
  unfold set_curr_size, update. simpl. f_equal; [|lia].
  apply map_eq. intros g. destruct (decide (g = f)) as [->|Hne].
  - rewrite !lookup_alter_eq, Hf. simpl. f_equal.
    destruct n. simpl in *. by subst.
  - by rewrite !lookup_alter_ne.
Qed.

Lemma SetEvictable_counts_a_frame_once_witness :
  (∀ f b, SetEvictable f b (SetEvictable f b replacer_accessed) =
          SetEvictable f b replacer_accessed) ∧
  (∀ f n, node_store_ replacer_accessed !! f = Some n → is_evictable_ n = false →
     Size (SetEvictable f true replacer_accessed) = Size replacer_accessed + 1 ∧
     SetEvictable f false (SetEvictable f true replacer_accessed) = replacer_accessed).
Proof.
  apply (SetEvictable_counts_a_frame_once 4 2 replacer_accessed).
  - vm_compute. split; discriminate.
  - vm_compute. discriminate.
  - apply (reach_RecordAccess 4 2 (new_LRUKReplacer 4 2) replacer_accessed 1).
    + apply reach_new.
    + vm_compute. split; [discriminate|reflexivity].
    + vm_compute. reflexivity.
    + vm_compute. reflexivity.
Defined.

(** X15.  What Remove does.  When Remove(f) returns in a reachable state,
    f has no node afterwards and is on no list, the other frames keep their
    place, their histories and their flags; if f had a node, Size() goes
    down by one, and if it had none, nothing changes. *)
Theorem Remove_takes_the_frame_out num_frames k r f r' :
  0 ≤ num_frames ≤ 2 ^ 31 → 2 ≤ k → reachable num_frames k r →
  Remove f r = Ok r' →
  ∃ hist cache, repr r hist cache ∧
    repr r' (drop_frame f hist) (drop_frame f cache) ∧
    node_store_ r' !! f = None ∧
    (∀ g, g ≠ f → data <$> node_store_ r' !! g = data <$> node_store_ r !! g) ∧
    (is_Some (node_store_ r !! f) → Size r' = Size r - 1) ∧
    (node_store_ r !! f = None → r' = r).
Proof.
  intros Hn Hk Hreach Hrem.
  destruct (reachable_wf num_frames k r Hn Hk Hreach) as (_ & hist & cache & Hwf).
  pose proof (wf_Remove r hist cache f r' Hwf Hrem) as Hwf'.
  exists hist, cache. split; [apply Hwf|]. split; [apply Hwf'|].
  split; [by eapply Remove_untracks|].
  unfold Remove in Hrem.
  destruct (node_store_ r !! f) as [n|] eqn:Hf.
  2:{ injection Hrem as <-. split; [done|]. split; [by intros [? ?]|done]. }
  unfold GetEvictable in Hrem. destruct (is_evictable_ n) eqn:Hev; [|done].
  simpl in Hrem. injection Hrem as <-.
  split; [|split; [|done]].
  - intros g Hg. simpl. rewrite lookup_delete_ne by done.
    apply (DisLink_data (FrameNode f) r (FrameNode g)).
  - intros _. unfold Size. simpl.
    destruct (DisLink_scalars (FrameNode f) r) as (_ & -> & _).
    pose proof (count_bound r hist cache Hwf) as Hb.
    pose proof (count_delete _ _ _ Hf) as Hc. rewrite Hev in Hc. simpl in Hc.
    rewrite (wf_count _ _ _ Hwf) in *.
    rewrite to_size_t_small; [done|]. unfold SIZE_MOD. lia.
Qed.

Lemma Remove_takes_the_frame_out_witness :
  ∃ hist cache, repr replacer_evictable hist cache ∧
    repr replacer_removed (drop_frame 1 hist) (drop_frame 1 cache) ∧
    node_store_ replacer_removed !! 1 = None ∧
    (∀ g, g ≠ 1 → data <$> node_store_ replacer_removed !! g =
                  data <$> node_store_ replacer_evictable !! g) ∧
    (is_Some (node_store_ replacer_evictable !! 1) →
     Size replacer_removed = Size replacer_evictable - 1) ∧
    (node_store_ replacer_evictable !! 1 = None →
     replacer_removed = replacer_evictable).
Proof.
  apply (Remove_takes_the_frame_out 4 2 replacer_evictable 1).
  - vm_compute. split; discriminate.
  - vm_compute. discriminate.
  - apply reachable_replacer_evictable.
  - vm_compute. reflexivity.
Defined.

(** *** [DebugPrint] *)

Lemma node_line_deref r p n :
  deref r p = Some n → node_line r p = (GetFrameID n, GetSize n, GetEvictable n).
Proof.
  destruct p; simpl; try by intros [= <-].
  unfold frame_line. by intros ->.
Qed.

Lemma debug_lines_linked r l : ∀ prev fuel,
  linked r prev l → (length l ≤ fuel)%nat →
  debug_lines fuel r (head l) = Ok (node_line r <$> l).
Proof.
  induction l as [|p l IH]; intros prev fuel Hl Hfuel.
  - by destruct fuel.
  - destruct Hl as (n & Hn & _ & Hfront & Hl).
    destruct fuel as [|fuel]; [simpl in Hfuel; lia|].
    cbn [debug_lines head]. rewrite Hn, Hfront.
    rewrite (IH (Some p) fuel Hl) by (simpl in Hfuel; lia).
    cbn [mbind result_bind fmap list_fmap]. by rewrite (node_line_deref r p n).
Qed.

(** X16.  DebugPrint writes the two lists.  In every reachable state it
    ends, and its lines are: the sentinel -1, the frames of the history
    list from the most recently placed one on, the sentinel -2, the frames
    of the cache list in the same order, and the sentinel -3; each frame
    with the size of its history and its evictable flag, each sentinel with
    size 0 and not evictable. *)
Theorem DebugPrint_writes_the_two_lists num_frames k r :
  0 ≤ num_frames ≤ 2 ^ 31 → 2 ≤ k → reachable num_frames k r →
  ∃ hist cache, repr r hist cache ∧
    DebugPrint r =
      Ok ((-1, 0, false) :: (frame_line r <$> hist) ++
          (-2, 0, false) :: (frame_line r <$> cache) ++ [(-3, 0, false)]).
Proof.
  intros Hn Hk Hreach.
  destruct (reachable_wf num_frames k r Hn Hk Hreach) as (_ & hist & cache & Hwf).
  pose proof (wf_repr _ _ _ Hwf) as Hrepr.
  pose proof (reachable_fixed num_frames k r Hn Hk Hreach) as Hfixed.
  exists hist, cache. split; [done|].
  unfold DebugPrint.
  change (Some HistoryEnd) with (head (chain hist cache)).
  rewrite (debug_lines_linked r (chain hist cache) None).
  - unfold chain. rewrite fmap_cons, fmap_app, fmap_cons, fmap_app.
    rewrite <- !list_fmap_compose. simpl.
    assert (∀ n c, data n = (c, 0, [], false) →
              (GetFrameID n, GetSize n, GetEvictable n) = (c, 0, false)) as Hline.
    { intros n c Hd. unfold data in Hd. unfold GetFrameID, GetSize, GetEvictable.
      assert (fid_ n = c) as -> by congruence.
      assert (history_ n = []) as -> by congruence.
      assert (is_evictable_ n = false) as -> by congruence. done. }
    unfold fixed in Hfixed.
    rewrite (Hline (history_end r) (-1)) by congruence.
    rewrite (Hline (middle_separator r) (-2)) by congruence.
    rewrite (Hline (buffer_start r) (-3)) by congruence.
    done.
  - apply Hrepr.
  - pose proof (repr_length r hist cache Hrepr) as Hlen.
    unfold chain, scan_fuel. simpl.
    rewrite length_app. simpl. rewrite length_app, !length_fmap. simpl. lia.
Qed.

Lemma DebugPrint_writes_the_two_lists_witness :
  ∃ hist cache, repr replacer_evictable hist cache ∧
    DebugPrint replacer_evictable =
      Ok ((-1, 0, false) :: (frame_line replacer_evictable <$> hist) ++
          (-2, 0, false) :: (frame_line replacer_evictable <$> cache) ++
          [(-3, 0, false)]).
Proof.
  apply (DebugPrint_writes_the_two_lists 4 2 replacer_evictable).
  - vm_compute. split; discriminate.
  - vm_compute. discriminate.
  - apply reachable_replacer_evictable.
Defined.

End ReplacerLaws.

(** * Laws of the buffer pool manager *)
Module BufferPoolLaws.
Import Replacer BufferPool ReplacerFacts BufferPoolFacts.

(** *** The frame ids of the replacer stay within the pool *)

Lemma rep_ok_step N r r' :
  rep_ok N r → replacer_size_ r' = replacer_size_ r →
  (∀ q n', deref r' q = Some n' →
     (∃ n, deref r q = Some n ∧ fid_ n = fid_ n' ∧
           is_evictable_ n = is_evictable_ n') ∨
     (∃ f, q = FrameNode f ∧ fid_ n' = f ∧ 0 ≤ f < N)) →
  rep_ok N r'.
Proof.
  intros [Hs Hn] Hs' H. split; [congruence|]. intros q n' Hq.
  destruct (H q n' Hq) as [(n & Hqn & Hf & He)|(f & -> & Hf & Hr)]; [|done].
  specialize (Hn q n Hqn). destruct q; rewrite <- ?Hf, <- ?He; done.
Qed.

Lemma same_data r r' q n' :
  data <$> deref r' q = data <$> deref r q → deref r' q = Some n' →
  ∃ n, deref r q = Some n ∧ fid_ n = fid_ n' ∧ is_evictable_ n = is_evictable_ n'.
Proof.
  intros Hd Hq. rewrite Hq in Hd. destruct (deref r q) as [n|]; [|done].
  apply (inj Some) in Hd. symmetry in Hd.
  destruct (data_fields _ _ Hd) as (? & _ & _ & ?). eauto.
Qed.

Lemma rep_ok_SetEvictable N f b r : rep_ok N r → rep_ok N (SetEvictable f b r).
Proof.
  intros Hok. unfold SetEvictable.
  destruct (node_store_ r !! f) as [n|] eqn:Hn; [|done].
  destruct (negb _); [|done].
  apply (rep_ok_step N r); [done|done|]. intros q n' Hq.
  change (deref (set_curr_size ?z ?r0) q) with (deref r0 q) in Hq.
  rewrite deref_update in Hq. case_decide as Hqf.
  - subst q. right. exists f. simpl in Hq. rewrite Hn in Hq.
    injection Hq as <-. destruct Hok as [_ Hnodes]. split; [done|].
    apply (Hnodes (FrameNode f) n Hn).
  - left. eauto.
Qed.

Lemma node_RecordAccess_fid ts n : fid_ (node_RecordAccess ts n).1 = fid_ n.
Proof. unfold node_RecordAccess. by destruct (_ <? _). Qed.

Lemma rep_ok_MoveToEnd N f e r r1 :
  rep_ok N r → replacer_size_ r1 = replacer_size_ r → 0 ≤ f < N →
  (∀ n1, node_store_ r1 !! f = Some n1 → fid_ n1 = f) →
  (∀ q, q ≠ FrameNode f → deref r1 q = deref r q) →
  rep_ok N (MoveToEnd (FrameNode f) e r1).
Proof.
  intros Hok Hs Hf Hfid Hother.
  apply (rep_ok_step N r); [done| |].
  - destruct (MoveToEnd_scalars (FrameNode f) e r1) as (_ & _ & -> & _). done.
  - intros q n' Hq.
    destruct (same_data r1 _ q n' (MoveToEnd_data (FrameNode f) e r1 q) Hq)
      as (n1 & Hn1 & Hf1 & He1).
    destruct (decide (q = FrameNode f)) as [->|Hne].
    + right. exists f. split; [done|]. split; [|done].
      rewrite <- Hf1. by apply Hfid.
    + left. rewrite Hother in Hn1 by done. eauto.
Qed.

Lemma rep_ok_RecordAccess N f r r' :
  rep_ok N r → 0 ≤ f < N → RecordAccess f r = Ok r' → rep_ok N r'.
Proof.
  intros Hok Hf. unfold RecordAccess.
  set (r0 := set_current_timestamp (to_size_t (current_timestamp_ r + 1)) r).
  change (replacer_size_ r0) with (replacer_size_ r).
  change (node_store_ r0) with (node_store_ r).
  destruct (_ <=? _); [done|].
  destruct (node_store_ r !! f) as [n|] eqn:Hn.
  - assert (fid_ n = f) as Hfid.
    { destruct Hok as [_ Hnodes]. apply (Hnodes (FrameNode f) n Hn). }
    pose proof (node_RecordAccess_fid (current_timestamp_ r0) n) as Hfid'.
    destruct (node_RecordAccess _ n) as [n' dropped]. simpl in Hfid'.
    assert (∀ e, rep_ok N (MoveToEnd (FrameNode f) e
                             (update (FrameNode f) (λ _, n') r0))) as Hall.
    { intros e. apply (rep_ok_MoveToEnd N f e r); [done|done|done| |].
      - intros n1. rewrite lookup_update_frame, decide_True by done.
        change (node_store_ r0) with (node_store_ r). rewrite Hn.
        intros [= <-]. congruence.
      - intros q Hq. by rewrite deref_update_ne. }
    destruct dropped; [|destruct (_ <? _)]; intros <-%Ok_inj; apply Hall.
  - intros <-%Ok_inj. apply (rep_ok_MoveToEnd N f _ r); [done|done|done| |].
    + intros n1. rewrite lookup_update_frame, decide_True by done.
      simpl. rewrite lookup_insert_eq. simpl. intros [= <-].
      apply node_RecordAccess_fid.
    + intros q Hq. rewrite deref_update_ne by done.
      destruct q; try done. simpl. rewrite lookup_insert_ne; [done|congruence].
Qed.

Lemma rep_ok_Remove N f r r' : rep_ok N r → Remove f r = Ok r' → rep_ok N r'.
Proof.
  intros Hok. unfold Remove. destruct (node_store_ r !! f); [|by intros [= <-]].
  destruct (negb _); [done|]. intros [= <-].
  apply (rep_ok_step N r); [done| |].
  - simpl. by destruct (DisLink_scalars (FrameNode f) r) as (_ & _ & -> & _).
  - intros q n' Hq. left.
    apply (same_data r (DisLink (FrameNode f) r) q n'); [apply DisLink_data|].
    destruct q; try done. simpl in Hq.
    by apply lookup_delete_Some in Hq as [_ Hq].
Qed.

Lemma evict_scan_Some fuel r stop : ∀ p0 p,
  evict_scan fuel r stop p0 = Ok (Some p) →
  ∃ n, deref r p = Some n ∧ is_evictable_ n = true.
Proof.
  induction fuel as [|fuel IH]; intros p0 p; [done|]. simpl.
  destruct p0 as [q|]; [|done]. case_decide; [done|].
  destruct (deref r q) as [n|] eqn:Hq; [|done].
  unfold GetEvictable. destruct (is_evictable_ n) eqn:Hev.
  - intros [= <-]. eauto.
  - apply IH.
Qed.

Lemma rep_ok_evict_node N r p n v r' :
  rep_ok N r → deref r p = Some n → is_evictable_ n = true →
  evict_node p r = Ok (v, r') →
  rep_ok N r' ∧ ∃ f, v = Some f ∧ 0 ≤ f < N.
Proof.
  intros Hok Hp Hev. pose proof Hok as [_ Hnodes].
  pose proof (Hnodes p n Hp) as Hpn.
  destruct p as [| | |f]; try congruence. destruct Hpn as [Hfid Hrange].
  unfold evict_node.
  destruct (same_data (DisLink (FrameNode f) r) r (FrameNode f) n) as (n1 & Hn1 & Hf1 & _).
  { symmetry. apply DisLink_data. }
  { done. }
  rewrite Hn1. intros [Hv Hr]%Ok_inj%pair_equal_spec. subst v r'. split.
  - apply (rep_ok_step N r); [done| |].
    + simpl. by destruct (DisLink_scalars (FrameNode f) r) as (_ & _ & -> & _).
    + intros q n' Hq.
      change (deref (set_curr_size ?z ?r0) q) with (deref r0 q) in Hq.
      rewrite deref_update in Hq. case_decide as Hqf.
      * subst q. right. exists f. rewrite Hn1 in Hq. injection Hq as <-.
        split; [done|]. simpl. split; [congruence|done].
      * left. apply (same_data r (DisLink (FrameNode f) r) q n'); [|done].
        apply DisLink_data.
  - exists f. unfold GetFrameID. split; [congruence|done].
Qed.

(** [Evict] returns a frame of the pool. *)
Lemma rep_ok_Evict N r v r' :
  rep_ok N r → Evict r = Ok (v, r') →
  rep_ok N r' ∧ ∀ f, v = Some f → 0 ≤ f < N.
Proof.
  intros Hok. unfold Evict.
  destruct (curr_size_ r =? 0); [by intros [= <- <-]|].
  intros (h & Hh & Hrest)%bind_Ok.
  assert (∀ p, evict_node p r = Ok (v, r') →
               (∃ n, deref r p = Some n ∧ is_evictable_ n = true) →
               rep_ok N r' ∧ ∀ f, v = Some f → 0 ≤ f < N) as Hnode.
  { intros p Hp (n & Hn & Hev).
    destruct (rep_ok_evict_node N r p n v r' Hok Hn Hev Hp) as (Hok' & f & -> & Hf).
    split; [done|]. by intros f' [= <-]. }
  destruct h as [p|].
  { apply (Hnode p Hrest). destruct (negb (IsHistoryEmpty r)); [|done].
    by eapply evict_scan_Some. }
  apply bind_Ok in Hrest as (c & Hc & Hrest).
  destruct c as [p|].
  { apply (Hnode p Hrest). destruct (negb (IsBufferEmpty r)); [|done].
    by eapply evict_scan_Some. }
  by injection Hrest as <- <-.
Qed.

Lemma rep_ok_new N k : rep_ok N (new_LRUKReplacer N k).
Proof.
  split; [done|]. intros q n Hq. destruct q; simpl in Hq; try by injection Hq as <-.
  by apply init_node_store_lookup in Hq as [-> ?].
Qed.

(** *** The frame ids of the pool stay within the pool *)

Lemma page_at_Ok s f p :
  page_at s f = Ok p ↔ 0 ≤ f ∧ pages_ s !! Z.to_nat f = Some p.
Proof.
  unfold page_at. destruct (0 <=? f) eqn:Hf.
  - apply Z.leb_le in Hf. destruct (pages_ s !! Z.to_nat f); split.
    + by intros [= ->].
    + by intros [_ [= ->]].
    + done.
    + by intros [_ ?].
  - apply Z.leb_gt in Hf. split; [done|]. intros [? _]. lia.
Qed.

Lemma page_at_inv N s f :
  pool_inv N s → 0 ≤ f < N → ∃ p, page_at s f = Ok p.
Proof.
  intros Hinv Hf.
  destruct (lookup_lt_is_Some_2 (pages_ s) (Z.to_nat f)) as [p Hp].
  { rewrite (inv_pages _ _ Hinv). lia. }
  exists p. apply page_at_Ok. split; [lia|done].
Qed.

Lemma page_at_update_page_ne s f g h :
  f ≠ h → 0 ≤ f → page_at (update_page f g s) h = page_at s h.
Proof.
  intros Hne Hf. unfold page_at, update_page. simpl.
  destruct (0 <=? h) eqn:Hh; [|done]. apply Z.leb_le in Hh.
  rewrite list_lookup_alter_ne; [done|lia].
Qed.

Lemma pool_inv_update_page N f g s :
  pool_inv N s → pool_inv N (update_page f g s).
Proof.
  intros [? ? ? ? ?]. split; try done. simpl. by rewrite length_alter.
Qed.

Lemma pop_back_Some l f rest : pop_back l = Some (f, rest) ↔ l = rest ++ [f].
Proof.
  unfold pop_back. split.
  - destruct l as [|a l]; [done|]. intros Heq. apply (inj Some) in Heq.
    apply pair_equal_spec in Heq as [<- <-]. by apply app_removelast_last.
  - intros ->. destruct (rest ++ [f]) as [|a l] eqn:E.
    + by destruct rest.
    + rewrite <- E. by rewrite last_last, removelast_last.
Qed.

Lemma touch_inv N f s s' :
  pool_inv N s → 0 ≤ f < N → touch f s = Ok s' →
  pool_inv N s' ∧ pages_ s' = pages_ s ∧ page_table_ s' = page_table_ s ∧
  free_list_ s' = free_list_ s ∧ disk_ s' = disk_ s ∧
  next_page_id_ s' = next_page_id_ s.
Proof.
  intros [? ? ? ? ?] Hf. unfold touch. intros (rep & Hrep & [= <-])%bind_Ok.
  split; [|done]. split; try done. simpl.
  apply rep_ok_SetEvictable. by eapply rep_ok_RecordAccess.
Qed.

(** [touch] returns for a frame of the pool. *)
Lemma touch_returns N f s :
  pool_inv N s → 0 ≤ N ≤ 2 ^ 31 → 0 ≤ f < N → ∃ s', touch f s = Ok s'.
Proof.
  intros Hinv HN Hf. unfold touch.
  assert (∃ rep, RecordAccess f (replacer_ s) = Ok rep) as [rep ->]; [|by eexists].
  destruct (inv_replacer _ _ Hinv) as [Hsize _].
  unfold RecordAccess. cbn [replacer_size_ set_current_timestamp]. rewrite Hsize.
  assert (to_size_t f = f) as ->.
  { apply to_size_t_small. unfold SIZE_MOD. lia. }
  rewrite (proj2 (Z.leb_gt N f)) by lia.
  destruct (node_store_ _ !! f) as [n|]; [|by eexists].
  destruct (node_RecordAccess _ n) as [n' dropped].
  destruct dropped; [by eexists|]. destruct (_ <? _); by eexists.
Qed.

Lemma install_new_inv N f s r s' :
  pool_inv N s → 0 ≤ f < N → install_new f s = Ok (r, s') → pool_inv N s'.
Proof.
  intros Hinv Hf. unfold install_new. simpl.
  intros (p & _ & [= _ <-])%bind_Ok.
  destruct Hinv as [? ? ? ? Htab]. split; try done.
  - simpl. by rewrite length_alter.
  - intros pid g. simpl. unfold emplace.
    destruct (page_table_ s !! next_page_id_ s) eqn:E; [apply Htab|].
    intros [[_ <-]|[_ ?]]%lookup_insert_Some; [done|by eapply Htab].
Qed.

Lemma disk_write_inv N pid f s s' :
  pool_inv N s → disk_write pid f s = Ok s' →
  pool_inv N s' ∧ pages_ s' = pages_ s ∧ page_table_ s' = page_table_ s ∧
  free_list_ s' = free_list_ s ∧ replacer_ s' = replacer_ s.
Proof.
  intros [? ? ? ? ?]. rewrite disk_write_eq. intros (p & _ & H)%bind_Ok.
  destruct (requests_succeed 1 s); [|done]. injection H as <-.
  split; [|done]. by split.
Qed.

Lemma disk_read_inv N pid f s s' :
  pool_inv N s → disk_read pid f s = Ok s' → pool_inv N s'.
Proof.
  intros Hinv. rewrite disk_read_eq. intros (p & _ & H)%bind_Ok.
  destruct (requests_succeed 1 s); [|done]. injection H as <-.
  apply pool_inv_update_page. destruct Hinv. by split.
Qed.

Lemma erase_found_inv N pid s s' :
  pool_inv N s → erase_found pid s = Ok s' → pool_inv N s'.
Proof.
  intros [? ? ? ? Htab]. unfold erase_found.
  destruct (page_table_ s !! pid); [|done]. intros [= <-].
  split; try done. simpl. intros pid' g [_ ?]%lookup_delete_Some. by eapply Htab.
Qed.

Lemma install_fetched_inv N pid f s r s' :
  pool_inv N s → 0 ≤ f < N → install_fetched pid f s = Ok (r, s') → pool_inv N s'.
Proof.
  intros Hinv Hf. unfold install_fetched.
  intros (s1 & Hread & (s2 & Htouch & [= _ <-])%bind_Ok)%bind_Ok.
  pose proof (disk_read_inv N pid f s s1 Hinv Hread) as Hinv1.
  destruct (touch_inv N f s1 s2 Hinv1 Hf Htouch) as ([? ? ? ? Htab] & _).
  split; try done.
  - simpl. by rewrite length_alter.
  - intros pid' g. simpl. unfold emplace.
    destruct (page_table_ s2 !! pid) eqn:E; [apply Htab|].
    intros [[_ <-]|[_ ?]]%lookup_insert_Some; [done|by eapply Htab].
Qed.

Lemma pool_inv_set_free_list N l s :
  pool_inv N s → (∀ f, f ∈ l → 0 ≤ f < N) → pool_inv N (set_free_list l s).
Proof. intros [? ? ? ? ?] Hl. by split. Qed.

Lemma pool_inv_set_replacer N rep s :
  pool_inv N s → rep_ok N rep → pool_inv N (set_replacer rep s).
Proof. intros [? ? ? ? ?] Hl. by split. Qed.

Lemma NewPage_inv N s r s' : pool_inv N s → NewPage s = Ok (r, s') → pool_inv N s'.
Proof.
  intros Hinv. unfold NewPage.
  destruct (pop_back (free_list_ s)) as [[f rest]|] eqn:Hpop.
  - apply pop_back_Some in Hpop.
    assert (0 ≤ f < N) as Hf.
    { apply (inv_free _ _ Hinv). rewrite Hpop. set_solver. }
    intros (s1 & Htouch & Hinst)%bind_Ok.
    eapply install_new_inv; [|done|done].
    eapply touch_inv; [|done|done].
    apply pool_inv_set_free_list; [done|].
    intros g Hg. apply (inv_free _ _ Hinv). rewrite Hpop. set_solver.
  - destruct (0 <? Size (replacer_ s)); [|by intros [= _ <-]].
    intros ([victim rep] & Hev & Hrest)%bind_Ok.
    destruct (rep_ok_Evict N _ _ _ (inv_replacer _ _ Hinv) Hev) as [Hrep Hvic].
    destruct victim as [f|]; [|done]. specialize (Hvic f eq_refl).
    pose proof (pool_inv_set_replacer N rep s Hinv Hrep) as Hinv1.
    apply bind_Ok in Hrest as (p & Hp & Hrest).
    apply bind_Ok in Hrest as (s2 & Hs2 & Hrest).
    apply bind_Ok in Hrest as (s3 & Htouch & Hinst).
    eapply install_new_inv; [|done|done].
    eapply touch_inv; [|done|done].
    destruct (is_dirty_ p); [|by injection Hs2 as <-].
    apply bind_Ok in Hs2 as (s4 & Hw & Herase).
    eapply erase_found_inv; [|done].
    apply pool_inv_update_page. by eapply disk_write_inv.
Qed.

Lemma FetchPage_inv N pid s r s' :
  pool_inv N s → FetchPage pid s = Ok (r, s') → pool_inv N s'.
Proof.
  intros Hinv. unfold FetchPage.
  destruct (page_table_ s !! pid); [by intros [= _ <-]|].
  destruct (pop_back (free_list_ s)) as [[f rest]|] eqn:Hpop.
  - apply pop_back_Some in Hpop.
    assert (0 ≤ f < N) as Hf.
    { apply (inv_free _ _ Hinv). rewrite Hpop. set_solver. }
    apply install_fetched_inv; [|done].
    apply pool_inv_set_free_list; [done|].
    intros g Hg. apply (inv_free _ _ Hinv). rewrite Hpop. set_solver.
  - destruct (0 <? Size (replacer_ s)); [|by intros [= _ <-]].
    intros ([victim rep] & Hev & Hrest)%bind_Ok.
    destruct (rep_ok_Evict N _ _ _ (inv_replacer _ _ Hinv) Hev) as [Hrep Hvic].
    destruct victim as [f|]; [|done]. specialize (Hvic f eq_refl).
    pose proof (pool_inv_set_replacer N rep s Hinv Hrep) as Hinv1.
    apply bind_Ok in Hrest as (p & Hp & Hrest).
    apply bind_Ok in Hrest as (s2 & Herase & Hrest).
    apply bind_Ok in Hrest as (s3 & Hs3 & Hinst).
    eapply install_fetched_inv; [|done|done].
    pose proof (erase_found_inv N _ _ _ Hinv1 Herase) as Hinv2.
    destruct (is_dirty_ p); [|by injection Hs3 as <-].
    apply bind_Ok in Hs3 as (s4 & Hw & [= <-]).
    apply pool_inv_update_page. by eapply disk_write_inv.
Qed.

Lemma UnpinPage_inv N pid d s r s' :
  pool_inv N s → UnpinPage pid d s = Ok (r, s') → pool_inv N s'.
Proof.
  intros Hinv. unfold UnpinPage.
  destruct (page_table_ s !! pid) as [f|]; [|by intros [= _ <-]].
  intros (p & _ & (p2 & _ & [= _ <-])%bind_Ok)%bind_Ok.
  set (s1 := if (d && negb (is_dirty_ p))%bool then _ else s).
  assert (pool_inv N s1) as Hinv1.
  { subst s1. destruct (_ && _)%bool; [by apply pool_inv_update_page|done]. }
  set (s2 := if 0 <? pin_count_ p then _ else s1).
  assert (pool_inv N s2) as Hinv2.
  { subst s2. destruct (_ <? _); [by apply pool_inv_update_page|done]. }
  destruct (_ =? _); [|done].
  apply pool_inv_set_replacer; [done|].
  apply rep_ok_SetEvictable, Hinv2.
Qed.

Lemma FlushPage_inv N pid s r s' :
  pool_inv N s → FlushPage pid s = Ok (r, s') → pool_inv N s'.
Proof.
  intros Hinv. unfold FlushPage.
  destruct (page_table_ s !! pid) as [f|]; [|by intros [= _ <-]].
  intros (s1 & Hw & [= _ <-])%bind_Ok.
  apply pool_inv_update_page. by eapply disk_write_inv.
Qed.

Lemma DeletePage_inv N pid s r s' :
  pool_inv N s → DeletePage pid s = Ok (r, s') → pool_inv N s'.
Proof.
  intros Hinv. unfold DeletePage.
  destruct (page_table_ s !! pid) as [f|] eqn:Hf; [|by intros [= _ <-]].
  pose proof (inv_table _ _ Hinv pid f Hf) as Hrange.
  intros (p & _ & Hrest)%bind_Ok.
  destruct (0 <? pin_count_ p); [by injection Hrest as _ <-|].
  apply bind_Ok in Hrest as (s1 & Herase & Hrest).
  apply bind_Ok in Hrest as (rep & Hrem & [= _ <-]).
  pose proof (erase_found_inv N _ _ _ Hinv Herase) as Hinv1.
  apply pool_inv_update_page.
  destruct Hinv1 as [? ? Hrep Hfree ?]. split; try done.
  - simpl. by eapply rep_ok_Remove.
  - simpl. intros g [?|Hg]%elem_of_app; [by apply Hfree|].
    by apply list_elem_of_singleton in Hg as ->.
Qed.

Lemma requests_succeed_S n s :
  requests_succeed (S n) s =
    requests_succeed n s &&
    requests_succeed 1 (set_answers (drop n (answers_ s)) s).
Proof.
  unfold requests_succeed. cbn [answers_ set_answers].
  generalize (answers_ s). induction n as [|n IH]; intros l.
  - by rewrite drop_0.
  - destruct l as [|b l]; [done|]. cbn [take forallb drop].
    rewrite <- andb_assoc. f_equal. apply IH.
Qed.

Lemma flush_entries_spec N s : pool_inv N s → ∀ l,
  (∀ pid f, (pid, f) ∈ l → 0 ≤ f < N) → NoDup l.*1 →
  if requests_succeed (length l) s
  then
    ∃ s', flush_entries l s = Ok s' ∧ pool_inv N s' ∧
      page_table_ s' = page_table_ s ∧ free_list_ s' = free_list_ s ∧
      replacer_ s' = replacer_ s ∧ next_page_id_ s' = next_page_id_ s ∧
      answers_ s' = drop (length l) (answers_ s) ∧
      (∀ f p, page_at s f = Ok p →
         page_at s' f =
           Ok (if bool_decide (f ∈ l.*2) then set_is_dirty false p else p)) ∧
      (∀ pid, pid ∉ l.*1 → disk_ s' pid = disk_ s pid) ∧
      (∀ pid f, (pid, f) ∈ l →
         ∃ p, page_at s f = Ok p ∧ disk_ s' pid = data_ p)
  else flush_entries l s = ExecutionException.
Proof.
  intros Hinv. induction l as [|[pid f] l IH]; intros Hl Hnd.
  - exists s. split; [done|]. split; [done|].
    split; [done|]. split; [done|]. split; [done|]. split; [done|].
    split; [by rewrite drop_0|]. split; [|split].
    + intros f p Hp. by rewrite bool_decide_eq_false_2 by set_solver.
    + done.
    + intros pid f Hin. by apply elem_of_nil in Hin.
  - apply NoDup_cons in Hnd as [Hpid Hnd].
    specialize (IH ltac:(intros; apply (Hl pid0); set_solver) Hnd).
    cbn [length]. rewrite requests_succeed_S.
    cbn [flush_entries foldr]. fold (flush_entries l s).
    destruct (requests_succeed (length l) s); [|by rewrite IH].
    destruct IH as (s1 & Hs1 & Hinv1 & Htab & Hfree & Hrep & Hnext & Hans &
                    Hpages & Hdisk & Hwritten).
    assert (0 ≤ f < N) as Hf by (apply (Hl pid); set_solver).
    destruct (page_at_inv N s f Hinv Hf) as [p Hp].
    pose proof (Hpages f p Hp) as Hp1.
    set (p1 := if bool_decide (f ∈ l.*2) then set_is_dirty false p else p) in *.
    assert (data_ p1 = data_ p) as Hdata by (subst p1; by destruct (bool_decide _)).
    rewrite Hs1. cbn [mbind result_bind]. rewrite disk_write_eq, Hp1.
    cbn [mbind result_bind].
    assert (requests_succeed 1 s1 =
            requests_succeed 1 (set_answers (drop (length l) (answers_ s)) s))
      as -> by (unfold requests_succeed; cbn [answers_ set_answers]; by rewrite Hans).
    cbn [andb].
    destruct (requests_succeed 1 (set_answers _ s)); [|done].
    cbn [mbind result_bind].
    eexists. split; [done|]. split.
    { apply pool_inv_update_page. destruct Hinv1. by split. }
    split; [done|]. split; [done|]. split; [done|]. split; [done|].
    split; [|split; [|split]].
    + cbn [answers_ update_page set_pages set_disk set_answers]. rewrite Hans.
      rewrite drop_drop. f_equal. lia.
    + intros g q Hq. pose proof (Hpages g q Hq) as Hq1.
      assert (0 ≤ g) as Hg by (by apply page_at_Ok in Hq as [? _]).
      destruct (decide (g = f)) as [->|Hne].
      * rewrite bool_decide_eq_true_2 by set_solver.
        replace q with p by congruence.
        erewrite page_at_update_page; [|exact Hp1].
        subst p1. by destruct (bool_decide _).
      * rewrite page_at_update_page_ne by (try done; lia).
        change (page_at (set_disk ?d (set_answers ?a ?x)) g) with (page_at x g).
        rewrite Hq1.
        f_equal. apply (f_equal (λ b : bool, if b then set_is_dirty false q else q)).
        apply bool_decide_ext. rewrite fmap_cons. simpl. set_solver.
    + intros pid' Hpid'. cbn [disk_ update_page set_pages set_disk].
      rewrite fn_lookup_insert_ne by set_solver.
      apply Hdisk. set_solver.
    + intros pid' g [[= -> ->]|Hin]%elem_of_cons.
      * exists p. split; [done|]. cbn [disk_ update_page set_pages set_disk].
        by rewrite fn_lookup_insert, Hdata.
      * destruct (Hwritten pid' g Hin) as (q & Hq & Hd). exists q. split; [done|].
        cbn [disk_ update_page set_pages set_disk].
        rewrite fn_lookup_insert_ne; [done|].
        intros <-. apply Hpid. apply list_elem_of_fmap. by exists (pid, g).
Qed.

Lemma FlushAllPages_entries s :
  FlushAllPages s = flush_entries (map_to_list (page_table_ s)) s.
Proof. done. Qed.

Lemma FlushAllPages_inv N s s' :
  pool_inv N s → FlushAllPages s = Ok s' → pool_inv N s'.
Proof.
  intros Hinv. rewrite FlushAllPages_entries.
  pose proof (flush_entries_spec N s Hinv (map_to_list (page_table_ s))) as H.
  destruct (requests_succeed _ s).
  - destruct H as (s1 & -> & Hinv1 & _).
    + intros pid f Hin%elem_of_map_to_list. by eapply inv_table.
    + apply NoDup_fst_map_to_list.
    + by intros [= <-].
  - rewrite H; [done| |apply NoDup_fst_map_to_list].
    intros pid f Hin%elem_of_map_to_list. by eapply inv_table.
Qed.

Lemma pool_inv_new N disk k : 0 ≤ N → pool_inv N (new_BufferPoolManager N disk k).
Proof.
  intros HN. split; simpl.
  - done.
  - by rewrite length_replicate.
  - apply rep_ok_new.
  - intros f (i & -> & Hi%elem_of_seq)%list_elem_of_fmap. lia.
  - intros pid f. by rewrite lookup_empty.
Qed.

(** Every pool reached from the constructor keeps its frame ids within
    bounds. *)
Lemma reachable_pool_inv N k s :
  0 ≤ N → reachable_pool N k s → pool_inv N s.
Proof.
  intros HN. induction 1 as [disk|s f bytes _ IH|s r s' _ IH H|s pid r s' _ IH H
                  |s pid d r s' _ IH H|s pid r s' _ IH H|s s' _ IH H
                  |s pid r s' _ IH H].
  - by apply pool_inv_new.
  - by apply pool_inv_update_page.
  - by eapply NewPage_inv.
  - by eapply FetchPage_inv.
  - by eapply UnpinPage_inv.
  - by eapply FlushPage_inv.
  - by eapply FlushAllPages_inv.
  - by eapply DeletePage_inv.
Qed.

Lemma no_pin pool_size replacer_k s f p :
  reachable_pool pool_size replacer_k s → page_at s f = Ok p → pin_count_ p = 0.
Proof.
  intros Hreach Hp.
  pose proof (reachable_pool_never_pinned pool_size replacer_k s Hreach) as Hall.
  rewrite Forall_forall in Hall. apply Hall. by eapply page_at_pin_count.
Qed.

(** *** Pins and bounds *)

(** X17.  No call pins a page.  In every pool reached from the constructor
    by calls of NewPage, FetchPage, UnpinPage, FlushPage, FlushAllPages and
    DeletePage (and by the caller writing bytes into frames), the pin count
    of every frame is 0: the code decrements pin_count_ in UnpinPage and
    tests it in DeletePage, and never increments it. *)
Theorem no_call_pins_a_page pool_size replacer_k s f p :
  reachable_pool pool_size replacer_k s → page_at s f = Ok p → pin_count_ p = 0.
Proof. apply no_pin. Qed.

Lemma no_call_pins_a_page_witness : pin_count_ pool1_new_frame0 = 0.
Proof.
  apply (no_call_pins_a_page 1 2 pool1_new 0 pool1_new_frame0).
  - apply reachable_pool1_new.
  - vm_compute. reflexivity.
Defined.



(** *** [UnpinPage], [FlushPage] and [FlushAllPages] *)

Lemma set_is_dirty_eq p b : is_dirty_ p = b → set_is_dirty b p = p.
Proof. intros <-. by destruct p. Qed.

(** X19.  UnpinPage in a reachable pool.  For a resident page it returns
    true, sets the dirty flag when is_dirty is true and never clears it,
    and applies SetEvictable(frame, true) to the replacer (the pin count
    being 0 already); it leaves the bytes and the page id of the frame, the
    other frames, the page table, the free list and the disk as they
    are. *)
Theorem UnpinPage_never_clears_the_dirty_flag pool_size replacer_k s pid d f :
  0 ≤ pool_size ≤ 2 ^ 31 → reachable_pool pool_size replacer_k s →
  page_table_ s !! pid = Some f →
  ∃ p s', page_at s f = Ok p ∧ UnpinPage pid d s = Ok (true, s') ∧
    page_at s' f = Ok (set_is_dirty (is_dirty_ p || d) p) ∧
    (∀ g, g ≠ f → page_at s' g = page_at s g) ∧
    replacer_ s' = SetEvictable f true (replacer_ s) ∧
    page_table_ s' = page_table_ s ∧ free_list_ s' = free_list_ s ∧
    disk_ s' = disk_ s.
Proof.
  intros HN Hreach Hf.
  pose proof (reachable_pool_inv pool_size replacer_k s ltac:(lia) Hreach) as Hinv.
  pose proof (inv_table _ _ Hinv pid f Hf) as Hrange.
  destruct (page_at_inv _ s f Hinv Hrange) as [p Hp].
  pose proof (no_pin pool_size replacer_k s f p Hreach Hp) as Hpin.
  exists p. unfold UnpinPage. rewrite Hf, Hp. cbn [mbind result_bind].
  rewrite Hpin. cbn [Z.ltb Z.compare].
  set (s1 := if (d && negb (is_dirty_ p))%bool
             then update_page f (set_is_dirty true) s else s).
  assert (page_at s1 f = Ok (set_is_dirty (is_dirty_ p || d) p) ∧
          (∀ g, g ≠ f → page_at s1 g = page_at s g) ∧
          replacer_ s1 = replacer_ s ∧ page_table_ s1 = page_table_ s ∧
          free_list_ s1 = free_list_ s ∧ disk_ s1 = disk_ s)
    as (Hp1 & Hother & Hrep & Htab & Hfree & Hdisk).
  { subst s1. destruct d, (is_dirty_ p) eqn:Hd; simpl;
      rewrite ?(set_is_dirty_eq p _ Hd); try done.
    split; [|split; [|done]].
    - by rewrite (page_at_update_page s f _ p Hp).
    - intros g Hg. apply page_at_update_page_ne; [done|lia]. }
  rewrite Hp1. cbn [mbind result_bind pin_count_ set_is_dirty].
  rewrite Hpin. cbn [Z.eqb]. eexists. split; [done|]. simpl.
  rewrite Hrep. by repeat split.
Qed.


Lemma UnpinPage_never_clears_the_dirty_flag_witness :
  ∃ p s', page_at pool1_unpinned_dirty 0 = Ok p ∧
    UnpinPage 0 false pool1_unpinned_dirty = Ok (true, s') ∧
    page_at s' 0 = Ok (set_is_dirty (is_dirty_ p || false) p) ∧
    (∀ g, g ≠ 0 → page_at s' g = page_at pool1_unpinned_dirty g) ∧
    replacer_ s' = SetEvictable 0 true (replacer_ pool1_unpinned_dirty) ∧
    page_table_ s' = page_table_ pool1_unpinned_dirty ∧
    free_list_ s' = free_list_ pool1_unpinned_dirty ∧
    disk_ s' = disk_ pool1_unpinned_dirty.
Proof.
  apply (UnpinPage_never_clears_the_dirty_flag 1 2 pool1_unpinned_dirty 0 false 0).
  - vm_compute. split; discriminate.
  - apply reachable_pool1_unpinned_dirty.
  - vm_compute. reflexivity.
Defined.

(** X20.  FlushPage in a reachable pool.  For a resident page it schedules
    one write of the frame, dirty or not.  When the disk answers the request
    with failure, FlushPage throws ExecutionException.  When it answers with
    success, FlushPage returns true, the disk holds the bytes of the frame
    under the page id and is as before under every other id, and the dirty
    flag of the frame is cleared; nothing else changes. *)
Theorem FlushPage_writes_the_frame pool_size replacer_k s pid f :
  0 ≤ pool_size ≤ 2 ^ 31 → reachable_pool pool_size replacer_k s →
  page_table_ s !! pid = Some f →
  ∃ p, page_at s f = Ok p ∧
    if requests_succeed 1 s
    then
      ∃ s', FlushPage pid s = Ok (true, s') ∧
        disk_ s' pid = data_ p ∧
        (∀ pid', pid' ≠ pid → disk_ s' pid' = disk_ s pid') ∧
        answers_ s' = drop 1 (answers_ s) ∧
        page_at s' f = Ok (set_is_dirty false p) ∧
        (∀ g, g ≠ f → page_at s' g = page_at s g) ∧
        replacer_ s' = replacer_ s ∧ page_table_ s' = page_table_ s ∧
        free_list_ s' = free_list_ s
    else FlushPage pid s = ExecutionException.
Proof.
  intros HN Hreach Hf.
  pose proof (reachable_pool_inv pool_size replacer_k s ltac:(lia) Hreach) as Hinv.
  pose proof (inv_table _ _ Hinv pid f Hf) as Hrange.
  destruct (page_at_inv _ s f Hinv Hrange) as [p Hp].
  exists p. split; [done|]. unfold FlushPage. rewrite Hf, disk_write_eq, Hp.
  cbn [mbind result_bind]. destruct (requests_succeed 1 s); [|done].
  cbn [mbind result_bind].
  eexists. split; [done|].
  split; [apply fn_lookup_insert|].
  split; [by intros pid' Hne; apply fn_lookup_insert_ne|].
  split; [done|]. split.
  - by apply (page_at_update_page (set_disk _ (set_answers _ s)) f _ p).
  - split; [|done]. intros g Hg.
    rewrite page_at_update_page_ne by (try done; lia). done.
Qed.

Lemma FlushPage_writes_the_frame_witness :
  ∃ p, page_at pool1_written_unpinned 0 = Ok p ∧
    if requests_succeed 1 pool1_written_unpinned
    then
      ∃ s', FlushPage 0 pool1_written_unpinned = Ok (true, s') ∧
        disk_ s' 0 = data_ p ∧
        (∀ pid', pid' ≠ 0 → disk_ s' pid' = disk_ pool1_written_unpinned pid') ∧
        answers_ s' = drop 1 (answers_ pool1_written_unpinned) ∧
        page_at s' 0 = Ok (set_is_dirty false p) ∧
        (∀ g, g ≠ 0 → page_at s' g = page_at pool1_written_unpinned g) ∧
        replacer_ s' = replacer_ pool1_written_unpinned ∧
        page_table_ s' = page_table_ pool1_written_unpinned ∧
        free_list_ s' = free_list_ pool1_written_unpinned
    else FlushPage 0 pool1_written_unpinned = ExecutionException.
Proof.
  apply (FlushPage_writes_the_frame 1 2 pool1_written_unpinned 0 0).
  - vm_compute. split; discriminate.
  - apply reachable_pool1_written_unpinned.
  - vm_compute. reflexivity.
Defined.

(** X21.  FlushAllPages in a reachable pool.  It schedules one write for
    every entry of the page table.  When the disk answers one of them with
    failure, FlushAllPages throws ExecutionException.  When it answers them
    all with success, FlushAllPages returns; afterwards the disk holds,
    under every resident page id, the bytes of the frame the page table
    gives for it, and is as before under every other id; every frame the
    page table names is clean, the other frames keep their flag; no frame
    changes its bytes or its page id, and the page table, the free list and
    the replacer are as before. *)
Theorem FlushAllPages_writes_every_resident_page pool_size replacer_k s :
  0 ≤ pool_size ≤ 2 ^ 31 → reachable_pool pool_size replacer_k s →
  if requests_succeed (size (page_table_ s)) s
  then
    ∃ s', FlushAllPages s = Ok s' ∧
      (∀ pid f, page_table_ s !! pid = Some f →
         ∃ p, page_at s f = Ok p ∧ disk_ s' pid = data_ p ∧
              page_at s' f = Ok (set_is_dirty false p)) ∧
      (∀ pid, page_table_ s !! pid = None → disk_ s' pid = disk_ s pid) ∧
      (∀ f p, page_at s f = Ok p → (∀ pid, page_table_ s !! pid ≠ Some f) →
         page_at s' f = Ok p) ∧
      answers_ s' = drop (size (page_table_ s)) (answers_ s) ∧
      page_table_ s' = page_table_ s ∧ free_list_ s' = free_list_ s ∧
      replacer_ s' = replacer_ s
  else FlushAllPages s = ExecutionException.
Proof.
  intros HN Hreach.
  pose proof (reachable_pool_inv pool_size replacer_k s ltac:(lia) Hreach) as Hinv.
  rewrite FlushAllPages_entries.
  pose proof (flush_entries_spec pool_size s Hinv (map_to_list (page_table_ s)))
    as Hspec.
  rewrite length_map_to_list in Hspec.
  assert (∀ pid f, (pid, f) ∈ map_to_list (page_table_ s) → 0 ≤ f < pool_size)
    as Hrange.
  { intros pid f Hin%elem_of_map_to_list. by eapply inv_table. }
  specialize (Hspec Hrange (NoDup_fst_map_to_list _)).
  destruct (requests_succeed (size (page_table_ s)) s); [|done].
  destruct Hspec
    as (s' & -> & _ & Htab & Hfree & Hrep & _ & Hans & Hpages & Hdisk & Hwritten).
  assert (∀ f, f ∈ (map_to_list (page_table_ s)).*2 ↔
               ∃ pid, page_table_ s !! pid = Some f) as Hframes.
  { intros f. rewrite list_elem_of_fmap. split.
    - intros ([pid g] & -> & Hin%elem_of_map_to_list). by exists pid.
    - intros [pid Hpid]. exists (pid, f). split; [done|].
      by apply elem_of_map_to_list. }
  exists s'. split; [done|]. split; [|split; [|split; [|done]]].
  - intros pid f Hf.
    destruct (Hwritten pid f) as (p & Hp & Hd); [by apply elem_of_map_to_list|].
    exists p. split; [done|]. split; [done|].
    rewrite (Hpages f p Hp). rewrite bool_decide_eq_true_2; [done|].
    apply Hframes. by exists pid.
  - intros pid Hpid. apply Hdisk.
    intros ([pid' g] & -> & Hin%elem_of_map_to_list)%list_elem_of_fmap.
    simpl in Hpid. congruence.
  - intros f p Hp Hnone. rewrite (Hpages f p Hp).
    rewrite bool_decide_eq_false_2; [done|].
    intros [pid Hpid]%Hframes. by eapply Hnone.
Qed.

Lemma FlushAllPages_writes_every_resident_page_witness :
  if requests_succeed (size (page_table_ pool1_written_unpinned))
       pool1_written_unpinned
  then
    ∃ s', FlushAllPages pool1_written_unpinned = Ok s' ∧
      (∀ pid f, page_table_ pool1_written_unpinned !! pid = Some f →
         ∃ p, page_at pool1_written_unpinned f = Ok p ∧
              disk_ s' pid = data_ p ∧
              page_at s' f = Ok (set_is_dirty false p)) ∧
      (∀ pid, page_table_ pool1_written_unpinned !! pid = None →
         disk_ s' pid = disk_ pool1_written_unpinned pid) ∧
      (∀ f p, page_at pool1_written_unpinned f = Ok p →
         (∀ pid, page_table_ pool1_written_unpinned !! pid ≠ Some f) →
         page_at s' f = Ok p) ∧
      answers_ s' = drop (size (page_table_ pool1_written_unpinned))
                      (answers_ pool1_written_unpinned) ∧
      page_table_ s' = page_table_ pool1_written_unpinned ∧
      free_list_ s' = free_list_ pool1_written_unpinned ∧
      replacer_ s' = replacer_ pool1_written_unpinned
  else FlushAllPages pool1_written_unpinned = ExecutionException.
Proof.
  apply (FlushAllPages_writes_every_resident_page 1 2 pool1_written_unpinned).
  - vm_compute. split; discriminate.
  - apply reachable_pool1_written_unpinned.
Defined.

(** *** A free frame *)

Lemma touch_frame N f s :
  pool_inv N s → 0 ≤ N ≤ 2 ^ 31 → 0 ≤ f < N →
  ∃ rep, RecordAccess f (replacer_ s) = Ok rep ∧
         touch f s = Ok (set_replacer (SetEvictable f false rep) s).
Proof.
  intros Hinv HN Hf. unfold touch.
  assert (∃ rep, RecordAccess f (replacer_ s) = Ok rep) as [rep Hrep].
  { destruct (inv_replacer _ _ Hinv) as [Hsize _].
    unfold RecordAccess. cbn [replacer_size_ set_current_timestamp]. rewrite Hsize.
    assert (to_size_t f = f) as ->.
    { apply to_size_t_small. unfold SIZE_MOD. lia. }
    rewrite (proj2 (Z.leb_gt N f)) by lia.
    destruct (node_store_ _ !! f) as [n|]; [|by eexists].
    destruct (node_RecordAccess _ n) as [n' dropped].
    destruct dropped; [by eexists|]. destruct (_ <? _); by eexists. }
  exists rep. by rewrite Hrep.
Qed.

(** [NewPage] with a frame on the free list. *)
Lemma NewPage_free N s rest f :
  pool_inv N s → 0 ≤ N ≤ 2 ^ 31 → free_list_ s = rest ++ [f] →
  ∃ p rep, page_at s f = Ok p ∧ RecordAccess f (replacer_ s) = Ok rep ∧
    NewPage s =
      Ok (Some (next_page_id_ s, f),
          set_page_table (emplace (next_page_id_ s) f (page_table_ s))
            (update_page f (set_page_id (next_page_id_ s))
               (set_next_page_id (wrap_int32 (next_page_id_ s + 1))
                  (set_replacer (SetEvictable f false rep)
                     (set_free_list rest s))))).
Proof.
  intros Hinv HN Hfree.
  assert (0 ≤ f < N) as Hf.
  { apply (inv_free _ _ Hinv). rewrite Hfree. set_solver. }
  destruct (page_at_inv N s f Hinv Hf) as [p Hp].
  assert (pool_inv N (set_free_list rest s)) as Hinv1.
  { apply pool_inv_set_free_list; [done|]. intros g Hg.
    apply (inv_free _ _ Hinv). rewrite Hfree. set_solver. }
  destruct (touch_frame N f _ Hinv1 HN Hf) as (rep & Hrep & Htouch).
  exists p, rep. split; [done|]. split; [done|].
  unfold NewPage. rewrite (proj2 (pop_back_Some _ f rest) Hfree).
  rewrite Htouch. cbn [mbind result_bind]. unfold install_new.
  cbn [AllocatePage].
  change (page_at (set_next_page_id ?i (set_replacer ?r (set_free_list ?l s))) f)
    with (page_at s f).
  rewrite Hp. done.
Qed.

(** [FetchPage] of a page that is not resident, with a frame on the free
    list. *)
Lemma FetchPage_free N s pid rest f :
  pool_inv N s → 0 ≤ N ≤ 2 ^ 31 → page_table_ s !! pid = None →
  free_list_ s = rest ++ [f] →
  ∃ p rep, page_at s f = Ok p ∧ RecordAccess f (replacer_ s) = Ok rep ∧
    FetchPage pid s =
      if requests_succeed 1 s
      then
        Ok (Some f,
            set_page_table (<[pid := f]> (page_table_ s))
              (update_page f (set_page_id pid)
                 (set_replacer (SetEvictable f false rep)
                    (update_page f (set_data (disk_ s pid))
                       (set_answers (drop 1 (answers_ s))
                          (set_free_list rest s))))))
      else ExecutionException.
Proof.
  intros Hinv HN Hpid Hfree.
  assert (0 ≤ f < N) as Hf.
  { apply (inv_free _ _ Hinv). rewrite Hfree. set_solver. }
  destruct (page_at_inv N s f Hinv Hf) as [p Hp].
  assert (pool_inv N (set_free_list rest s)) as Hinv1.
  { apply pool_inv_set_free_list; [done|]. intros g Hg.
    apply (inv_free _ _ Hinv). rewrite Hfree. set_solver. }
  set (s1 := update_page f (set_data (disk_ s pid))
               (set_answers (drop 1 (answers_ s)) (set_free_list rest s))).
  assert (pool_inv N s1) as Hinv2.
  { apply pool_inv_update_page. destruct Hinv1. by split. }
  destruct (touch_frame N f s1 Hinv2 HN Hf) as (rep & Hrep & Htouch).
  exists p, rep. split; [done|]. split; [done|].
  unfold FetchPage. rewrite Hpid, (proj2 (pop_back_Some _ f rest) Hfree).
  unfold install_fetched. rewrite disk_read_eq.
  change (page_at (set_free_list rest s) f) with (page_at s f). rewrite Hp.
  cbn [mbind result_bind].
  change (requests_succeed 1 (set_free_list rest s)) with (requests_succeed 1 s).
  destruct (requests_succeed 1 s); [|done]. cbn [mbind result_bind].
  change (disk_ (set_free_list rest s)) with (disk_ s).
  change (answers_ (set_free_list rest s)) with (answers_ s). fold s1.
  rewrite Htouch. cbn [mbind result_bind]. unfold emplace.
  change (page_table_ (update_page ?a ?b (set_replacer ?c s1))) with (page_table_ s).
  by rewrite Hpid.
Qed.

(** X22.  NewPage with a free frame.  In a reachable pool whose free list
    is not empty, NewPage returns a page: it takes the frame at the back of
    the free list, gives it the page id next_page_id_ and moves the counter
    on by one; it records an access of the frame in the replacer and marks
    it not evictable; it enters the page in the page table unless the id is
    in it already (emplace).  The bytes of the frame and the disk are left
    as they are. *)
Theorem NewPage_takes_the_last_free_frame pool_size replacer_k s rest f :
  0 ≤ pool_size ≤ 2 ^ 31 → reachable_pool pool_size replacer_k s →
  free_list_ s = rest ++ [f] →
  ∃ p rep s', page_at s f = Ok p ∧ RecordAccess f (replacer_ s) = Ok rep ∧
    NewPage s = Ok (Some (next_page_id_ s, f), s') ∧
    free_list_ s' = rest ∧
    next_page_id_ s' = wrap_int32 (next_page_id_ s + 1) ∧
    page_at s' f = Ok (set_page_id (next_page_id_ s) p) ∧
    replacer_ s' = SetEvictable f false rep ∧
    page_table_ s' = emplace (next_page_id_ s) f (page_table_ s) ∧
    disk_ s' = disk_ s.
Proof.
  intros HN Hreach Hfree.
  pose proof (reachable_pool_inv pool_size replacer_k s ltac:(lia) Hreach) as Hinv.
  destruct (NewPage_free pool_size s rest f Hinv HN Hfree) as (p & rep & Hp & Hrep & ->).
  exists p, rep. eexists. split; [done|]. split; [done|]. split; [done|].
  split; [done|]. split; [done|]. split; [|done].
  apply (page_at_update_page _ f _ p). exact Hp.
Qed.

Lemma NewPage_takes_the_last_free_frame_witness :
  ∃ p rep s', page_at pool1 0 = Ok p ∧ RecordAccess 0 (replacer_ pool1) = Ok rep ∧
    NewPage pool1 = Ok (Some (next_page_id_ pool1, 0), s') ∧
    free_list_ s' = [] ∧
    next_page_id_ s' = wrap_int32 (next_page_id_ pool1 + 1) ∧
    page_at s' 0 = Ok (set_page_id (next_page_id_ pool1) p) ∧
    replacer_ s' = SetEvictable 0 false rep ∧
    page_table_ s' = emplace (next_page_id_ pool1) 0 (page_table_ pool1) ∧
    disk_ s' = disk_ pool1.
Proof.
  apply (NewPage_takes_the_last_free_frame 1 2 pool1 [] 0).
  - vm_compute. split; discriminate.
  - apply (reach_pool_new 1 2 blank_disk).
  - vm_compute. reflexivity.
Defined.

(** X23.  FetchPage of a page that is not resident, with a free frame.  In
    a reachable pool it takes the frame at the back of the free list and
    schedules one read into it.  When the disk answers the request with
    failure, FetchPage throws ExecutionException.  When it answers with
    success, FetchPage returns the frame, holding the bytes the disk has for
    the page under the page id asked for; the frame is entered in the page
    table, an access of it is recorded and it is marked not evictable.  The
    disk and the other frames are left as they are. *)
Theorem FetchPage_loads_the_page_into_a_free_frame pool_size replacer_k s pid rest f :
  0 ≤ pool_size ≤ 2 ^ 31 → reachable_pool pool_size replacer_k s →
  page_table_ s !! pid = None → free_list_ s = rest ++ [f] →
  if requests_succeed 1 s
  then
    ∃ p rep s', page_at s f = Ok p ∧ RecordAccess f (replacer_ s) = Ok rep ∧
      FetchPage pid s = Ok (Some f, s') ∧
      free_list_ s' = rest ∧
      page_at s' f = Ok (set_page_id pid (set_data (disk_ s pid) p)) ∧
      (∀ g, g ≠ f → page_at s' g = page_at s g) ∧
      replacer_ s' = SetEvictable f false rep ∧
      page_table_ s' = <[pid := f]> (page_table_ s) ∧
      disk_ s' = disk_ s ∧ answers_ s' = drop 1 (answers_ s)
  else FetchPage pid s = ExecutionException.
Proof.
  intros HN Hreach Hpid Hfree.
  pose proof (reachable_pool_inv pool_size replacer_k s ltac:(lia) Hreach) as Hinv.
  assert (0 ≤ f < pool_size) as Hf.
  { apply (inv_free _ _ Hinv). rewrite Hfree. set_solver. }
  destruct (FetchPage_free pool_size s pid rest f Hinv HN Hpid Hfree)
    as (p & rep & Hp & Hrep & ->).
  destruct (requests_succeed 1 s); [|done].
  exists p, rep. eexists. split; [done|]. split; [done|]. split; [done|].
  split; [done|]. split; [|split; [|done]].
  - apply (page_at_update_page _ f _ _).
    apply (page_at_update_page (set_answers _ (set_free_list rest s)) f _ p).
    exact Hp.
  - intros g Hg.
    change (page_at (set_page_table ?m ?x) g) with (page_at x g).
    rewrite page_at_update_page_ne by (try done; lia).
    change (page_at (set_replacer ?m ?x) g) with (page_at x g).
    rewrite page_at_update_page_ne by (try done; lia). done.
Qed.

Lemma FetchPage_loads_the_page_into_a_free_frame_witness :
  if requests_succeed 1 pool1_patchy
  then
    ∃ p rep s', page_at pool1_patchy 0 = Ok p ∧
      RecordAccess 0 (replacer_ pool1_patchy) = Ok rep ∧
      FetchPage 5 pool1_patchy = Ok (Some 0, s') ∧
      free_list_ s' = [] ∧
      page_at s' 0 = Ok (set_page_id 5 (set_data (disk_ pool1_patchy 5) p)) ∧
      (∀ g, g ≠ 0 → page_at s' g = page_at pool1_patchy g) ∧
      replacer_ s' = SetEvictable 0 false rep ∧
      page_table_ s' = <[5 := 0]> (page_table_ pool1_patchy) ∧
      disk_ s' = disk_ pool1_patchy ∧
      answers_ s' = drop 1 (answers_ pool1_patchy)
  else FetchPage 5 pool1_patchy = ExecutionException.
Proof.
  apply (FetchPage_loads_the_page_into_a_free_frame 1 2 pool1_patchy 5 [] 0).
  - vm_compute. split; discriminate.
  - apply (reach_pool_new 1 2 patchy_disk).
  - vm_compute. reflexivity.
  - vm_compute. reflexivity.
Defined.


(** *** [DeletePage] *)

(** [DeletePage] of a resident page in a reachable pool comes down to the
    [Remove] of the replacer. *)
Lemma DeletePage_resident pool_size replacer_k s pid f :
  0 ≤ pool_size ≤ 2 ^ 31 → reachable_pool pool_size replacer_k s →
  page_table_ s !! pid = Some f →
  ∃ p, page_at s f = Ok p ∧
    DeletePage pid s =
      (rep ← Remove f (replacer_ s);
       Ok (true,
           update_page f ResetMemory
             (set_free_list (free_list_ s ++ [f])
                (set_replacer rep
                   (set_page_table (delete pid (page_table_ s)) s))))).
Proof.
  intros HN Hreach Hf.
  pose proof (reachable_pool_inv pool_size replacer_k s ltac:(lia) Hreach) as Hinv.
  pose proof (inv_table _ _ Hinv pid f Hf) as Hrange.
  destruct (page_at_inv _ s f Hinv Hrange) as [p Hp].
  pose proof (no_pin pool_size replacer_k s f p Hreach Hp) as Hpin.
  exists p. split; [done|].
  unfold DeletePage, erase_found. rewrite Hf, Hp. cbn [mbind result_bind].
  by rewrite Hpin.
Qed.

(** X24.  DeletePage of a resident page never returns false.  In a
    reachable pool, where no frame is pinned, DeletePage of a resident page
    either throws ExecutionException, when the replacer has the frame
    tracked and not evictable (the page table entry is erased before the
    replacer refuses), or returns true; then the page is out of the page
    table, the frame is at the back of the free list with its bytes zeroed,
    the replacer no longer tracks the frame, and the disk is as before. *)
Theorem DeletePage_of_a_resident_page pool_size replacer_k s pid f :
  0 ≤ pool_size ≤ 2 ^ 31 → reachable_pool pool_size replacer_k s →
  page_table_ s !! pid = Some f →
  (∃ n, node_store_ (replacer_ s) !! f = Some n ∧ is_evictable_ n = false ∧
        DeletePage pid s = ExecutionException) ∨
  (∃ p rep s', page_at s f = Ok p ∧ Remove f (replacer_ s) = Ok rep ∧
     DeletePage pid s = Ok (true, s') ∧
     page_table_ s' = delete pid (page_table_ s) ∧
     free_list_ s' = free_list_ s ++ [f] ∧
     replacer_ s' = rep ∧ node_store_ rep !! f = None ∧
     page_at s' f = Ok (ResetMemory p) ∧ disk_ s' = disk_ s).
Proof.
  intros HN Hreach Hf.
  destruct (DeletePage_resident pool_size replacer_k s pid f HN Hreach Hf)
    as (p & Hp & ->).
  destruct (Remove f (replacer_ s)) as [rep| | | | |] eqn:Hrem.
  - right. exists p, rep. eexists. split; [done|]. split; [done|].
    cbn [mbind result_bind]. split; [done|]. split; [done|]. split; [done|].
    split; [done|]. split; [by eapply Remove_untracks|]. split; [|done].
    by apply (page_at_update_page _ f _ p).
  - unfold Remove in Hrem. destruct (node_store_ (replacer_ s) !! f); [|done].
    by destruct (negb _).
  - left. unfold Remove in Hrem.
    destruct (node_store_ (replacer_ s) !! f) as [n|]; [|done].
    unfold GetEvictable in Hrem. destruct (is_evictable_ n) eqn:Hev; [done|].
    by exists n.
  - unfold Remove in Hrem. destruct (node_store_ (replacer_ s) !! f); [|done].
    by destruct (negb _).
  - unfold Remove in Hrem. destruct (node_store_ (replacer_ s) !! f); [|done].
    by destruct (negb _).
  - unfold Remove in Hrem. destruct (node_store_ (replacer_ s) !! f); [|done].
    by destruct (negb _).
Qed.

Lemma DeletePage_of_a_resident_page_witness :
  (∃ n, node_store_ (replacer_ pool1_new) !! 0 = Some n ∧ is_evictable_ n = false ∧
        DeletePage 0 pool1_new = ExecutionException) ∨
  (∃ p rep s', page_at pool1_new 0 = Ok p ∧
     Remove 0 (replacer_ pool1_new) = Ok rep ∧
     DeletePage 0 pool1_new = Ok (true, s') ∧
     page_table_ s' = delete 0 (page_table_ pool1_new) ∧
     free_list_ s' = free_list_ pool1_new ++ [0] ∧
     replacer_ s' = rep ∧ node_store_ rep !! 0 = None ∧
     page_at s' 0 = Ok (ResetMemory p) ∧ disk_ s' = disk_ pool1_new).
Proof.
  apply (DeletePage_of_a_resident_page 1 2 pool1_new 0 0).
  - vm_compute. split; discriminate.
  - apply reachable_pool1_new.
  - vm_compute. reflexivity.
Defined.

(** X25.  The frame of a deleted page is the next one handed out.  When
    DeletePage returns true in a reachable pool, the NewPage that follows
    returns a page, in the frame the deleted page had, with the page id
    next_page_id_: the free list is used from its back, where DeletePage
    puts the frame. *)
Theorem NewPage_reuses_the_frame_of_a_deleted_page pool_size replacer_k s pid s1 :
  0 ≤ pool_size ≤ 2 ^ 31 → reachable_pool pool_size replacer_k s →
  DeletePage pid s = Ok (true, s1) →
  ∃ f s2, page_table_ s !! pid = Some f ∧
    NewPage s1 = Ok (Some (next_page_id_ s, f), s2) ∧
    free_list_ s2 = free_list_ s.
Proof.
  intros HN Hreach Hdel.
  pose proof (reach_DeletePage _ _ s pid true s1 Hreach Hdel) as Hreach1.
  pose proof (reachable_pool_inv pool_size replacer_k s1 ltac:(lia) Hreach1) as Hinv1.
  destruct (page_table_ s !! pid) as [f|] eqn:Hf.
  2:{ unfold DeletePage in Hdel. by rewrite Hf in Hdel. }
  destruct (DeletePage_resident pool_size replacer_k s pid f HN Hreach Hf)
    as (p & Hp & Heq).
  rewrite Heq in Hdel. apply bind_Ok in Hdel as (rep & Hrem & Hs1).
  apply Ok_inj, pair_equal_spec in Hs1 as [_ <-].
  destruct (NewPage_free pool_size _ (free_list_ s) f Hinv1 HN eq_refl)
    as (p1 & rep1 & _ & _ & HNew).
  exists f. eexists. split; [done|]. split; [exact HNew|done].
Qed.

Lemma NewPage_reuses_the_frame_of_a_deleted_page_witness :
  ∃ f s2, page_table_ pool1_unpinned !! 0 = Some f ∧
    NewPage (pool_of (DeletePage 0 pool1_unpinned)) =
      Ok (Some (next_page_id_ pool1_unpinned, f), s2) ∧
    free_list_ s2 = free_list_ pool1_unpinned.
Proof.
  apply (NewPage_reuses_the_frame_of_a_deleted_page 1 2 pool1_unpinned 0).
  - vm_compute. split; discriminate.
  - apply reachable_pool1_unpinned.
  - vm_compute. reflexivity.
Defined.

(** X26.  A flushed page comes back from the disk.  In a reachable pool,
    after a FlushPage(p) that returns true and a DeletePage(p) that returns
    true (which zeroes the frame), FetchPage(p) schedules one read: when the
    disk answers it with failure FetchPage throws ExecutionException, and
    when it answers with success FetchPage returns the frame the page had,
    holding the bytes the page had when it was flushed, under the page id p,
    and the page is resident again. *)
Theorem a_flushed_page_comes_back pool_size replacer_k s pid f p s1 s2 :
  0 ≤ pool_size ≤ 2 ^ 31 → reachable_pool pool_size replacer_k s →
  page_table_ s !! pid = Some f → page_at s f = Ok p →
  FlushPage pid s = Ok (true, s1) → DeletePage pid s1 = Ok (true, s2) →
  if requests_succeed 1 s2
  then
    ∃ s3 p3, FetchPage pid s2 = Ok (Some f, s3) ∧
      page_at s3 f = Ok p3 ∧ data_ p3 = data_ p ∧ page_id_ p3 = pid ∧
      page_table_ s3 !! pid = Some f
  else FetchPage pid s2 = ExecutionException.
Proof.
  intros HN Hreach Hf Hp Hflush Hdel.
  pose proof (reach_FlushPage _ _ s pid true s1 Hreach Hflush) as Hreach1.
  pose proof (reach_DeletePage _ _ s1 pid true s2 Hreach1 Hdel) as Hreach2.
  pose proof (reachable_pool_inv pool_size replacer_k s2 ltac:(lia) Hreach2) as Hinv2.
  unfold FlushPage in Hflush. rewrite Hf, disk_write_eq, Hp in Hflush.
  cbn [mbind result_bind] in Hflush.
  destruct (requests_succeed 1 s); [|done]. cbn [mbind result_bind] in Hflush.
  apply Ok_inj, pair_equal_spec in Hflush as [_ <-].
  destruct (DeletePage_resident pool_size replacer_k _ pid f HN Hreach1 Hf)
    as (p1 & Hp1 & Heq).
  rewrite Heq in Hdel. apply bind_Ok in Hdel as (rep & Hrem & Hs2).
  apply Ok_inj, pair_equal_spec in Hs2 as [_ <-].
  match type of Hinv2 with pool_inv _ ?x => set (s2 := x) in * end.
  assert (page_table_ s2 !! pid = None) as Hgone.
  { subst s2. simpl. apply lookup_delete_eq. }
  assert (disk_ s2 pid = data_ p) as Hdisk.
  { subst s2. simpl. apply fn_lookup_insert. }
  destruct (FetchPage_free pool_size s2 pid (free_list_ s) f Hinv2 HN Hgone eq_refl)
    as (p2 & rep2 & Hp2 & _ & ->).
  destruct (requests_succeed 1 s2); [|done].
  eexists _, _. split; [done|]. split.
  { eapply page_at_update_page.
    apply (page_at_update_page
             (set_answers _ (set_free_list (free_list_ s) s2)) f _ p2).
    exact Hp2. }
  split; [|split; [done|]].
  - cbn [data_ set_page_id set_data]. by rewrite Hdisk.
  - cbn [page_table_ set_page_table]. apply lookup_insert_eq.
Qed.

Lemma a_flushed_page_comes_back_witness :
  if requests_succeed 1
       (pool_of (DeletePage 0 (pool_of (FlushPage 0 pool1_written_unpinned))))
  then
    ∃ s3 p3,
      FetchPage 0
          (pool_of (DeletePage 0 (pool_of (FlushPage 0 pool1_written_unpinned))))
        = Ok (Some 0, s3) ∧
      page_at s3 0 = Ok p3 ∧ data_ p3 = data_ (mkPage some_bytes 0 0 true) ∧
      page_id_ p3 = 0 ∧ page_table_ s3 !! 0 = Some 0
  else
    FetchPage 0
        (pool_of (DeletePage 0 (pool_of (FlushPage 0 pool1_written_unpinned))))
      = ExecutionException.
Proof.
  apply (a_flushed_page_comes_back 1 2 pool1_written_unpinned 0 0
           (mkPage some_bytes 0 0 true)
           (pool_of (FlushPage 0 pool1_written_unpinned))).
  - vm_compute. split; discriminate.
  - apply reachable_pool1_written_unpinned.
  - vm_compute. reflexivity.
  - vm_compute. reflexivity.
  - vm_compute. reflexivity.
  - vm_compute. reflexivity.
Defined.


(** *** Eviction *)

(** X27.  A dirty victim is written back before its frame is reused.  In a
    reachable pool without a free frame, when FetchPage of a page that is
    not resident gets from the replacer a frame whose page is dirty and
    resident, it schedules a write of the old page and then a read of the
    new one.  When the disk answers one of the two with failure, FetchPage
    throws ExecutionException.  When it answers both with success,
    FetchPage returns that frame; the bytes of the old page are on the disk
    under the old page id, the old page is out of the page table and the
    new one in it, and the frame holds what the disk had for the new page.
    The dirty flag of the frame stays set: FetchPage does not clear it. *)
Theorem FetchPage_writes_back_a_dirty_victim pool_size replacer_k s pid f rep p :
  0 ≤ pool_size ≤ 2 ^ 31 → reachable_pool pool_size replacer_k s →
  page_table_ s !! pid = None → free_list_ s = [] →
  0 < Size (replacer_ s) → Evict (replacer_ s) = Ok (Some f, rep) →
  page_at s f = Ok p → is_dirty_ p = true →
  is_Some (page_table_ s !! page_id_ p) →
  if requests_succeed 2 s
  then
    ∃ rep' s', RecordAccess f rep = Ok rep' ∧
      FetchPage pid s = Ok (Some f, s') ∧
      disk_ s' (page_id_ p) = data_ p ∧
      (∀ pid', pid' ≠ page_id_ p → disk_ s' pid' = disk_ s pid') ∧
      answers_ s' = drop 2 (answers_ s) ∧
      page_table_ s' = <[pid := f]> (delete (page_id_ p) (page_table_ s)) ∧
      page_at s' f = Ok (mkPage (disk_ s pid) pid (pin_count_ p) true) ∧
      (∀ g, g ≠ f → page_at s' g = page_at s g) ∧
      replacer_ s' = SetEvictable f false rep'
  else FetchPage pid s = ExecutionException.
Proof.
  intros HN Hreach Hpid Hfree Hsize Hev Hp Hdirty [g0 Hold].
  pose proof (reachable_pool_inv pool_size replacer_k s ltac:(lia) Hreach) as Hinv.
  destruct (rep_ok_Evict pool_size _ _ _ (inv_replacer _ _ Hinv) Hev) as [Hrep Hvic].
  specialize (Hvic f eq_refl).
  assert (pid ≠ page_id_ p) as Hne by congruence.
  rewrite (requests_succeed_S 1).
  (* the pool before the write-back *)
  set (s0 := set_page_table (delete (page_id_ p) (page_table_ s))
               (set_replacer rep s)).
  assert (FetchPage pid s =
          (s ← (s ← disk_write (page_id_ p) f s0;
                Ok (update_page f ResetMemory s));
           install_fetched pid f s)) as ->.
  { unfold FetchPage. rewrite Hpid, Hfree. cbn [pop_back].
    rewrite (proj2 (Z.ltb_lt _ _) Hsize), Hev. cbn [mbind result_bind].
    change (page_at (set_replacer rep s) f) with (page_at s f). rewrite Hp.
    cbn [mbind result_bind]. unfold erase_found.
    change (page_table_ (set_replacer rep s)) with (page_table_ s). rewrite Hold.
    cbn [mbind result_bind]. by rewrite Hdirty. }
  rewrite disk_write_eq.
  change (page_at s0 f) with (page_at s f). rewrite Hp. cbn [mbind result_bind].
  change (requests_succeed 1 s0) with (requests_succeed 1 s).
  destruct (requests_succeed 1 s); [|done]. cbn [andb mbind result_bind].
  change (answers_ s0) with (answers_ s). change (disk_ s0) with (disk_ s).
  (* the pool before the new page is read *)
  set (s1 := update_page f ResetMemory
               (set_disk (<[page_id_ p := data_ p]> (disk_ s))
                  (set_answers (drop 1 (answers_ s)) s0))).
  assert (pool_inv pool_size s1) as Hinv1.
  { subst s1 s0. apply pool_inv_update_page.
    destruct Hinv as [? ? ? ? Htab]. split; try done. simpl.
    intros pid' g [_ ?]%lookup_delete_Some. by eapply Htab. }
  assert (page_at s1 f = Ok (ResetMemory p)) as Hp1.
  { subst s1. by apply (page_at_update_page _ f _ p). }
  unfold install_fetched. rewrite disk_read_eq, Hp1. cbn [mbind result_bind].
  change (requests_succeed 1 s1)
    with (requests_succeed 1 (set_answers (drop 1 (answers_ s)) s)).
  destruct (requests_succeed 1 (set_answers _ s)); [|done].
  cbn [mbind result_bind].
  assert (disk_ s1 pid = disk_ s pid) as Hread.
  { subst s1 s0. simpl. by rewrite fn_lookup_insert_ne. }
  rewrite Hread.
  set (s2 := update_page f (set_data (disk_ s pid))
               (set_answers (drop 1 (answers_ s1)) s1)).
  assert (pool_inv pool_size s2) as Hinv2.
  { apply pool_inv_update_page. destruct Hinv1. by split. }
  destruct (touch_frame pool_size f s2 Hinv2 HN Hvic) as (rep' & Hrep' & Htouch).
  exists rep'. eexists. split; [exact Hrep'|]. split.
  { rewrite Htouch. cbn [mbind result_bind]. done. }
  split; [apply fn_lookup_insert|].
  split; [by intros pid' Hne'; apply fn_lookup_insert_ne|].
  split; [change (drop 1 (drop 1 (answers_ s)) = drop 2 (answers_ s));
          by rewrite drop_drop|].
  split; [|split; [|split; [|done]]].
  - cbn [page_table_ set_page_table]. unfold emplace.
    change (page_table_ (update_page ?a ?b (set_replacer ?c s2)))
      with (delete (page_id_ p) (page_table_ s)).
    rewrite lookup_delete_ne by done. by rewrite Hpid.
  - change (page_at (set_page_table ?m ?x) f) with (page_at x f).
    erewrite page_at_update_page; [|].
    2:{ change (page_at (set_replacer ?m ?x) f) with (page_at x f).
        subst s2.
        by apply (page_at_update_page (set_answers _ s1) f _ (ResetMemory p)). }
    unfold set_page_id, set_data, ResetMemory. simpl.
    by rewrite Hdirty.
  - intros g Hg.
    change (page_at (set_page_table ?m ?x) g) with (page_at x g).
    rewrite page_at_update_page_ne by (try done; lia).
    change (page_at (set_replacer ?m ?x) g) with (page_at x g).
    subst s2 s1. rewrite page_at_update_page_ne by (try done; lia).
    change (page_at (set_answers ?m ?x) g) with (page_at x g).
    rewrite page_at_update_page_ne by (try done; lia). done.
Qed.

Lemma FetchPage_writes_back_a_dirty_victim_witness :
  if requests_succeed 2 pool1_written_unpinned
  then
    ∃ rep' s',
      RecordAccess 0
          (state_of 1 2 (snd <$> Evict (replacer_ pool1_written_unpinned)))
        = Ok rep' ∧
      FetchPage 1 pool1_written_unpinned = Ok (Some 0, s') ∧
      disk_ s' (page_id_ (mkPage some_bytes 0 0 true)) =
        data_ (mkPage some_bytes 0 0 true) ∧
      (∀ pid', pid' ≠ page_id_ (mkPage some_bytes 0 0 true) →
         disk_ s' pid' = disk_ pool1_written_unpinned pid') ∧
      answers_ s' = drop 2 (answers_ pool1_written_unpinned) ∧
      page_table_ s' =
        <[1 := 0]> (delete (page_id_ (mkPage some_bytes 0 0 true))
                      (page_table_ pool1_written_unpinned)) ∧
      page_at s' 0 =
        Ok (mkPage (disk_ pool1_written_unpinned 1) 1
              (pin_count_ (mkPage some_bytes 0 0 true)) true) ∧
      (∀ g, g ≠ 0 → page_at s' g = page_at pool1_written_unpinned g) ∧
      replacer_ s' = SetEvictable 0 false rep'
  else FetchPage 1 pool1_written_unpinned = ExecutionException.
Proof.
  apply (FetchPage_writes_back_a_dirty_victim 1 2 pool1_written_unpinned 1 0
           (state_of 1 2 (snd <$> Evict (replacer_ pool1_written_unpinned)))
           (mkPage some_bytes 0 0 true)).
  - vm_compute. split; discriminate.
  - apply reachable_pool1_written_unpinned.
  - vm_compute. reflexivity.
  - vm_compute. reflexivity.
  - vm_compute. reflexivity.
  - vm_compute. reflexivity.
  - vm_compute. reflexivity.
  - vm_compute. reflexivity.
  - vm_compute. eexists. reflexivity.
Defined.

End BufferPoolLaws.
